(** * SHA-1 with re-assignable state and its length-extension attack

    A shallow embedding of [hashing/sha1_lea.py]: the [SHA1] class
    ([compress], [update], [finalize_pad_message], [finalize], [digest],
    [hexdigest], [hexdigest_to_state]) and the function [sha1_lea].

    Python integers are unbounded, so words are [Z] and the masks
    [& 0xffffffff] of the source are written out.  [bytes] objects are
    [list byte]; [str] objects are [list ascii], strings of characters
    below 256.  Exceptions are values of [exn], carried by the [result]
    type; methods that read or assign attributes of [self] live in the
    state-and-exception monad [M].  The [while] loops are defined by
    well-founded recursion on the length of what remains to be consumed.

    The library functions [textwrap.wrap] and [bytes.fromhex] are described
    on the strings without the whitespace [\t \n \x0b \x0c \r ' '], at
    which [textwrap] splits a text and which [bytes.fromhex] skips, and
    without the hyphen, after which [textwrap] may break a word.  A line
    made of the other whitespace ([\x1c] to [\x1f], [\x85], [\xa0]) is
    dropped by [textwrap.wrap], and so it is here.  The strings without any
    whitespace and without hyphens are the [plain] ones; they include every
    string [hexdigest] produces. *)

From Stdlib Require Import ZArith List Lia Ascii String.
From Stdlib Require Import Strings.Byte.
From stdpp Require Import base list.
From Equations Require Import Equations.
Import ListNotations.
Open Scope Z_scope.

(* ================================================================== *)
(** ** Exceptions *)

Inductive exn : Type :=
| AssertionError   (* a failed [assert] *)
| StructError      (* [struct.error] of [struct.pack] / [struct.unpack] *)
| ValueError       (* [bytes.fromhex] on a malformed string *)
| TypeError        (* wrong number of positional arguments *)
| IndexError       (* list index out of range *)
| NameError.       (* a local variable read before assignment *)

Inductive result (A : Type) : Type :=
| Ok (a : A)
| Raise (e : exn).
Arguments Ok {A} a.
Arguments Raise {A} e.

Definition rbind {A B} (r : result A) (k : A -> result B) : result B :=
  match r with
  | Ok a => k a
  | Raise e => Raise e
  end.

Declare Scope result_scope.
Delimit Scope result_scope with result.
Notation "'do' x <- r ; k" := (rbind r (fun x => k))
  (at level 10, x pattern, r at level 100, k at level 200) : result_scope.
Open Scope result_scope.

(** [assert c], for an interpreter that does not run with [-O]. *)
Definition assert (c : bool) : result unit :=
  if c then Ok tt else Raise AssertionError.

(** [for i in l: s = body(i, s)], stopping at the first exception. *)
Fixpoint for_in {S : Type} (l : list nat) (body : nat -> S -> result S)
    (s : S) : result S :=
  match l with
  | [] => Ok s
  | i :: l' => do s' <- body i s; for_in l' body s'
  end.

(** [[f(a) for a in l]], stopping at the first exception. *)
Fixpoint list_comp {A B : Type} (f : A -> result B) (l : list A)
    : result (list B) :=
  match l with
  | [] => Ok []
  | a :: l' => do b <- f a; do bs <- list_comp f l'; Ok (b :: bs)
  end.

(* ================================================================== *)
(** ** Bytes, [struct.pack] and [struct.unpack] *)

Definition Z_of_byte (b : byte) : Z := Z.of_N (Byte.to_N b).

Definition byte_of_Z (z : Z) : byte :=
  match Byte.of_N (Z.to_N (z mod 256)) with
  | Some b => b
  | None => x00
  end.

(** Big-endian value of a byte string. *)
Definition be_int (bs : list byte) : Z :=
  fold_left (fun acc b => acc * 256 + Z_of_byte b) bs 0.

(** The [n] low-order bytes of [v], most significant first. *)
Fixpoint be_bytes (n : nat) (v : Z) : list byte :=
  match n with
  | O => []
  | S k => be_bytes k (v / 256) ++ [byte_of_Z v]
  end.

(** [struct.unpack('>I', bs)[0]] *)
Definition unpack_I (bs : list byte) : result Z :=
  if (length bs =? 4)%nat then Ok (be_int bs) else Raise StructError.

(** [struct.pack('>I', v)] *)
Definition pack_I (v : Z) : result (list byte) :=
  if (0 <=? v) && (v <? 2 ^ 32) then Ok (be_bytes 4 v) else Raise StructError.

(** [struct.pack('>Q', v)] *)
Definition pack_Q (v : Z) : result (list byte) :=
  if (0 <=? v) && (v <? 2 ^ 64) then Ok (be_bytes 8 v) else Raise StructError.

(** The slice [l[lo:hi]] for non-negative [lo] and [hi]. *)
Definition slice {A} (lo hi : nat) (l : list A) : list A :=
  drop lo (take hi l).

(** [x[i]] and [x[i] = v] on a Python list, for a non-negative index. *)
Definition getitem (x : list Z) (i : nat) : result Z :=
  match x !! i with
  | Some v => Ok v
  | None => Raise IndexError
  end.

Definition setitem (x : list Z) (i : nat) (v : Z) : result (list Z) :=
  if (i <? length x)%nat then Ok (<[i := v]> x) else Raise IndexError.

(** Reading a local variable that may not have been assigned yet. *)
Definition local (v : option Z) : result Z :=
  match v with
  | Some z => Ok z
  | None => Raise NameError
  end.

(* ================================================================== *)
(** ** [SHA1.compress] *)

(** [leftrot = lambda w, b: ((w << b) | (w >> (32 - b))) & 0xffffffff] *)
Definition leftrot (w b : Z) : Z :=
  Z.land (Z.lor (Z.shiftl w b) (Z.shiftr w (32 - b))) 0xffffffff.

(** First loop of [compress]: [x[i] = struct.unpack('>I', chunk[4*i:4*i+4])[0]]. *)
Definition load_word (chunk : list byte) (i : nat) (x : list Z)
    : result (list Z) :=
  do w <- unpack_I (slice (4 * i) (4 * i + 4) chunk);
  setitem x i w.

(** Second loop: [x[i] = leftrot(x[i-3] ^ x[i-8] ^ x[i-14] ^ x[i-16], 1)].
    The index [i] ranges over [range(16, 80)], so [i - 3] etc. are
    non-negative and the truncated subtraction of [nat] is exact. *)
Definition expand_word (i : nat) (x : list Z) : result (list Z) :=
  do w3 <- getitem x (i - 3);
  do w8 <- getitem x (i - 8);
  do w14 <- getitem x (i - 14);
  do w16 <- getitem x (i - 16);
  setitem x i (leftrot (Z.lxor (Z.lxor (Z.lxor w3 w8) w14) w16) 1).

(** The loop-carried variables of the round loop.  [y] and [z] are assigned
    only inside the [if]/[elif] chain, which has no [else]: they start
    unbound and keep their previous value when no branch is taken. *)
Record vars : Type := mkvars {
  va : Z; vb : Z; vc : Z; vd : Z; ve : Z;
  vy : option Z; vz : option Z
}.

Definition between (lo i hi : nat) : bool := (lo <=? i)%nat && (i <=? hi)%nat.

(** Body of [for i in range(80)]. *)
Definition round (x : list Z) (i : nat) (v : vars) : result vars :=
  let '(mkvars a b c d e y z) := v in
  let '(y, z) :=
    if between 0 i 19 then
      (Some 0x5A827999,
       Some (Z.lor (Z.land b c) (Z.land (Z.lxor b 0xffffffff) d)))
    else if between 20 i 39 then
      (Some 0x6ED9EBA1, Some (Z.lxor (Z.lxor b c) d))
    else if between 40 i 59 then
      (Some 0x8F1BBCDC,
       Some (Z.lor (Z.lor (Z.land b c) (Z.land b d)) (Z.land c d)))
    else if between 60 i 79 then
      (Some 0xCA62C1D6, Some (Z.lxor (Z.lxor b c) d))
    else (y, z) in
  do zv <- local z;
  do xi <- getitem x i;
  do yv <- local y;
  let t := Z.land (leftrot a 5 + zv + e + xi + yv) 0xffffffff in
  Ok (mkvars t a (leftrot b 30) c d y z).

(** The message schedule: the list [x] after the first two loops. *)
Definition schedule (chunk : list byte) : result (list Z) :=
  let x := replicate 80 0 in
  do x <- for_in (seq 0 16) (load_word chunk) x;
  for_in (seq 16 64) expand_word x.

Definition compress (chunk : list byte) (h0 h1 h2 h3 h4 : Z)
    : result (list Z) :=
  do _ <- assert (length chunk =? 64)%nat;
  do x <- schedule chunk;
  do v <- for_in (seq 0 80) (round x) (mkvars h0 h1 h2 h3 h4 None None);
  Ok [ Z.land (h0 + va v) 0xffffffff;
       Z.land (h1 + vb v) 0xffffffff;
       Z.land (h2 + vc v) 0xffffffff;
       Z.land (h3 + vd v) 0xffffffff;
       Z.land (h4 + ve v) 0xffffffff ].

(** The call [compress(chunk, *h)]: the list [h] is unpacked into the five
    positional parameters; any other length is a [TypeError]. *)
Definition compress_star (chunk : list byte) (h : list Z) : result (list Z) :=
  match h with
  | [h0; h1; h2; h3; h4] => compress chunk h0 h1 h2 h3 h4
  | _ => Raise TypeError
  end.

(* ================================================================== *)
(** ** The hasher object *)

Record SHA1 : Type := mkSHA1 {
  h : list Z;
  hashed_bytes : Z;
  buffer : list byte
}.

Definition default_state : list Z :=
  [0x67452301; 0xefcdab89; 0x98badcfe; 0x10325476; 0xc3d2e1f0].

(** [SHA1(state)].  The default argument is a list shared by all
    instances, but no method mutates it in place ([self.h] is only ever
    re-bound), so the sharing is not observable. *)
Definition SHA1_init (state : list Z) : SHA1 :=
  {| h := state; hashed_bytes := 0; buffer := [] |}.

Definition SHA1_new : SHA1 := SHA1_init default_state.

(** Methods: a computation on [self] that returns a value and the new
    attributes of [self], or raises. *)
Definition M (A : Type) : Type := SHA1 -> result (A * SHA1).

Definition ret {A} (a : A) : M A := fun s => Ok (a, s).

Definition bind {A B} (m : M A) (k : A -> M B) : M B :=
  fun s => match m s with
           | Ok (a, s') => k a s'
           | Raise e => Raise e
           end.

Definition lift {A} (r : result A) : M A :=
  fun s => match r with Ok a => Ok (a, s) | Raise e => Raise e end.

Definition get_h : M (list Z) := fun s => Ok (h s, s).
Definition get_hashed_bytes : M Z := fun s => Ok (hashed_bytes s, s).
Definition get_buffer : M (list byte) := fun s => Ok (buffer s, s).
Definition set_buffer (v : list byte) : M unit :=
  fun s => Ok (tt, mkSHA1 (h s) (hashed_bytes s) v).

Declare Scope method_scope.
Delimit Scope method_scope with method.
Notation "'do' x <- m ; k" := (bind m (fun x => k))
  (at level 10, x pattern, m at level 100, k at level 200) : method_scope.
Bind Scope method_scope with M.

(** The [while len(self.buffer) >= 64] loop of [update].  One pass binds
    [chunk] to the first 64 bytes, re-binds [self.buffer] to the rest,
    [self.h] to the compressed state, and adds 64 to [self.hashed_bytes].
    Every pass removes 64 bytes from [self.buffer]: the termination
    measure. *)
Equations? update_loop (s : SHA1) : result (unit * SHA1)
    by wf (length (buffer s)) lt :=
  update_loop s with le_dec 64 (length (buffer s)) => {
    | left Hge with compress_star (take 64 (buffer s)) (h s) => {
        | Ok hs' =>
            update_loop {| h := hs';
                           hashed_bytes := hashed_bytes s + 64;
                           buffer := drop 64 (buffer s) |};
        | Raise e => Raise e };
    | right _ => Ok (tt, s) }.
Proof. simpl. rewrite length_drop. lia. Qed.

Definition update (data : list byte) : M unit :=
  (do b <- get_buffer;
   do _ <- set_buffer (b ++ data);
   update_loop)%method.

(** [SHA1.finalize_pad_message(prefix_length, data)] *)
Definition finalize_pad_message (prefix_length : Z) (data : list byte)
    : result (list byte) :=
  let m := data in
  let hashed_bytes := prefix_length + Z.of_nat (length m) in
  let m := m ++ x80 :: replicate (Z.to_nat ((56 - (hashed_bytes + 1) mod 64) mod 64)) x00 in
  do l <- pack_Q (hashed_bytes * 8);
  Ok (m ++ l).

(** The [while m] loop of [finalize]. *)
Equations? finalize_loop (m : list byte) (finalized_h : list Z)
    : result (list Z) by wf (length m) lt :=
  finalize_loop [] finalized_h := Ok finalized_h;
  finalize_loop (b :: m') finalized_h
    with compress_star (take 64 (b :: m')) finalized_h => {
      | Ok hs' => finalize_loop (drop 64 (b :: m')) hs';
      | Raise e => Raise e }.
Proof. simpl. rewrite length_drop. lia. Qed.

Definition finalize (remainder : list byte) : M (list Z) :=
  (do n <- get_hashed_bytes;
   do m <- lift (finalize_pad_message n remainder);
   do finalized_h <- get_h;
   lift (finalize_loop m finalized_h))%method.

Definition digest : M (list byte) :=
  (do b <- get_buffer;
   do hs <- finalize b;
   do parts <- lift (list_comp pack_I hs);
   ret (concat parts))%method.

(** The lowercase hexadecimal digit of value [d]. *)
Definition hex_digit (d : Z) : ascii :=
  nth (Z.to_nat d) (list_ascii_of_string "0123456789abcdef") "0"%char.

(** [format(v, "x")] for [v >= 0]: the hexadecimal digits of [v], lowercase,
    without leading zeros, in front of [acc]. *)
Equations? to_hex (v : Z) (acc : list ascii) : list ascii
    by wf (Z.to_nat (Z.log2 v)) lt :=
  to_hex v acc with Z_lt_dec v 16 => {
    | left _ => hex_digit v :: acc;
    | right Hge => to_hex (v / 16) (hex_digit (v mod 16) :: acc) }.
Proof.
  change 16 with (2 ^ 4) at 1. rewrite <- Z.shiftr_div_pow2 by lia.
  rewrite Z.log2_shiftr by lia.
  assert (Z.log2 16 <= Z.log2 v) by (apply Z.log2_le_mono; lia).
  change (Z.log2 16) with 4 in *. lia.
Qed.

(** [s.zfill(n)] on a string of digits. *)
Definition zfill (n : nat) (s : list ascii) : list ascii :=
  replicate (n - length s) "0"%char ++ s.

(** [format(v, "08x")]: zero-padded to width 8, the sign counting in the
    width. *)
Definition format_08x (v : Z) : list ascii :=
  if v <? 0 then "-"%char :: zfill 7 (to_hex (- v) [])
  else zfill 8 (to_hex v []).

Definition hexdigest : M (list ascii) :=
  (do b <- get_buffer;
   do hs <- finalize b;
   ret (concat (map format_08x hs)))%method.

(** Value of a hexadecimal digit, either case, as [bytes.fromhex] reads it. *)
Definition hex_val (c : ascii) : option Z :=
  let n := Z.of_nat (nat_of_ascii c) in
  if (48 <=? n) && (n <=? 57) then Some (n - 48)
  else if (97 <=? n) && (n <=? 102) then Some (n - 87)
  else if (65 <=? n) && (n <=? 70) then Some (n - 55)
  else None.

(** [c.isspace()] for a character below 256, the whitespace that
    [str.strip()] removes: [\t \n \x0b \x0c \r], [\x1c] to [\x1f], the
    space, [\x85] and [\xa0]. *)
Definition isspace (c : ascii) : bool :=
  let n := nat_of_ascii c in
  ((9 <=? n)%nat && (n <=? 13)%nat) || ((28 <=? n)%nat && (n <=? 32)%nat)
  || (n =? 133)%nat || (n =? 160)%nat.

(** The characters that make [textwrap.wrap] do more than cut the text
    every 8 characters: the whitespace and the hyphen. *)
Definition wrap_special (c : ascii) : bool :=
  isspace c || (nat_of_ascii c =? 45)%nat.

(** The strings without whitespace and hyphens.  On these [textwrap_wrap8]
    below drops no line and [fromhex] has nothing to skip. *)
Definition plain (s : list ascii) : bool := forallb (fun c => negb (wrap_special c)) s.

(** [bytes.fromhex(s)] on a string without the whitespace
    [\t \n \x0b \x0c \r ' '], which the library skips: two hexadecimal
    digits per byte, and [ValueError] on any other character or on a digit
    left alone. *)
Fixpoint fromhex (s : list ascii) : result (list byte) :=
  match s with
  | [] => Ok []
  | [_] => Raise ValueError
  | c1 :: c2 :: r =>
      match hex_val c1, hex_val c2 with
      | Some a, Some b => do bs <- fromhex r; Ok (byte_of_Z (16 * a + b) :: bs)
      | _, _ => Raise ValueError
      end
  end.

(** [textwrap.wrap(s, 8)] on a string without [\t \n \x0b \x0c \r ' ']
    and ['-']: the text is one long word, which the library breaks into
    pieces of 8 characters, the last one possibly shorter.  A piece that
    [strip()] empties -- one made of whitespace -- is dropped; the others
    are the lines.  The empty string gives no line. *)
Equations? textwrap_wrap8 (s : list ascii) : list (list ascii)
    by wf (length s) lt :=
  textwrap_wrap8 [] := [];
  textwrap_wrap8 (c :: s') :=
    (if forallb isspace (take 8 (c :: s')) then [] else [take 8 (c :: s')])
    ++ textwrap_wrap8 (drop 8 (c :: s')).
Proof. simpl. rewrite length_drop. lia. Qed.

(** [struct.unpack('>I', bytes.fromhex(b))[0]], the expression evaluated
    for each line [b] in [hexdigest_to_state]. *)
Definition unpack_hex (b : list ascii) : result Z :=
  do bs <- fromhex b; unpack_I bs.

(** [SHA1.hexdigest_to_state(hexdigest)] *)
Definition hexdigest_to_state (hexdigest : list ascii) : result (list Z) :=
  list_comp unpack_hex (textwrap_wrap8 hexdigest).

(* ================================================================== *)
(** ** [sha1_lea] *)

Definition sha1_lea (hexdigest_ : list ascii) (data appendix : list byte)
    (prefixlength : Z) : result (list ascii * list byte) :=
  do state <- hexdigest_to_state hexdigest_;
  let session := SHA1_init state in
  do padded_data <- finalize_pad_message prefixlength data;
  let session := {| h := h session;
                    hashed_bytes := prefixlength + Z.of_nat (length padded_data);
                    buffer := buffer session |} in
  let session := {| h := h session;
                    hashed_bytes := hashed_bytes session;
                    buffer := appendix |} in
  do r <- hexdigest session;
  Ok (fst r, padded_data ++ appendix).

(** The hash of a whole message, as [test] computes it:
    [SHA1().update(m).hexdigest()]. *)
Definition sha1_hex (m : list byte) : result (list ascii) :=
  do r <- update m SHA1_new;
  do r' <- hexdigest (snd r);
  Ok (fst r').

(** [update(c1); update(c2); ...] in sequence on the same hasher. *)
Fixpoint updates (cs : list (list byte)) : M unit :=
  match cs with
  | [] => ret tt
  | c :: cs' => (do _ <- update c; updates cs')%method
  end.

(** Literals of the tests. *)
Definition b_ (s : string) : list byte := list_byte_of_string s.
Definition s_ (s : string) : list ascii := list_ascii_of_string s.

(* ================================================================== *)
(** ** The vocabulary of the design document

    These definitions follow the words of the specification (sections 3
    and 4), not the code; the theorems below compare the two. *)

Definition word32 (w : Z) : Prop := 0 <= w < 2 ^ 32.

Definition add32 (a b : Z) : Z := (a + b) mod 2 ^ 32.

Definition rotl32 (w n : Z) : Z :=
  Z.lor (Z.shiftl w n) (Z.shiftr w (32 - n)) mod 2 ^ 32.

(** Complement of a 32-bit word. *)
Definition not32 (b : Z) : Z := Z.lnot b mod 2 ^ 32.

(** The table of section 4.3. *)
Definition f_spec (i : nat) (b c d : Z) : Z :=
  if (i <? 20)%nat then Z.lor (Z.land b c) (Z.land (not32 b) d)
  else if (i <? 40)%nat then Z.lxor (Z.lxor b c) d
  else if (i <? 60)%nat then Z.lor (Z.lor (Z.land b c) (Z.land b d)) (Z.land c d)
  else Z.lxor (Z.lxor b c) d.

Definition K_spec (i : nat) : Z :=
  if (i <? 20)%nat then 0x5A827999
  else if (i <? 40)%nat then 0x6ED9EBA1
  else if (i <? 60)%nat then 0x8F1BBCDC
  else 0xCA62C1D6.

(** The working variables [(a, b, c, d, e)]. *)
Definition work : Type := (Z * Z * Z * Z * Z)%type.

Definition round_spec (x : list Z) (w : work) (i : nat) : work :=
  let '(a, b, c, d, e) := w in
  let t := add32 (add32 (add32 (rotl32 a 5) (f_spec i b c d)) e)
                 (add32 (nth i x 0) (K_spec i)) in
  (t, a, rotl32 b 30, c, d).

Definition rounds_spec (x : list Z) (w : work) : work :=
  fold_left (round_spec x) (seq 0 80) w.

Definition byte_at (block : list byte) (i : nat) : Z :=
  Z_of_byte (nth i block x00).

(** The [i]-th big-endian 32-bit word of a block. *)
Definition block_word (block : list byte) (i : nat) : Z :=
  byte_at block (4 * i) * 2 ^ 24 + byte_at block (4 * i + 1) * 2 ^ 16
  + byte_at block (4 * i + 2) * 2 ^ 8 + byte_at block (4 * i + 3).

(** Section 4.2: [x] is the message schedule of [block]. *)
Definition is_schedule (block : list byte) (x : list Z) : Prop :=
  length x = 80%nat /\
  (forall i, (i < 16)%nat -> nth i x 0 = block_word block i) /\
  (forall i, (16 <= i < 80)%nat ->
     nth i x 0 =
     rotl32 (Z.lxor (Z.lxor (Z.lxor (nth (i - 3) x 0) (nth (i - 8) x 0))
                            (nth (i - 14) x 0)) (nth (i - 16) x 0)) 1).

Definition compress_spec (x : list Z) (h0 h1 h2 h3 h4 : Z) : list Z :=
  let '(a, b, c, d, e) := rounds_spec x (h0, h1, h2, h3, h4) in
  [add32 h0 a; add32 h1 b; add32 h2 c; add32 h3 d; add32 h4 e].

(** Number of zero bytes of the padding (section 4.5, step 2). *)
Definition pad_zeros (total : Z) : nat :=
  Z.to_nat ((56 - (total + 1) mod 64) mod 64).

(** A lowercase hexadecimal digit. *)
Definition lower_hex (c : ascii) : bool :=
  let n := nat_of_ascii c in
  ((48 <=? n)%nat && (n <=? 57)%nat) || ((97 <=? n)%nat && (n <=? 102)%nat).

(** A hexadecimal digit of either case. *)
Definition is_hex (c : ascii) : bool :=
  match hex_val c with Some _ => true | None => false end.

(** Value of a string of hexadecimal digits, most significant first. *)
Definition hex_int (s : list ascii) : Z :=
  fold_left (fun acc c => acc * 16 + default 0 (hex_val c)) s 0.

(* ================================================================== *)
(** ** Auxiliary definitions of the proofs *)

(** Invariants of the two schedule loops. *)
Definition loaded (chunk : list byte) (k : nat) (x : list Z) : Prop :=
  length x = 80%nat /\
  forall j, (j < k)%nat -> nth j x 0 = block_word chunk j.

Definition expanded (k : nat) (x : list Z) : Prop :=
  forall j, (16 <= j < k)%nat ->
    nth j x 0 =
    rotl32 (Z.lxor (Z.lxor (Z.lxor (nth (j - 3) x 0) (nth (j - 8) x 0))
                           (nth (j - 14) x 0)) (nth (j - 16) x 0)) 1.

(** The working variables of the round loop, and their range. *)
Definition work_of (v : vars) : work := (va v, vb v, vc v, vd v, ve v).

Definition work32 (w : work) : Prop :=
  let '(a, b, c, d, e) := w in
  word32 a /\ word32 b /\ word32 c /\ word32 d /\ word32 e.

(** The hasher [s] with [buffer] re-bound. *)
Definition with_buffer (s : SHA1) (b : list byte) : SHA1 :=
  {| h := h s; hashed_bytes := hashed_bytes s; buffer := b |}.

(** What [finalize_pad_message] appends to [data]. *)
Definition pad_tail (total : Z) : list byte :=
  x80 :: replicate (pad_zeros total) x00 ++ be_bytes 8 (total * 8).

(** The [n] low-order hexadecimal digits of [v], most significant first. *)
Fixpoint hex_fixed (n : nat) (v : Z) : list ascii :=
  match n with
  | O => []
  | S k => hex_fixed k (v / 16) ++ [hex_digit (v mod 16)]
  end.

(** The value [hexdigest] returns, without the hasher. *)
Definition hexdigest_value (s : SHA1) : result (list ascii) :=
  do r <- hexdigest s; Ok (fst r).

Definition render (hs : list Z) : list ascii := concat (map format_08x hs).

(* ================================================================== *)
(** ** The other modules

    [classic/otp.py], [tools/hamming.py], [tools/convert.py],
    [classic/caesar.py] and [tools/rsa_attack.py].  A [str] or a list of
    characters is a [list ascii]; integers are [Z]. *)

(** *** [classic/otp.py] *)

(** [bytes(vs)] on a list of integers: each must be in [range(256)]. *)
Definition bytes_of_ints (vs : list Z) : result (list byte) :=
  list_comp (fun v => if (0 <=? v) && (v <? 256) then Ok (byte_of_Z v)
                      else Raise ValueError) vs.

(** [zip(a, b)] on two [bytes] objects: pairs of integers, as many as the
    shorter one has bytes. *)
Definition zip_bytes (a b : list byte) : list (Z * Z) :=
  zip (map Z_of_byte a) (map Z_of_byte b).

(** The default argument [comb=lambda x, y: (x ^ y)]. *)
Definition comb_default (x y : Z) : Z := Z.lxor x y.

(** [otp(string_a, string_b, comb)] *)
Definition otp (string_a string_b : list byte) (comb : Z -> Z -> Z)
    : result (list byte) :=
  bytes_of_ints (map (fun xy => comb (fst xy) (snd xy))
                     (zip_bytes string_a string_b)).

(** *** [tools/hamming.py] *)

(** [bin(n)]: the sign, [0b] and the binary digits without leading zeros. *)
Fixpoint bin_digits (p : positive) (acc : list ascii) : list ascii :=
  match p with
  | xH => "1"%char :: acc
  | xO q => bin_digits q ("0"%char :: acc)
  | xI q => bin_digits q ("1"%char :: acc)
  end.

Definition bin (n : Z) : list ascii :=
  match n with
  | Z0 => s_ "0b0"
  | Zpos p => s_ "0b" ++ bin_digits p []
  | Zneg p => s_ "-0b" ++ bin_digits p []
  end.

(** [s.count(c)] for a single character [c]. *)
Definition str_count (c : ascii) (s : list ascii) : Z :=
  Z.of_nat (count_occ ascii_dec s c).

(** [sum(l)] *)
Definition py_sum (l : list Z) : Z := fold_left Z.add l 0.

(** [hamming(string_a, string_b)] *)
Definition hamming (string_a string_b : list byte) : Z :=
  py_sum (map (fun ab => str_count "1"%char (bin (Z.lxor (fst ab) (snd ab))))
              (zip_bytes string_a string_b)).

(** *** [tools/convert.py] *)

(** [alphabet.index(c)]: the first position of [c], or [ValueError]. *)
Fixpoint index (alphabet : list ascii) (c : ascii) : result Z :=
  match alphabet with
  | [] => Raise ValueError
  | a :: alphabet' =>
      if ascii_dec a c then Ok 0
      else do i <- index alphabet' c; Ok (i + 1)
  end.

(** [l[i]] for an integer index: a negative [i] counts from the end. *)
Definition getitem_Z {A} (l : list A) (i : Z) : result A :=
  let n := Z.of_nat (length l) in
  let j := if i <? 0 then i + n else i in
  if (0 <=? j) && (j <? n) then
    match l !! Z.to_nat j with
    | Some a => Ok a
    | None => Raise IndexError
    end
  else Raise IndexError.

(** [sep.join(parts)] *)
Fixpoint join (sep : list ascii) (parts : list (list ascii)) : list ascii :=
  match parts with
  | [] => []
  | [p] => p
  | p :: parts' => p ++ sep ++ join sep parts'
  end.

(** [message_to_indexlist(string, alphabet)] *)
Definition message_to_indexlist (string_ alphabet : list ascii)
    : result (list Z) :=
  list_comp (index alphabet) string_.

(** [indexlist_to_message(stream, alphabet, seperator)] *)
Definition indexlist_to_message (stream : list Z) (alphabet seperator : list ascii)
    : result (list ascii) :=
  do cs <- list_comp (getitem_Z alphabet) stream;
  Ok (join seperator (map (fun c => [c]) cs)).

(** *** [classic/caesar.py] and [tools/rsa_attack.py]

    These divide: their exceptions are the ones above and the
    [ZeroDivisionError] of [%] and [//]. *)

Inductive pyexn : Type :=
| Exn (e : exn)
| ZeroDivisionError.

Inductive outcome (A : Type) : Type :=
| Return (a : A)
| Throw (e : pyexn).
Arguments Return {A} a.
Arguments Throw {A} e.

Definition obind {A B} (r : outcome A) (k : A -> outcome B) : outcome B :=
  match r with
  | Return a => k a
  | Throw e => Throw e
  end.

Definition of_result {A} (r : result A) : outcome A :=
  match r with
  | Ok a => Return a
  | Raise e => Throw (Exn e)
  end.

Declare Scope outcome_scope.
Delimit Scope outcome_scope with outcome.
Notation "'do' x <- r ; k" := (obind r (fun x => k))
  (at level 10, x pattern, r at level 100, k at level 200) : outcome_scope.

(** [a % b] and [a // b] *)
Definition py_mod (a b : Z) : outcome Z :=
  if b =? 0 then Throw ZeroDivisionError else Return (a mod b).

Definition py_floordiv (a b : Z) : outcome Z :=
  if b =? 0 then Throw ZeroDivisionError else Return (a / b).

(** [[f(m) for m in l]], stopping at the first exception. *)
Fixpoint olist_comp {A B : Type} (f : A -> outcome B) (l : list A)
    : outcome (list B) :=
  match l with
  | [] => Return []
  | a :: l' => (do b <- f a; do bs <- olist_comp f l'; Return (b :: bs))%outcome
  end.

Record CaesarCipher : Type := mkCaesarCipher {
  alphabet : list ascii;
  key : Z
}.

(** [enc = lambda i: (i + self.key) % len(self.alphabet)] *)
Definition enc (self : CaesarCipher) (i : Z) : outcome Z :=
  py_mod (i + key self) (Z.of_nat (length (alphabet self))).

(** [dec = lambda i: (i + len(self.alphabet) - self.key) % len(self.alphabet)] *)
Definition dec (self : CaesarCipher) (i : Z) : outcome Z :=
  py_mod (i + Z.of_nat (length (alphabet self)) - key self)
         (Z.of_nat (length (alphabet self))).

(** [CaesarCipher.encrypt(plaintext)]; the characters are joined with the
    empty string. *)
Definition encrypt (self : CaesarCipher) (plaintext : list ascii)
    : outcome (list ascii) :=
  olist_comp (fun m => (do i <- of_result (index (alphabet self) m);
                        do j <- enc self i;
                        of_result (getitem_Z (alphabet self) j))%outcome)
             plaintext.

(** [CaesarCipher.decrypt(ciphertext)] *)
Definition decrypt (self : CaesarCipher) (ciphertext : list ascii)
    : outcome (list ascii) :=
  olist_comp (fun m => (do i <- of_result (index (alphabet self) m);
                        do j <- dec self i;
                        of_result (getitem_Z (alphabet self) j))%outcome)
             ciphertext.

(** The [while y < x] loop of [int_sqrt].  [fuel] bounds the number of
    passes; [None] means the bound was reached before the loop ended. *)
Fixpoint int_sqrt_loop (fuel : nat) (n x y : Z) : option (outcome Z) :=
  if y <? x then
    match fuel with
    | O => None
    | S fuel' =>
        let x := y in
        match py_floordiv n x with
        | Return q => int_sqrt_loop fuel' n x ((x + q) / 2)
        | Throw e => Some (Throw e)
        end
    end
  else Some (Return x).

(** [int_sqrt(n)] *)
Definition int_sqrt (fuel : nat) (n : Z) : option (outcome Z) :=
  let x := n in
  let y := (n + 1) / 2 in
  int_sqrt_loop fuel n x y.

(** [factorize(n, phi)] *)
Definition factorize (fuel : nat) (n phi : Z) : option (outcome (Z * Z)) :=
  let p := n + 1 - phi in
  let q := n in
  let a := p / 2 in
  match int_sqrt fuel ((p / 2) ^ 2 - q) with
  | Some (Return b) => Some (Return (a + b, a - b))
  | Some (Throw e) => Some (Throw e)
  | None => None
  end.

(** Auxiliary: the byte-wise exclusive or of two byte strings. *)
Definition xor_byte (x y : byte) : byte :=
  byte_of_Z (Z.lxor (Z_of_byte x) (Z_of_byte y)).

Definition in_byte_range (xy : Z * Z) (comb : Z -> Z -> Z) : Prop :=
  0 <= comb (fst xy) (snd xy) < 256.

(** Auxiliary: the number of bits set among the 8 low-order bits. *)
Definition bits8 (v : Z) : Z :=
  fold_right (fun i acc => Z.b2z (Z.testbit v (Z.of_nat i)) + acc) 0 (seq 0 8).

(** Auxiliary: what [hamming] counts for one pair of bytes. *)
Definition ones_xor (xy : Z * Z) : Z :=
  str_count "1"%char (bin (Z.lxor (fst xy) (snd xy))).

(** Auxiliary: the character the cipher with key [k] writes for [c]. *)
Definition shift_char (A : list ascii) (k : Z) (c : ascii) : ascii :=
  match index A c with
  | Ok i => nth (Z.to_nat ((i + k) mod Z.of_nat (length A))) A c
  | Raise _ => c
  end.

(** Auxiliary: every character of [s] occurs in the alphabet [A]. *)
Definition over (A s : list ascii) : Prop := Forall (fun c => In c A) s.

(** [bs.hex()]: two lowercase hexadecimal digits for every byte. *)
Definition hex_of_bytes (bs : list byte) : list ascii :=
  concat (map (fun b => hex_fixed 2 (Z_of_byte b)) bs).

(** The bit length [finalize_pad_message] encodes fits [struct.pack('>Q')]. *)
Definition fits_Q (total : Z) : Prop := 0 <= total * 8 < 2 ^ 64.

(* ================================================================== *)
(** * Properties *)

(** ** Words and bytes *)

Lemma land_mask32 (a : Z) : Z.land a 0xffffffff = a mod 2 ^ 32.
Proof. change 0xffffffff with (Z.ones 32). apply Z.land_ones. lia. Qed.

Lemma mod32_word (a : Z) : word32 (a mod 2 ^ 32).
Proof. unfold word32. apply Z.mod_pos_bound. lia. Qed.

Lemma leftrot_rotl32 (w n : Z) : leftrot w n = rotl32 w n.
Proof. unfold leftrot, rotl32. apply land_mask32. Qed.

Lemma rotl32_word (w n : Z) : word32 (rotl32 w n).
Proof. apply mod32_word. Qed.

Lemma add32_word (a b : Z) : word32 (add32 a b).
Proof. apply mod32_word. Qed.

Lemma word32_testbit_high (b : Z) (k : Z) :
  word32 b -> 32 <= k -> Z.testbit b k = false.
Proof.
  intros Hb Hk. rewrite <- (Z.mod_small b (2 ^ 32)) by exact Hb.
  apply Z.mod_pow2_bits_high. lia.
Qed.

Lemma lxor_mask_not32 (b : Z) : word32 b -> Z.lxor b 0xffffffff = not32 b.
Proof.
  intros Hb. unfold not32. change 0xffffffff with (Z.ones 32).
  apply Z.bits_inj'. intros k Hk.
  rewrite Z.lxor_spec.
  destruct (Z_lt_dec k 32) as [Hlt | Hge].
  - rewrite Z.ones_spec_low, Z.mod_pow2_bits_low, Z.lnot_spec by lia.
    now rewrite xorb_true_r.
  - rewrite Z.ones_spec_high, Z.mod_pow2_bits_high by lia.
    rewrite xorb_false_r. apply word32_testbit_high; [exact Hb | lia].
Qed.

Lemma Z_of_byte_range (b : byte) : 0 <= Z_of_byte b < 256.
Proof.
  unfold Z_of_byte. pose proof (Byte.to_N_bounded b). lia.
Qed.

Lemma byte_of_Z_of_byte (b : byte) : byte_of_Z (Z_of_byte b) = b.
Proof.
  unfold byte_of_Z. rewrite Z.mod_small by apply Z_of_byte_range.
  unfold Z_of_byte. rewrite N2Z.id, Byte.of_to_N. reflexivity.
Qed.

Lemma Z_of_byte_of_Z (z : Z) : Z_of_byte (byte_of_Z z) = z mod 256.
Proof.
  unfold byte_of_Z, Z_of_byte.
  assert (Hr : 0 <= z mod 256 < 256) by (apply Z.mod_pos_bound; lia).
  destruct (Byte.of_N (Z.to_N (z mod 256))) as [b |] eqn:E.
  - apply Byte.to_of_N in E. rewrite E. lia.
  - apply Byte.of_N_None_iff in E. lia.
Qed.

(** ** Loops *)

Lemma rbind_Ok {A B} (a : A) (k : A -> result B) : rbind (Ok a) k = k a.
Proof. reflexivity. Qed.

Lemma rbind_ok {A B} (r : result A) (k : A -> result B) (b : B) :
  rbind r k = Ok b -> exists a, r = Ok a /\ k a = Ok b.
Proof. destruct r as [a | e]; simpl; [eauto | discriminate]. Qed.

(** Invariant rule for [for i in range(lo, lo + n)]: the loop ends normally
    in a state that satisfies the invariant at [lo + n]. *)
Lemma for_in_range_inv {S : Type} (P : nat -> S -> Prop)
    (body : nat -> S -> result S) (n lo : nat) (s : S) :
  P lo s ->
  (forall i t, (lo <= i < lo + n)%nat -> P i t ->
     exists t', body i t = Ok t' /\ P (Datatypes.S i) t') ->
  exists s', for_in (seq lo n) body s = Ok s' /\ P (lo + n)%nat s'.
Proof.
  revert lo s. induction n as [| n IH]; intros lo s H0 Hstep; simpl.
  - exists s. rewrite Nat.add_0_r. auto.
  - destruct (Hstep lo s) as (t' & Hb & Ht'); [lia | exact H0 |].
    rewrite Hb. simpl.
    destruct (IH (Datatypes.S lo) t') as (s' & Hs' & HP); [exact Ht' | |].
    + intros i t Hi. apply Hstep. lia.
    + exists s'. split; [exact Hs' |].
      replace (lo + Datatypes.S n)%nat with (Datatypes.S lo + n)%nat by lia.
      exact HP.
Qed.

Lemma getitem_nth (x : list Z) (i : nat) :
  (i < length x)%nat -> getitem x i = Ok (nth i x 0).
Proof.
  intros Hi. unfold getitem.
  destruct (x !! i) as [v |] eqn:E.
  - f_equal. symmetry. apply nth_lookup_Some with (d := 0) in E. exact E.
  - apply lookup_ge_None in E. lia.
Qed.

Lemma setitem_ok (x : list Z) (i : nat) (v : Z) :
  (i < length x)%nat -> setitem x i v = Ok (<[i := v]> x).
Proof.
  intros Hi. unfold setitem.
  destruct (Nat.ltb_spec i (length x)); [reflexivity | lia].
Qed.

Lemma nth_insert_eq (x : list Z) (i : nat) (v : Z) :
  (i < length x)%nat -> nth i (<[i := v]> x) 0 = v.
Proof.
  intros Hi. apply nth_lookup_Some with (d := 0).
  now apply list_lookup_insert_eq.
Qed.

Lemma nth_insert_ne (x : list Z) (i j : nat) (v : Z) :
  i <> j -> nth j (<[i := v]> x) 0 = nth j x 0.
Proof.
  intros Hij. rewrite !nth_lookup.
  now rewrite list_lookup_insert_ne.
Qed.

(** ** The message schedule *)

Lemma slice4 {A} (d : A) (l : list A) (lo : nat) :
  (lo + 4 <= length l)%nat ->
  slice lo (lo + 4) l =
  [nth lo l d; nth (lo + 1) l d; nth (lo + 2) l d; nth (lo + 3) l d].
Proof.
  unfold slice. revert l. induction lo as [| lo IH]; intros l Hl.
  - destruct l as [| a [| b [| c [| e l]]]]; simpl in Hl; try lia.
    reflexivity.
  - destruct l as [| a l]; simpl in Hl; [lia |].
    simpl. apply IH. lia.
Qed.

Lemma be_int4 (a b c d : byte) :
  be_int [a; b; c; d] =
  Z_of_byte a * 2 ^ 24 + Z_of_byte b * 2 ^ 16 + Z_of_byte c * 2 ^ 8 + Z_of_byte d.
Proof. unfold be_int. simpl. lia. Qed.

Lemma load_word_ok (chunk : list byte) (i : nat) (x : list Z) :
  length chunk = 64%nat -> (i < 16)%nat -> length x = 80%nat ->
  load_word chunk i x = Ok (<[i := block_word chunk i]> x).
Proof.
  intros Hc Hi Hx. unfold load_word.
  rewrite (slice4 x00) by lia.
  unfold unpack_I. simpl length. simpl Nat.eqb. cbv iota. simpl rbind.
  rewrite be_int4, setitem_ok by lia.
  reflexivity.
Qed.

Lemma expand_word_ok (i : nat) (x : list Z) :
  (16 <= i < 80)%nat -> length x = 80%nat ->
  expand_word i x =
  Ok (<[i := rotl32 (Z.lxor (Z.lxor (Z.lxor (nth (i - 3) x 0) (nth (i - 8) x 0))
                                    (nth (i - 14) x 0)) (nth (i - 16) x 0)) 1]> x).
Proof.
  intros Hi Hx. unfold expand_word.
  rewrite !getitem_nth by lia. simpl rbind.
  rewrite setitem_ok by lia. now rewrite leftrot_rotl32.
Qed.

Lemma load_word_step (chunk : list byte) (i : nat) (x : list Z) :
  length chunk = 64%nat -> (i < 16)%nat -> loaded chunk i x ->
  exists x', load_word chunk i x = Ok x' /\ loaded chunk (S i) x'.
Proof.
  intros Hc Hi [Hx Hw]. eexists. split; [apply load_word_ok; assumption |].
  split; [now rewrite length_insert |].
  intros j Hj. destruct (Nat.eq_dec i j) as [-> | Hne].
  - apply nth_insert_eq. lia.
  - rewrite nth_insert_ne by exact Hne. apply Hw. lia.
Qed.

Lemma expand_word_step (chunk : list byte) (i : nat) (x : list Z) :
  (16 <= i < 80)%nat -> loaded chunk 16 x /\ expanded i x ->
  exists x', expand_word i x = Ok x' /\ loaded chunk 16 x' /\ expanded (S i) x'.
Proof.
  intros Hi [[Hx Hw] He]. eexists. split; [apply expand_word_ok; assumption |].
  split; [split |].
  - now rewrite length_insert.
  - intros j Hj. rewrite nth_insert_ne by lia. now apply Hw.
  - intros j Hj. destruct (Nat.eq_dec i j) as [-> | Hne].
    + rewrite nth_insert_eq by lia.
      rewrite !nth_insert_ne by lia. reflexivity.
    + rewrite !nth_insert_ne by lia. apply He. lia.
Qed.

Lemma schedule_is_schedule (chunk : list byte) :
  length chunk = 64%nat ->
  exists x, schedule chunk = Ok x /\ is_schedule chunk x.
Proof.
  intros Hc.
  destruct (for_in_range_inv (loaded chunk) (load_word chunk) 16 0
              (replicate 80 0)) as (x1 & Hx1 & H1).
  { split; [apply length_replicate | intros j Hj; lia]. }
  { intros i t Hi. apply load_word_step; [exact Hc | lia]. }
  destruct (for_in_range_inv (fun k x => loaded chunk 16 x /\ expanded k x)
              expand_word 64 16 x1) as (x2 & Hx2 & H2 & He2).
  { split; [exact H1 | intros j Hj; lia]. }
  { intros i t Hi. apply expand_word_step. lia. }
  exists x2. split.
  - unfold schedule. rewrite Hx1. exact Hx2.
  - destruct H2 as [Hlen Hw]. split; [exact Hlen |]. split; [exact Hw |].
    exact He2.
Qed.

(** The schedule of a block is unique: [is_schedule] determines every one
    of the 80 words. *)
Lemma is_schedule_unique (block : list byte) (x x' : list Z) :
  is_schedule block x -> is_schedule block x' -> x = x'.
Proof.
  intros (Hl & Hw & He) (Hl' & Hw' & He').
  assert (Hnth : forall n i, (i < n)%nat -> (i < 80)%nat -> nth i x 0 = nth i x' 0).
  { induction n as [| n IH]; intros i Hi Hi80; [lia |].
    destruct (Nat.lt_ge_cases i 16) as [Hlt | Hge].
    - now rewrite Hw, Hw'.
    - rewrite He, He' by lia.
      rewrite !(IH (i - 3)%nat), !(IH (i - 8)%nat), !(IH (i - 14)%nat),
        !(IH (i - 16)%nat) by lia.
      reflexivity. }
  apply nth_ext with (d := 0) (d' := 0); [congruence |].
  intros n Hn. apply (Hnth (Datatypes.S n)); lia.
Qed.

(** ** The rounds *)

Lemma add32_chain (r f e x k : Z) :
  (r + f + e + x + k) mod 2 ^ 32 =
  add32 (add32 (add32 r f) e) (add32 x k).
Proof.
  unfold add32.
  rewrite Zplus_mod_idemp_r, Zplus_mod_idemp_l.
  rewrite <- (Z.add_assoc ((r + f) mod 2 ^ 32)), Zplus_mod_idemp_l.
  f_equal. lia.
Qed.

Lemma round_spec_word32 (x : list Z) (w : work) (i : nat) :
  work32 w -> work32 (round_spec x w i).
Proof.
  destruct w as [[[[a b] c] d] e]. simpl.
  intros (Ha & Hb & Hc & Hd & He).
  repeat split; try apply add32_word; try apply rotl32_word;
    first [apply Ha | apply Hc | apply Hd].
Qed.

(** One pass of the round loop agrees with the round of the table, which
    also shows that the [if]/[elif] chain always binds [y] and [z]. *)
Lemma round_ok (x : list Z) (i : nat) (v : vars) :
  length x = 80%nat -> (i < 80)%nat -> work32 (work_of v) ->
  exists v', round x i v = Ok v' /\ work_of v' = round_spec x (work_of v) i.
Proof.
  intros Hx Hi Hv. destruct v as [a b c d e y z]. unfold work_of in *.
  simpl in Hv. destruct Hv as (Ha & Hb & Hc & Hd & He).
  unfold round, round_spec, f_spec, K_spec, between.
  rewrite getitem_nth by lia.
  destruct (Nat.lt_ge_cases i 20) as [H20 | H20];
    [| destruct (Nat.lt_ge_cases i 40) as [H40 | H40];
       [| destruct (Nat.lt_ge_cases i 60) as [H60 | H60]]].
  - replace (0 <=? i)%nat with true by (symmetry; apply Nat.leb_le; lia).
    replace (i <=? 19)%nat with true by (symmetry; apply Nat.leb_le; lia).
    replace (i <? 20)%nat with true by (symmetry; apply Nat.ltb_lt; lia).
    simpl. eexists. split; [reflexivity |]. simpl.
    rewrite land_mask32, !leftrot_rotl32, lxor_mask_not32 by exact Hb.
    now rewrite add32_chain.
  - replace (i <=? 19)%nat with false by (symmetry; apply Nat.leb_gt; lia).
    replace (20 <=? i)%nat with true by (symmetry; apply Nat.leb_le; lia).
    replace (i <=? 39)%nat with true by (symmetry; apply Nat.leb_le; lia).
    replace (i <? 20)%nat with false by (symmetry; apply Nat.ltb_ge; lia).
    replace (i <? 40)%nat with true by (symmetry; apply Nat.ltb_lt; lia).
    rewrite andb_false_r. simpl. eexists. split; [reflexivity |]. simpl.
    rewrite land_mask32, !leftrot_rotl32.
    now rewrite add32_chain.
  - replace (i <=? 19)%nat with false by (symmetry; apply Nat.leb_gt; lia).
    replace (i <=? 39)%nat with false by (symmetry; apply Nat.leb_gt; lia).
    replace (40 <=? i)%nat with true by (symmetry; apply Nat.leb_le; lia).
    replace (i <=? 59)%nat with true by (symmetry; apply Nat.leb_le; lia).
    replace (i <? 20)%nat with false by (symmetry; apply Nat.ltb_ge; lia).
    replace (i <? 40)%nat with false by (symmetry; apply Nat.ltb_ge; lia).
    replace (i <? 60)%nat with true by (symmetry; apply Nat.ltb_lt; lia).
    rewrite !andb_false_r. simpl. eexists. split; [reflexivity |]. simpl.
    rewrite land_mask32, !leftrot_rotl32.
    now rewrite add32_chain.
  - replace (i <=? 19)%nat with false by (symmetry; apply Nat.leb_gt; lia).
    replace (i <=? 39)%nat with false by (symmetry; apply Nat.leb_gt; lia).
    replace (i <=? 59)%nat with false by (symmetry; apply Nat.leb_gt; lia).
    replace (60 <=? i)%nat with true by (symmetry; apply Nat.leb_le; lia).
    replace (i <=? 79)%nat with true by (symmetry; apply Nat.leb_le; lia).
    replace (i <? 20)%nat with false by (symmetry; apply Nat.ltb_ge; lia).
    replace (i <? 40)%nat with false by (symmetry; apply Nat.ltb_ge; lia).
    replace (i <? 60)%nat with false by (symmetry; apply Nat.ltb_ge; lia).
    rewrite !andb_false_r. simpl. eexists. split; [reflexivity |]. simpl.
    rewrite land_mask32, !leftrot_rotl32.
    now rewrite add32_chain.
Qed.

Lemma fold_left_seq_S {A} (f : A -> nat -> A) (n : nat) (a : A) :
  fold_left f (seq 0 (S n)) a = f (fold_left f (seq 0 n) a) n.
Proof. rewrite seq_S, fold_left_app. reflexivity. Qed.

Lemma rounds_ok (x : list Z) (h0 h1 h2 h3 h4 : Z) :
  length x = 80%nat -> work32 (h0, h1, h2, h3, h4) ->
  exists v, for_in (seq 0 80) (round x) (mkvars h0 h1 h2 h3 h4 None None) = Ok v /\
            work_of v = rounds_spec x (h0, h1, h2, h3, h4).
Proof.
  intros Hx Hh.
  destruct (for_in_range_inv
              (fun k v => work_of v = fold_left (round_spec x) (seq 0 k) (h0, h1, h2, h3, h4)
                          /\ work32 (work_of v))
              (round x) 80 0 (mkvars h0 h1 h2 h3 h4 None None))
    as (v & Hv & Hw & _).
  { split; [reflexivity | exact Hh]. }
  { intros i t Hi [Ht H32].
    destruct (round_ok x i t) as (t' & Hr & Ht'); [exact Hx | lia | exact H32 |].
    exists t'. split; [exact Hr |].
    rewrite fold_left_seq_S, <- Ht, Ht'.
    split; [reflexivity | now apply round_spec_word32]. }
  exists v. split; [exact Hv | exact Hw].
Qed.

(** ** [compress] on a full block *)

Lemma compress_eq_spec (chunk : list byte) (h0 h1 h2 h3 h4 : Z) :
  length chunk = 64%nat -> work32 (h0, h1, h2, h3, h4) ->
  exists x, schedule chunk = Ok x /\ is_schedule chunk x /\
            compress chunk h0 h1 h2 h3 h4 = Ok (compress_spec x h0 h1 h2 h3 h4).
Proof.
  intros Hc Hh.
  destruct (schedule_is_schedule chunk Hc) as (x & Hx & Hs).
  destruct (rounds_ok x h0 h1 h2 h3 h4) as (v & Hv & Hw);
    [apply Hs | exact Hh |].
  exists x. split; [exact Hx |]. split; [exact Hs |].
  unfold compress, compress_spec. rewrite Hc, Hx.
  change (assert (64 =? 64)%nat) with (Ok tt).
  rewrite !rbind_Ok, Hv, rbind_Ok, <- Hw. unfold work_of.
  now rewrite !land_mask32.
Qed.

Lemma round_total (x : list Z) (i : nat) (v : vars) :
  length x = 80%nat -> (i < 80)%nat -> exists v', round x i v = Ok v'.
Proof.
  intros Hx Hi. destruct v as [a b c d e y z]. unfold round.
  rewrite getitem_nth by lia.
  destruct (between 0 i 19) eqn:E1; [simpl; eauto |].
  destruct (between 20 i 39) eqn:E2; [simpl; eauto |].
  destruct (between 40 i 59) eqn:E3; [simpl; eauto |].
  destruct (between 60 i 79) eqn:E4; [simpl; eauto |].
  exfalso. unfold between in *.
  destruct (Nat.leb_spec 0 i), (Nat.leb_spec i 19), (Nat.leb_spec 20 i),
    (Nat.leb_spec i 39), (Nat.leb_spec 40 i), (Nat.leb_spec i 59),
    (Nat.leb_spec 60 i), (Nat.leb_spec i 79); simpl in *;
    try discriminate; lia.
Qed.

(** On a 64-byte block [compress] returns five masked words, whatever
    integers the state holds. *)
Lemma compress_total (chunk : list byte) (h0 h1 h2 h3 h4 : Z) :
  length chunk = 64%nat ->
  exists st, compress chunk h0 h1 h2 h3 h4 = Ok st /\
             length st = 5%nat /\ Forall word32 st.
Proof.
  intros Hc.
  destruct (schedule_is_schedule chunk Hc) as (x & Hx & Hs).
  destruct (for_in_range_inv (fun _ _ => True) (round x) 80 0
              (mkvars h0 h1 h2 h3 h4 None None)) as (v & Hv & _).
  { exact I. }
  { intros i t Hi _. destruct (round_total x i t) as [t' Ht'];
      [apply Hs | lia |]. eauto. }
  unfold compress. rewrite Hc, Hx.
  change (assert (64 =? 64)%nat) with (Ok tt).
  rewrite !rbind_Ok, Hv, rbind_Ok.
  eexists. split; [reflexivity |]. split; [reflexivity |].
  repeat constructor; rewrite land_mask32; apply mod32_word.
Qed.

Lemma compress_bad_length (chunk : list byte) (h0 h1 h2 h3 h4 : Z) :
  length chunk <> 64%nat ->
  compress chunk h0 h1 h2 h3 h4 = Raise AssertionError.
Proof.
  intros Hc. unfold compress.
  destruct (Nat.eqb_spec (length chunk) 64) as [E | _]; [contradiction |].
  reflexivity.
Qed.

Lemma compress_star_ok (chunk : list byte) (hs : list Z) :
  length chunk = 64%nat -> length hs = 5%nat ->
  exists hs', compress_star chunk hs = Ok hs' /\
              length hs' = 5%nat /\ Forall word32 hs'.
Proof.
  intros Hc Hh.
  destruct hs as [| h0 [| h1 [| h2 [| h3 [| h4 [| ? ?]]]]]]; try discriminate.
  now apply compress_total.
Qed.

(** Whenever [compress(chunk, *h)] returns, the result is five masked words. *)
Lemma compress_star_inv (chunk : list byte) (hs hs' : list Z) :
  compress_star chunk hs = Ok hs' ->
  length chunk = 64%nat /\ length hs = 5%nat /\
  length hs' = 5%nat /\ Forall word32 hs'.
Proof.
  intros H.
  destruct hs as [| h0 [| h1 [| h2 [| h3 [| h4 [| ? ?]]]]]]; try discriminate.
  simpl in H.
  destruct (Nat.eq_dec (length chunk) 64%nat) as [Hc | Hc].
  - destruct (compress_total chunk h0 h1 h2 h3 h4 Hc) as (st & Hst & Hl & Hw).
    rewrite Hst in H. injection H as <-. auto.
  - rewrite compress_bad_length in H by exact Hc. discriminate.
Qed.

(** ** The loops of [update] and [finalize] *)

Lemma update_loop_eq (s : SHA1) :
  update_loop s =
  if le_dec 64 (length (buffer s)) then
    do hs' <- compress_star (take 64 (buffer s)) (h s);
    update_loop {| h := hs'; hashed_bytes := hashed_bytes s + 64;
                   buffer := drop 64 (buffer s) |}
  else Ok (tt, s).
Proof.
  funelim (update_loop s);
    match goal with H : le_dec _ _ = _ |- _ => rewrite H end;
    try match goal with H : compress_star _ _ = _ |- _ => rewrite H end;
    reflexivity.
Qed.

Lemma finalize_loop_nil (hs : list Z) : finalize_loop [] hs = Ok hs.
Proof. now simp finalize_loop. Qed.

Lemma finalize_loop_eq (m : list byte) (hs : list Z) :
  m <> [] ->
  finalize_loop m hs =
  do hs' <- compress_star (take 64 m) hs; finalize_loop (drop 64 m) hs'.
Proof.
  intros Hm. funelim (finalize_loop m hs); try contradiction;
    match goal with H : compress_star _ _ = _ |- _ => rewrite H end;
    reflexivity.
Qed.

Lemma update_eq (data : list byte) (s : SHA1) :
  update data s = update_loop (with_buffer s (buffer s ++ data)).
Proof. reflexivity. Qed.

Lemma div64_step (n : nat) :
  (64 <= n)%nat -> (n / 64 = S ((n - 64) / 64))%nat.
Proof.
  intros Hn. replace n with ((n - 64) + 1 * 64)%nat at 1 by lia.
  rewrite Nat.div_add by lia. lia.
Qed.

(** Induction on the length of the buffer, the measure of the loop. *)
Lemma buffer_length_ind (P : SHA1 -> Prop) :
  (forall s, (forall t, (length (buffer t) < length (buffer s))%nat -> P t) -> P s) ->
  forall s, P s.
Proof.
  intros IH s.
  induction s as [s IHs] using (induction_ltof1 _ (fun t => length (buffer t))).
  apply IH. exact IHs.
Qed.

(** What a returning [while] loop has done: it consumed the
    [length buffer / 64] leading blocks and counted 64 bytes for each. *)
Lemma update_loop_inv (s s' : SHA1) :
  update_loop s = Ok (tt, s') ->
  buffer s' = drop (64 * (length (buffer s) / 64)) (buffer s) /\
  hashed_bytes s' = hashed_bytes s + 64 * Z.of_nat (length (buffer s) / 64) /\
  (length (buffer s') < 64)%nat.
Proof.
  revert s'. induction s as [s IH] using buffer_length_ind. intros s' H.
  rewrite update_loop_eq in H.
  destruct (le_dec 64 (length (buffer s))) as [Hge | Hlt].
  - apply rbind_ok in H as (hs' & _ & H).
    apply IH in H; [| simpl; rewrite length_drop; lia].
    cbn [buffer hashed_bytes h] in H. destruct H as (Hb & Hn & Hl).
    rewrite length_drop in Hb, Hn.
    rewrite (div64_step (length (buffer s))) by exact Hge.
    rewrite drop_drop in Hb.
    replace (64 * S ((length (buffer s) - 64) / 64))%nat
      with (64 + 64 * ((length (buffer s) - 64) / 64))%nat by lia.
    repeat split; [exact Hb | lia | exact Hl].
  - injection H as <-.
    rewrite Nat.div_small by lia. simpl. repeat split; lia.
Qed.

(** The loop returns on every hasher whose state has five words. *)
Lemma update_loop_total (s : SHA1) :
  length (h s) = 5%nat ->
  exists s', update_loop s = Ok (tt, s') /\ length (h s') = 5%nat.
Proof.
  induction s as [s IH] using buffer_length_ind. intros Hh.
  rewrite update_loop_eq.
  destruct (le_dec 64 (length (buffer s))) as [Hge | Hlt].
  - destruct (compress_star_ok (take 64 (buffer s)) (h s)) as (hs' & Hc & Hl & _);
      [rewrite length_take; lia | exact Hh |].
    rewrite Hc, rbind_Ok. apply IH; [simpl; rewrite length_drop; lia | exact Hl].
  - eauto.
Qed.

(** Feeding more bytes to the loop: running it on [buffer ++ d] is running
    it on [buffer] first and on the rest followed by [d] afterwards.  This
    holds for every outcome, exceptions included. *)
Lemma update_loop_app (s : SHA1) (d : list byte) :
  update_loop (with_buffer s (buffer s ++ d)) =
  do r <- update_loop s;
  update_loop (with_buffer (snd r) (buffer (snd r) ++ d)).
Proof.
  induction s as [s IH] using buffer_length_ind.
  rewrite (update_loop_eq s).
  destruct (le_dec 64 (length (buffer s))) as [Hge | Hlt].
  - rewrite update_loop_eq. simpl.
    destruct (le_dec 64 (length (buffer s ++ d))) as [_ | Hn];
      [| rewrite length_app in Hn; lia].
    rewrite take_app_le, drop_app_le by lia.
    destruct (compress_star (take 64 (buffer s)) (h s)) as [hs' | e];
      [| reflexivity].
    rewrite !rbind_Ok.
    apply (IH {| h := hs'; hashed_bytes := hashed_bytes s + 64;
                 buffer := drop 64 (buffer s) |}).
    simpl. rewrite length_drop. lia.
  - reflexivity.
Qed.

Lemma update_update (c1 c2 : list byte) (s : SHA1) :
  bind (update c1) (fun _ => update c2) s = update (c1 ++ c2) s.
Proof.
  unfold bind. rewrite (update_eq (c1 ++ c2)), app_assoc.
  change (with_buffer s ((buffer s ++ c1) ++ c2))
    with (with_buffer (with_buffer s (buffer s ++ c1))
            (buffer (with_buffer s (buffer s ++ c1)) ++ c2)).
  rewrite update_loop_app, (update_eq c1).
  destruct (update_loop (with_buffer s (buffer s ++ c1))) as [[[] s1] | e];
    reflexivity.
Qed.

(** ** Padding *)

Lemma length_be_bytes (n : nat) (v : Z) : length (be_bytes n v) = n.
Proof.
  revert v. induction n as [| n IH]; intros v; simpl; [reflexivity |].
  rewrite length_app, IH. simpl. lia.
Qed.

Lemma be_int_snoc (l : list byte) (b : byte) :
  be_int (l ++ [b]) = be_int l * 256 + Z_of_byte b.
Proof. unfold be_int. now rewrite fold_left_app. Qed.

Lemma be_int_be_bytes (n : nat) (v : Z) :
  be_int (be_bytes n v) = v mod 256 ^ Z.of_nat n.
Proof.
  revert v. induction n as [| n IH]; intros v.
  - simpl. now rewrite Z.mod_1_r.
  - cbn [be_bytes]. rewrite be_int_snoc, IH, Z_of_byte_of_Z.
    rewrite Nat2Z.inj_succ, Z.pow_succ_r by lia.
    rewrite (Z.rem_mul_r v 256 (256 ^ Z.of_nat n)) by lia.
    lia.
Qed.

Lemma length_pad_tail (total : Z) :
  length (pad_tail total) = (pad_zeros total + 9)%nat.
Proof.
  unfold pad_tail. cbn [length].
  rewrite length_app, length_replicate, length_be_bytes. lia.
Qed.

Lemma pad_zeros_range (total : Z) : (pad_zeros total < 64)%nat.
Proof.
  unfold pad_zeros.
  pose proof (Z.mod_pos_bound (56 - (total + 1) mod 64) 64). lia.
Qed.

(** The padding completes the last block. *)
Lemma pad_tail_aligned (total : Z) :
  (total + Z.of_nat (length (pad_tail total))) mod 64 = 0.
Proof.
  rewrite length_pad_tail. unfold pad_zeros.
  pose proof (Z.mod_pos_bound (56 - (total + 1) mod 64) 64).
  rewrite Nat2Z.inj_add, Z2Nat.id by lia.
  Z.to_euclidean_division_equations. lia.
Qed.

Lemma pack_Q_ok (v : Z) : 0 <= v < 2 ^ 64 -> pack_Q v = Ok (be_bytes 8 v).
Proof.
  intros Hv. unfold pack_Q.
  destruct (Z.leb_spec 0 v), (Z.ltb_spec v (2 ^ 64)); simpl; trivial; lia.
Qed.

Lemma pack_Q_inv (v : Z) (l : list byte) :
  pack_Q v = Ok l -> 0 <= v < 2 ^ 64 /\ l = be_bytes 8 v.
Proof.
  unfold pack_Q.
  destruct (Z.leb_spec 0 v), (Z.ltb_spec v (2 ^ 64)); simpl;
    intros Hq; try discriminate.
  injection Hq as <-. split; [lia | reflexivity].
Qed.

Lemma finalize_pad_message_ok (n : Z) (data : list byte) :
  0 <= (n + Z.of_nat (length data)) * 8 < 2 ^ 64 ->
  finalize_pad_message n data = Ok (data ++ pad_tail (n + Z.of_nat (length data))).
Proof.
  intros Hr. unfold finalize_pad_message.
  rewrite pack_Q_ok by exact Hr. rewrite rbind_Ok.
  now rewrite <- app_assoc.
Qed.

Lemma finalize_pad_message_inv (n : Z) (data m : list byte) :
  finalize_pad_message n data = Ok m ->
  0 <= (n + Z.of_nat (length data)) * 8 < 2 ^ 64 /\
  m = data ++ pad_tail (n + Z.of_nat (length data)).
Proof.
  unfold finalize_pad_message. intros H.
  apply rbind_ok in H as (l & Hl & H). apply pack_Q_inv in Hl as [Hr ->].
  injection H as <-. split; [exact Hr |]. now rewrite <- app_assoc.
Qed.

(** ** [finalize] *)

Lemma list_length_ind {A} (P : list A -> Prop) :
  (forall l, (forall l', (length l' < length l)%nat -> P l') -> P l) ->
  forall l, P l.
Proof.
  intros IH l.
  induction l as [l IHl] using (induction_ltof1 _ (@length A)).
  apply IH. exact IHl.
Qed.

Lemma finalize_eq (remainder : list byte) (s : SHA1) :
  finalize remainder s =
  do m <- finalize_pad_message (hashed_bytes s) remainder;
  do v <- finalize_loop m (h s);
  Ok (v, s).
Proof.
  unfold finalize, bind, lift, get_hashed_bytes, get_h.
  destruct (finalize_pad_message (hashed_bytes s) remainder) as [m | e];
    [| reflexivity].
  simpl. destruct (finalize_loop m (h s)); reflexivity.
Qed.

Lemma hexdigest_eq (s : SHA1) :
  hexdigest s =
  do r <- finalize (buffer s) s;
  Ok (concat (map format_08x (fst r)), snd r).
Proof.
  unfold hexdigest, bind, get_buffer, ret.
  destruct (finalize (buffer s) s) as [[v s'] | e]; reflexivity.
Qed.

Lemma digest_eq (s : SHA1) :
  digest s =
  do r <- finalize (buffer s) s;
  do parts <- list_comp pack_I (fst r);
  Ok (concat parts, snd r).
Proof.
  unfold digest, bind, get_buffer, ret, lift.
  destruct (finalize (buffer s) s) as [[v s'] | e]; [| reflexivity].
  simpl. destruct (list_comp pack_I v); reflexivity.
Qed.

(** A returning [while m] loop over a non-empty message has compressed
    whole blocks only and ends on five masked words. *)
Lemma finalize_loop_inv (m : list byte) (hs fin : list Z) :
  finalize_loop m hs = Ok fin -> m <> [] ->
  length fin = 5%nat /\ Forall word32 fin /\ (length m mod 64 = 0)%nat.
Proof.
  revert hs. induction m as [m IH] using list_length_ind. intros hs H Hm.
  rewrite finalize_loop_eq in H by exact Hm.
  apply rbind_ok in H as (hs' & Hc & H).
  apply compress_star_inv in Hc as (Hlen & _ & Hl & Hw).
  rewrite length_take in Hlen.
  destruct (drop 64 m) as [| b m'] eqn:E.
  - rewrite finalize_loop_nil in H. injection H as <-.
    assert (length (drop 64 m) = 0%nat) by now rewrite E.
    rewrite length_drop in *.
    replace (length m) with 64%nat by lia. auto.
  - rewrite <- E in H. apply IH in H.
    + destruct H as (H1 & H2 & H3). rewrite length_drop in H3.
      repeat split; try assumption.
      replace (length m) with ((length m - 64) + 1 * 64)%nat by lia.
      rewrite Nat.Div0.mod_add. exact H3.
    + rewrite length_drop. lia.
    + now rewrite E.
Qed.

Lemma finalize_loop_total (k : nat) (m : list byte) (hs : list Z) :
  length m = (64 * k)%nat -> length hs = 5%nat ->
  exists fin, finalize_loop m hs = Ok fin /\ length fin = 5%nat.
Proof.
  revert m hs. induction k as [| k IH]; intros m hs Hm Hh.
  - destruct m; [| simpl in Hm; lia]. rewrite finalize_loop_nil. eauto.
  - rewrite finalize_loop_eq by (intros ->; simpl in Hm; lia).
    destruct (compress_star_ok (take 64 m) hs) as (hs' & Hc & Hl & _);
      [rewrite length_take; lia | exact Hh |].
    rewrite Hc, rbind_Ok. apply IH; [rewrite length_drop; lia | exact Hl].
Qed.

(** The two loops walk the same blocks: what [update] has already
    compressed, [finalize] does not see again. *)
Lemma finalize_loop_absorbed (s s' : SHA1) (rest : list byte) :
  update_loop s = Ok (tt, s') ->
  finalize_loop (buffer s ++ rest) (h s) =
  finalize_loop (buffer s' ++ rest) (h s').
Proof.
  revert s'. induction s as [s IH] using buffer_length_ind. intros s' H.
  rewrite update_loop_eq in H.
  destruct (le_dec 64 (length (buffer s))) as [Hge | Hlt].
  - apply rbind_ok in H as (hs' & Hc & H).
    rewrite finalize_loop_eq
      by (intros E; apply (f_equal length) in E; rewrite length_app in E;
          simpl in E; lia).
    rewrite take_app_le, drop_app_le by lia. rewrite Hc, rbind_Ok.
    apply IH in H; [exact H | simpl; rewrite length_drop; lia].
  - now injection H as <-.
Qed.

(** Conversely, the blocks [finalize] would compress from [hs] are the
    ones [update] compresses when they stand in front of the buffer. *)
Lemma update_loop_finalized (b : list byte) :
  forall (hs fin : list Z) (n : Z) (a : list byte),
  finalize_loop b hs = Ok fin ->
  update_loop {| h := hs; hashed_bytes := n; buffer := b ++ a |} =
  update_loop {| h := fin; hashed_bytes := n + Z.of_nat (length b);
                 buffer := a |}.
Proof.
  induction b as [b IH] using list_length_ind. intros hs fin n a H.
  destruct (list_eq_nil_dec b) as [-> | Hb].
  - rewrite finalize_loop_nil in H. injection H as <-.
    simpl. now rewrite Z.add_0_r.
  - rewrite finalize_loop_eq in H by exact Hb.
    apply rbind_ok in H as (hs' & Hc & H).
    pose proof (compress_star_inv _ _ _ Hc) as (Hlen & _).
    rewrite length_take in Hlen.
    rewrite update_loop_eq. cbn [buffer h hashed_bytes].
    destruct (le_dec 64 (length (b ++ a))) as [_ | Hn];
      [| rewrite length_app in Hn; lia].
    rewrite take_app_le, drop_app_le by lia. rewrite Hc, rbind_Ok.
    rewrite (IH (drop 64 b)) with (fin := fin);
      [| rewrite length_drop; lia | exact H].
    rewrite length_drop. do 2 f_equal. lia.
Qed.

(** ** Hexadecimal rendering and parsing *)

Lemma to_hex_eq (v : Z) (acc : list ascii) :
  to_hex v acc =
  if Z_lt_dec v 16 then hex_digit v :: acc
  else to_hex (v / 16) (hex_digit (v mod 16) :: acc).
Proof.
  funelim (to_hex v acc);
    match goal with H : Z_lt_dec _ _ = _ |- _ => rewrite H end; reflexivity.
Qed.

Lemma length_hex_fixed (n : nat) (v : Z) : length (hex_fixed n v) = n.
Proof.
  revert v. induction n as [| n IH]; intros v; simpl; [reflexivity |].
  rewrite length_app, IH. simpl. lia.
Qed.

Lemma hex_fixed_0 (n : nat) : hex_fixed n 0 = replicate n "0"%char.
Proof.
  induction n as [| n IH]; [reflexivity |].
  cbn [hex_fixed]. change (0 / 16) with 0. rewrite IH.
  change (hex_digit (0 mod 16)) with "0"%char.
  now rewrite <- replicate_cons_app.
Qed.

(** [to_hex] produces the fixed-width digits without their leading zeros. *)
Lemma to_hex_hex_fixed (n : nat) :
  forall (v : Z) (acc : list ascii),
  0 <= v < 16 ^ Z.of_nat (S n) ->
  exists j, (j <= n)%nat /\
    to_hex v acc = drop j (hex_fixed (S n) v) ++ acc /\
    take j (hex_fixed (S n) v) = replicate j "0"%char.
Proof.
  induction n as [| n IH]; intros v acc Hv; rewrite to_hex_eq;
    destruct (Z_lt_dec v 16) as [Hlt | Hge].
  - exists 0%nat. cbn [hex_fixed]. rewrite Z.mod_small by lia.
    repeat split; reflexivity || lia.
  - change (16 ^ Z.of_nat 1) with 16 in Hv. lia.
  - exists (S n). cbn [hex_fixed].
    rewrite (Z.div_small v 16), (Z.mod_small v 16) by lia.
    change (0 / 16) with 0.
    rewrite hex_fixed_0. change (hex_digit (0 mod 16)) with "0"%char.
    rewrite <- replicate_cons_app.
    change ("0"%char :: replicate n "0"%char) with (replicate (S n) "0"%char).
    split; [lia |]. split.
    + rewrite drop_app_length'; [reflexivity | now rewrite length_replicate].
    + rewrite take_app_length'; [reflexivity | now rewrite length_replicate].
  - destruct (IH (v / 16) (hex_digit (v mod 16) :: acc)) as (j & Hj & Ht & Hz).
    { split; [apply Z.div_pos; lia |].
      apply Z.div_lt_upper_bound; [lia |].
      rewrite Nat2Z.inj_succ, Z.pow_succ_r in Hv by lia. lia. }
    exists j. split; [lia |].
    change (hex_fixed (S (S n)) v)
      with (hex_fixed (S n) (v / 16) ++ [hex_digit (v mod 16)]).
    assert (Hl : (j <= length (hex_fixed (S n) (v / 16)))%nat)
      by (rewrite length_hex_fixed; lia).
    rewrite drop_app_le, take_app_le by exact Hl.
    split; [| exact Hz].
    rewrite Ht, <- app_assoc. reflexivity.
Qed.

Lemma zfill_to_hex (n : nat) (v : Z) :
  0 <= v < 16 ^ Z.of_nat (S n) ->
  zfill (S n) (to_hex v []) = hex_fixed (S n) v.
Proof.
  intros Hv. destruct (to_hex_hex_fixed n v [] Hv) as (j & Hj & Ht & Hz).
  unfold zfill. rewrite Ht, app_nil_r, length_drop, length_hex_fixed.
  replace (S n - (S n - j))%nat with j by lia.
  rewrite <- Hz. apply take_drop.
Qed.

Lemma format_08x_word (v : Z) : word32 v -> format_08x v = hex_fixed 8 v.
Proof.
  intros Hv. unfold format_08x.
  destruct (Z.ltb_spec v 0) as [Hneg | _]; [unfold word32 in Hv; lia |].
  apply zfill_to_hex. exact Hv.
Qed.

Lemma hex_val_hex_digit (d : Z) : 0 <= d < 16 -> hex_val (hex_digit d) = Some d.
Proof.
  intros Hd.
  assert (H : d = 0 \/ d = 1 \/ d = 2 \/ d = 3 \/ d = 4 \/ d = 5 \/ d = 6 \/
              d = 7 \/ d = 8 \/ d = 9 \/ d = 10 \/ d = 11 \/ d = 12 \/
              d = 13 \/ d = 14 \/ d = 15) by lia.
  repeat destruct H as [-> | H]; try subst d; reflexivity.
Qed.

Lemma lower_hex_hex_digit (d : Z) : 0 <= d < 16 -> lower_hex (hex_digit d) = true.
Proof.
  intros Hd.
  assert (H : d = 0 \/ d = 1 \/ d = 2 \/ d = 3 \/ d = 4 \/ d = 5 \/ d = 6 \/
              d = 7 \/ d = 8 \/ d = 9 \/ d = 10 \/ d = 11 \/ d = 12 \/
              d = 13 \/ d = 14 \/ d = 15) by lia.
  repeat destruct H as [-> | H]; try subst d; reflexivity.
Qed.

Lemma fromhex_app (k : nat) :
  forall s1 s2 : list ascii, length s1 = (2 * k)%nat ->
  fromhex (s1 ++ s2) =
  do b1 <- fromhex s1; do b2 <- fromhex s2; Ok (b1 ++ b2).
Proof.
  induction k as [| k IH]; intros s1 s2 Hl.
  - destruct s1; [| simpl in Hl; lia]. simpl.
    destruct (fromhex s2); reflexivity.
  - destruct s1 as [| c1 [| c2 s1]]; simpl in Hl; try lia.
    cbn [app fromhex].
    destruct (hex_val c1), (hex_val c2); try reflexivity.
    rewrite (IH s1 s2) by lia.
    destruct (fromhex s1); [| reflexivity].
    rewrite !rbind_Ok. destruct (fromhex s2); reflexivity.
Qed.

Lemma byte_of_Z_mod (v : Z) : byte_of_Z (v mod 256) = byte_of_Z v.
Proof. unfold byte_of_Z. now rewrite Z.mod_mod by lia. Qed.

Lemma hex_fixed_SS (n : nat) (v : Z) :
  hex_fixed (S (S n)) v =
  hex_fixed n (v / 256) ++ [hex_digit (v / 16 mod 16); hex_digit (v mod 16)].
Proof.
  cbn [hex_fixed]. rewrite Z.div_div by lia. change (16 * 16) with 256.
  now rewrite <- app_assoc.
Qed.

Lemma fromhex_hex_fixed (k : nat) (v : Z) :
  fromhex (hex_fixed (2 * k) v) = Ok (be_bytes k v).
Proof.
  revert v. induction k as [| k IH]; intros v; [reflexivity |].
  replace (2 * S k)%nat with (S (S (2 * k))) by lia.
  rewrite hex_fixed_SS, (fromhex_app k) by apply length_hex_fixed.
  rewrite IH, rbind_Ok. cbn [fromhex].
  rewrite !hex_val_hex_digit by (apply Z.mod_pos_bound; lia).
  rewrite !rbind_Ok. cbn [be_bytes].
  assert (E : 16 * (v / 16 mod 16) + v mod 16 = v mod 256).
  { change 256 with (16 * 16). rewrite (Z.rem_mul_r v 16 16) by lia. lia. }
  rewrite E, byte_of_Z_mod. reflexivity.
Qed.

Lemma unpack_hex_hex_fixed (v : Z) :
  word32 v -> unpack_hex (hex_fixed 8 v) = Ok v.
Proof.
  intros Hv. unfold unpack_hex.
  change 8%nat with (2 * 4)%nat.
  rewrite (fromhex_hex_fixed 4 v), rbind_Ok. unfold unpack_I.
  rewrite length_be_bytes. cbn [Nat.eqb].
  rewrite be_int_be_bytes. f_equal. apply Z.mod_small. exact Hv.
Qed.

Lemma lower_hex_hex_fixed (n : nat) (v : Z) :
  forallb lower_hex (hex_fixed n v) = true.
Proof.
  revert v. induction n as [| n IH]; intros v; [reflexivity |].
  cbn [hex_fixed]. rewrite forallb_app, IH. cbn [forallb].
  rewrite lower_hex_hex_digit by (apply Z.mod_pos_bound; lia). reflexivity.
Qed.

(** Hexadecimal digits are not whitespace. *)
Lemma is_hex_not_space (c : ascii) : is_hex c = true -> isspace c = false.
Proof. destruct c as [[] [] [] [] [] [] [] []]; vm_compute; congruence. Qed.

Lemma lower_hex_is_hex (c : ascii) : lower_hex c = true -> is_hex c = true.
Proof. destruct c as [[] [] [] [] [] [] [] []]; vm_compute; congruence. Qed.

Lemma hex_no_space (s : list ascii) :
  forallb is_hex s = true -> Forall (fun c => isspace c = false) s.
Proof.
  induction s as [| c s IH]; [constructor |].
  cbn [forallb]. intros H. apply andb_true_iff in H as [Hc Hs].
  constructor; [now apply is_hex_not_space | now apply IH].
Qed.

Lemma plain_no_space (s : list ascii) :
  plain s = true -> Forall (fun c => isspace c = false) s.
Proof.
  unfold plain. induction s as [| c s IH]; [constructor |].
  cbn [forallb]. intros H. apply andb_true_iff in H as [Hc Hs].
  constructor; [| now apply IH].
  unfold wrap_special in Hc. destruct (isspace c); [discriminate | reflexivity].
Qed.

Lemma textwrap_wrap8_nil : textwrap_wrap8 [] = [].
Proof. now simp textwrap_wrap8. Qed.

(** A piece that starts with a character that is not whitespace is a line. *)
Lemma textwrap_wrap8_cons (c : ascii) (s : list ascii) :
  isspace c = false ->
  textwrap_wrap8 (c :: s) = take 8 (c :: s) :: textwrap_wrap8 (drop 8 (c :: s)).
Proof.
  intros Hc. simp textwrap_wrap8.
  replace (forallb isspace (take 8 (c :: s))) with false; [reflexivity |].
  simpl. now rewrite Hc.
Qed.

Lemma textwrap_wrap8_eq (s : list ascii) :
  s <> [] -> Forall (fun c => isspace c = false) s ->
  textwrap_wrap8 s = take 8 s :: textwrap_wrap8 (drop 8 s).
Proof.
  intros Hs Hn. destruct s as [| c s]; [contradiction |].
  apply textwrap_wrap8_cons. now inversion Hn.
Qed.

Lemma lower_hex_all_is_hex (s : list ascii) :
  forallb lower_hex s = true -> forallb is_hex s = true.
Proof.
  induction s as [| c s IH]; [reflexivity |].
  cbn [forallb]. intros H. apply andb_true_iff in H as [Hc Hs].
  now rewrite (lower_hex_is_hex c Hc), IH.
Qed.

Lemma textwrap_wrap8_concat (l : list (list ascii)) :
  Forall (fun p => length p = 8%nat /\ forallb is_hex p = true) l ->
  textwrap_wrap8 (concat l) = l.
Proof.
  induction 1 as [| p l [Hp Hh] _ IH]; [apply textwrap_wrap8_nil |].
  cbn [concat]. destruct p as [| c p']; [discriminate |].
  cbn [forallb] in Hh. apply andb_true_iff in Hh as [Hc _].
  change ((c :: p') ++ concat l) with (c :: (p' ++ concat l)).
  rewrite textwrap_wrap8_cons by now apply is_hex_not_space.
  change (c :: (p' ++ concat l)) with ((c :: p') ++ concat l).
  rewrite take_app_length', drop_app_length' by (symmetry; exact Hp).
  now rewrite IH.
Qed.

(** Parsing the rendering of a list of 32-bit words gives the words back. *)
Lemma hexdigest_to_state_render (hs : list Z) :
  Forall word32 hs ->
  hexdigest_to_state (concat (map format_08x hs)) = Ok hs.
Proof.
  intros Hw. unfold hexdigest_to_state.
  rewrite textwrap_wrap8_concat.
  - induction Hw as [| v hs Hv _ IH]; [reflexivity |].
    cbn [map list_comp].
    rewrite format_08x_word, unpack_hex_hex_fixed by exact Hv.
    rewrite rbind_Ok, IH. reflexivity.
  - apply Forall_map. eapply Forall_impl; [exact Hw |].
    intros v Hv. simpl. rewrite format_08x_word by exact Hv.
    split; [apply length_hex_fixed |].
    apply lower_hex_all_is_hex, lower_hex_hex_fixed.
Qed.

(** ** The digest as a function of the message *)

Lemma hexdigest_value_eq (s : SHA1) :
  hexdigest_value s =
  do m <- finalize_pad_message (hashed_bytes s) (buffer s);
  do v <- finalize_loop m (h s);
  Ok (render v).
Proof.
  unfold hexdigest_value. rewrite hexdigest_eq, finalize_eq.
  destruct (finalize_pad_message (hashed_bytes s) (buffer s)) as [m | e];
    [| reflexivity].
  rewrite !rbind_Ok. destruct (finalize_loop m (h s)); reflexivity.
Qed.

Lemma finalize_pad_message_eq (n : Z) (data : list byte) :
  finalize_pad_message n data =
  do l <- pack_Q ((n + Z.of_nat (length data)) * 8);
  Ok (data ++ pad_tail (n + Z.of_nat (length data))).
Proof.
  unfold finalize_pad_message.
  destruct (pack_Q ((n + Z.of_nat (length data)) * 8)) as [l | e] eqn:E;
    [| reflexivity].
  apply pack_Q_inv in E as [_ ->]. rewrite !rbind_Ok.
  now rewrite <- app_assoc.
Qed.

Lemma div64_bound (n : nat) : (64 * (n / 64) <= n)%nat.
Proof. apply Nat.Div0.mul_div_le. Qed.

(** The digest does not depend on how much of the input [update] has
    already compressed. *)
Lemma hexdigest_absorbed (s s' : SHA1) :
  update_loop s = Ok (tt, s') -> hexdigest_value s' = hexdigest_value s.
Proof.
  intros H. rewrite !hexdigest_value_eq, !finalize_pad_message_eq.
  pose proof (update_loop_inv s s' H) as (Hb & Hn & _).
  pose proof (div64_bound (length (buffer s))) as Hk.
  assert (Ht : hashed_bytes s' + Z.of_nat (length (buffer s')) =
               hashed_bytes s + Z.of_nat (length (buffer s))).
  { rewrite Hb, Hn, length_drop. lia. }
  rewrite Ht.
  destruct (pack_Q _) as [l | e]; [| reflexivity].
  rewrite !rbind_Ok.
  now rewrite (finalize_loop_absorbed s s' _ H).
Qed.

(** [SHA1().update(m).hexdigest()] is the rendering of the state reached by
    compressing the padded message from the initial state. *)
Lemma sha1_hex_eq (m : list byte) :
  sha1_hex m =
  do p <- finalize_pad_message 0 m;
  do v <- finalize_loop p default_state;
  Ok (render v).
Proof.
  unfold sha1_hex. rewrite update_eq.
  destruct (update_loop_total (with_buffer SHA1_new (buffer SHA1_new ++ m)))
    as (s' & Hs' & _); [reflexivity |].
  rewrite Hs', rbind_Ok. cbn [snd].
  change (do r' <- hexdigest s'; Ok (fst r')) with (hexdigest_value s').
  rewrite (hexdigest_absorbed _ _ Hs'), hexdigest_value_eq. reflexivity.
Qed.

(** Compressing [b ++ rest] is compressing [b], when that ends normally,
    and going on with [rest]. *)
Lemma finalize_loop_app (b : list byte) :
  forall (hs fin : list Z) (rest : list byte),
  finalize_loop b hs = Ok fin ->
  finalize_loop (b ++ rest) hs = finalize_loop rest fin.
Proof.
  induction b as [b IH] using list_length_ind. intros hs fin rest H.
  destruct (list_eq_nil_dec b) as [-> | Hb].
  - rewrite finalize_loop_nil in H. now injection H as <-.
  - rewrite finalize_loop_eq in H by exact Hb.
    apply rbind_ok in H as (hs' & Hc & H).
    pose proof (compress_star_inv _ _ _ Hc) as (Hlen & _).
    rewrite length_take in Hlen.
    rewrite finalize_loop_eq by (destruct b; [contradiction | discriminate]).
    rewrite take_app_le, drop_app_le by lia. rewrite Hc, rbind_Ok.
    apply IH; [rewrite length_drop; lia | exact H].
Qed.

Lemma mod64_multiple (n : nat) :
  Z.of_nat n mod 64 = 0 -> exists k, n = (64 * k)%nat.
Proof.
  intros H. exists (n / 64)%nat.
  apply Nat2Z.inj. rewrite Nat2Z.inj_mul, Nat2Z.inj_div.
  change (Z.of_nat 64) with 64. Z.to_euclidean_division_equations. lia.
Qed.

(** The padded message is made of whole blocks when the count of bytes
    hashed before is a multiple of 64, and then [finalize] returns. *)
Lemma finalize_loop_padded (n : Z) (data : list byte) (hs : list Z) :
  n mod 64 = 0 -> length hs = 5%nat ->
  exists fin,
    finalize_loop (data ++ pad_tail (n + Z.of_nat (length data))) hs = Ok fin /\
    length fin = 5%nat /\ Forall word32 fin.
Proof.
  intros Hn Hh.
  pose proof (pad_tail_aligned (n + Z.of_nat (length data))) as Ha.
  destruct (mod64_multiple (length (data ++ pad_tail (n + Z.of_nat (length data)))))
    as [k Hk].
  { rewrite length_app, Nat2Z.inj_add.
    revert Ha Hn. generalize (Z.of_nat (length (pad_tail (n + Z.of_nat (length data))))).
    intros. Z.to_euclidean_division_equations. lia. }
  destruct (finalize_loop_total k _ hs Hk Hh) as (fin & Hf & Hl).
  exists fin. split; [exact Hf |]. split; [exact Hl |].
  apply finalize_loop_inv in Hf; [tauto |].
  unfold pad_tail. destruct data; discriminate.
Qed.

Lemma sha1_hex_total (m : list byte) :
  Z.of_nat (length m) * 8 < 2 ^ 64 ->
  exists v, sha1_hex m = Ok (render v) /\ length v = 5%nat /\ Forall word32 v.
Proof.
  intros Hm. rewrite sha1_hex_eq, finalize_pad_message_ok by lia.
  rewrite rbind_Ok.
  destruct (finalize_loop_padded 0 m default_state) as (fin & Hf & Hl & Hw);
    [reflexivity | reflexivity |].
  rewrite Hf, rbind_Ok. eauto.
Qed.

Lemma sha1_hex_inv (m : list byte) (d : list ascii) :
  sha1_hex m = Ok d ->
  Z.of_nat (length m) * 8 < 2 ^ 64 /\
  exists v, finalize_loop (m ++ pad_tail (Z.of_nat (length m))) default_state = Ok v /\
            d = render v /\ length v = 5%nat /\ Forall word32 v.
Proof.
  rewrite sha1_hex_eq. intros H.
  apply rbind_ok in H as (p & Hp & H).
  apply finalize_pad_message_inv in Hp as [Hr ->].
  apply rbind_ok in H as (v & Hv & H). injection H as <-.
  split; [lia |]. exists v. split; [exact Hv |]. split; [reflexivity |].
  apply finalize_loop_inv in Hv; [tauto |].
  unfold pad_tail. destruct m; discriminate.
Qed.

(** ** Sequences of [update] calls *)

Lemma with_buffer_id (s : SHA1) : with_buffer s (buffer s) = s.
Proof. now destruct s. Qed.

Lemma update_inv (data : list byte) (s s' : SHA1) :
  update data s = Ok (tt, s') ->
  buffer s' = drop (64 * ((length (buffer s) + length data) / 64)) (buffer s ++ data) /\
  hashed_bytes s' =
    hashed_bytes s + 64 * Z.of_nat ((length (buffer s) + length data) / 64) /\
  (length (buffer s') < 64)%nat.
Proof.
  rewrite update_eq. intros H. apply update_loop_inv in H.
  cbn [with_buffer buffer hashed_bytes] in H.
  now rewrite length_app in H.
Qed.

Lemma update_total (data : list byte) (s : SHA1) :
  length (h s) = 5%nat ->
  exists s', update data s = Ok (tt, s') /\ length (h s') = 5%nat.
Proof. intros Hh. rewrite update_eq. now apply update_loop_total. Qed.

Lemma update_counts (data : list byte) (s s' : SHA1) :
  update data s = Ok (tt, s') ->
  hashed_bytes s' + Z.of_nat (length (buffer s')) =
  hashed_bytes s + Z.of_nat (length (buffer s)) + Z.of_nat (length data).
Proof.
  intros H. apply update_inv in H as (Hb & Hn & _).
  pose proof (div64_bound (length (buffer s) + length data)).
  rewrite Hb, Hn, length_drop, length_app. lia.
Qed.

Lemma updates_total (cs : list (list byte)) :
  forall s, length (h s) = 5%nat ->
  exists s', updates cs s = Ok (tt, s') /\ length (h s') = 5%nat /\
    hashed_bytes s' + Z.of_nat (length (buffer s')) =
    hashed_bytes s + Z.of_nat (length (buffer s)) + Z.of_nat (length (concat cs)).
Proof.
  induction cs as [| c cs IH]; intros s Hh.
  - exists s. simpl. repeat split; [exact Hh | lia].
  - destruct (update_total c s Hh) as (s1 & H1 & Hh1).
    destruct (IH s1 Hh1) as (s' & H' & Hh' & Hc).
    exists s'. cbn [updates]. unfold bind. rewrite H1.
    split; [exact H' |]. split; [exact Hh' |].
    rewrite Hc, (update_counts c s s1 H1). cbn [concat].
    rewrite length_app. lia.
Qed.

Lemma update_nil (s : SHA1) :
  (length (buffer s) < 64)%nat -> update [] s = Ok (tt, s).
Proof.
  intros Hl. rewrite update_eq, app_nil_r, with_buffer_id, update_loop_eq.
  destruct (le_dec 64 (length (buffer s))); [lia | reflexivity].
Qed.

(** A sequence of calls is one call on the concatenation. *)
Lemma updates_concat (cs : list (list byte)) :
  forall s, (length (buffer s) < 64)%nat ->
  updates cs s = update (concat cs) s.
Proof.
  induction cs as [| c cs IH]; intros s Hl.
  - symmetry. now apply update_nil.
  - cbn [updates concat]. rewrite <- update_update. unfold bind.
    destruct (update c s) as [[[] s1] | e] eqn:E; [| reflexivity].
    apply IH. now apply update_inv in E.
Qed.

(** ** [digest] and [hexdigest] leave the hasher alone *)

Lemma finalize_frame (r : list byte) (s : SHA1) (v : list Z) (s' : SHA1) :
  finalize r s = Ok (v, s') -> s' = s.
Proof.
  rewrite finalize_eq. intros H.
  apply rbind_ok in H as (m & _ & H). apply rbind_ok in H as (w & _ & H).
  now injection H.
Qed.

Lemma digest_frame (s : SHA1) (d : list byte) (s' : SHA1) :
  digest s = Ok (d, s') -> s' = s.
Proof.
  rewrite digest_eq. intros H.
  apply rbind_ok in H as ([v t] & Hf & H).
  apply rbind_ok in H as (parts & _ & H).
  apply finalize_frame in Hf. cbn [snd] in H. injection H as _ <-. exact Hf.
Qed.

Lemma hexdigest_frame (s : SHA1) (d : list ascii) (s' : SHA1) :
  hexdigest s = Ok (d, s') -> s' = s.
Proof.
  rewrite hexdigest_eq. intros H.
  apply rbind_ok in H as ([v t] & Hf & H).
  apply finalize_frame in Hf. cbn [snd] in H. injection H as _ <-. exact Hf.
Qed.

Lemma pack_I_ok (v : Z) : word32 v -> pack_I v = Ok (be_bytes 4 v).
Proof.
  intros Hv. unfold pack_I, word32 in *.
  destruct (Z.leb_spec 0 v), (Z.ltb_spec v (2 ^ 32)); simpl; trivial; lia.
Qed.

Lemma list_comp_pack_I (hs : list Z) :
  Forall word32 hs -> list_comp pack_I hs = Ok (map (be_bytes 4) hs).
Proof.
  induction 1 as [| v hs Hv _ IH]; [reflexivity |].
  cbn [list_comp map]. now rewrite pack_I_ok, rbind_Ok, IH by exact Hv.
Qed.

Lemma lower_hex_render (hs : list Z) :
  Forall word32 hs -> forallb lower_hex (concat (map format_08x hs)) = true.
Proof.
  induction 1 as [| v hs Hv _ IH]; [reflexivity |].
  cbn [map concat]. rewrite forallb_app, IH, format_08x_word by exact Hv.
  now rewrite lower_hex_hex_fixed.
Qed.

Lemma lower_hex_plain (c : ascii) :
  lower_hex c = true -> wrap_special c = false.
Proof. destruct c as [[] [] [] [] [] [] [] []]; vm_compute; congruence. Qed.

(** A string of lowercase hexadecimal digits has no whitespace and no
    hyphen. *)
Lemma lower_hex_all_plain (s : list ascii) :
  forallb lower_hex s = true -> plain s = true.
Proof.
  unfold plain. induction s as [| c s IH]; [reflexivity |].
  cbn [forallb]. intros H. apply andb_true_iff in H as [Hc Hs].
  now rewrite (lower_hex_plain c Hc), IH.
Qed.

(** ** The session of [test]

    The embedded code run on the continuous-update session of [test]:
    [hexdigest] after each of the three [update] calls. *)
Example test_continuous_update :
  bind (update (b_ "nanana"))
    (fun _ => bind hexdigest
    (fun d1 => bind (update (b_ " "))
    (fun _ => bind hexdigest
    (fun d2 => bind (update (b_ "batman"))
    (fun _ => bind hexdigest
    (fun d3 => ret [d1; d2; d3])))))) SHA1_new
  = Ok ([s_ "ebd936ea94d4d7ef22edefad4d1a9f53c07daada";
         s_ "427029b0d3c8e2701b2123287fea802218236508";
         s_ "acc505b782afe56238322ef8f583f4f3686b27ca"],
        {| h := default_state; hashed_bytes := 0;
           buffer := b_ "nanana batman" |}).
Proof. vm_compute. reflexivity. Qed.

(* ================================================================== *)
(** * The properties of the design document *)

(** C8 -- Compression precondition.  [compress] returns normally exactly on
    the blocks of 64 bytes, whatever integers the state holds, and raises
    exactly on the others; the exception is the [AssertionError] of its
    first statement. *)
Theorem compress_block_length (chunk : list byte) (h0 h1 h2 h3 h4 : Z) :
  ((exists st, compress chunk h0 h1 h2 h3 h4 = Ok st) <-> length chunk = 64%nat) /\
  ((exists e, compress chunk h0 h1 h2 h3 h4 = Raise e) <-> length chunk <> 64%nat) /\
  (compress chunk h0 h1 h2 h3 h4 = Raise AssertionError <-> length chunk <> 64%nat).
Proof.
  destruct (Nat.eq_dec (length chunk) 64%nat) as [Hc | Hc].
  - destruct (compress_total chunk h0 h1 h2 h3 h4 Hc) as (st & Hst & _).
    rewrite Hst. repeat split; intros H; eauto; try contradiction;
      try discriminate.
    destruct H as [e He]. discriminate.
  - rewrite (compress_bad_length chunk h0 h1 h2 h3 h4 Hc).
    repeat split; intros H; eauto; try contradiction.
    destruct H as [st Hst]. discriminate.
Qed.

(** C2 -- The compression function implements the round algorithm of
    section 4.3.  On a 64-byte block and a state of five 32-bit words, the
    list [x] that [compress] builds is the message schedule of the block
    (16 big-endian words, then the rotated xor recurrence), and the result
    is the state obtained by the 80 rounds of the table, added to the input
    state word by word modulo 2^32; every word of the result is below
    2^32. *)
Theorem compress_implements_rounds (chunk : list byte) (h0 h1 h2 h3 h4 : Z) :
  length chunk = 64%nat ->
  word32 h0 -> word32 h1 -> word32 h2 -> word32 h3 -> word32 h4 ->
  exists x,
    schedule chunk = Ok x /\ is_schedule chunk x /\
    compress chunk h0 h1 h2 h3 h4 = Ok (compress_spec x h0 h1 h2 h3 h4) /\
    Forall word32 (compress_spec x h0 h1 h2 h3 h4).
Proof.
  intros Hc H0 H1 H2 H3 H4.
  destruct (compress_eq_spec chunk h0 h1 h2 h3 h4 Hc) as (x & Hx & Hs & Hq).
  { simpl. auto. }
  exists x. split; [exact Hx |]. split; [exact Hs |]. split; [exact Hq |].
  unfold compress_spec.
  destruct (rounds_spec x (h0, h1, h2, h3, h4)) as [[[[a b] c] d] e].
  repeat constructor; apply add32_word.
Qed.

Lemma compress_implements_rounds_witness :
  exists x,
    schedule (replicate 64 x00) = Ok x /\ is_schedule (replicate 64 x00) x /\
    compress (replicate 64 x00) 0x67452301 0xefcdab89 0x98badcfe 0x10325476 0xc3d2e1f0
    = Ok (compress_spec x 0x67452301 0xefcdab89 0x98badcfe 0x10325476 0xc3d2e1f0) /\
    Forall word32
      (compress_spec x 0x67452301 0xefcdab89 0x98badcfe 0x10325476 0xc3d2e1f0).
Proof.
  apply (compress_implements_rounds (replicate 64 x00));
    [reflexivity | unfold word32; lia ..].
Defined.

(** C9 -- Accumulator invariant.  On a hasher constructed with a state of
    five words, every call of [update] in a sequence of calls returns; when
    it has returned, fewer than 64 bytes are buffered, [hashed_bytes] has
    grown by 64 for each whole block that was available (so it never
    decreases), and [hashed_bytes] plus the length of the buffer is the
    number of bytes passed to [update] so far. *)
Theorem update_accumulator_invariant
    (state : list Z) (cs : list (list byte)) (data : list byte) :
  length state = 5%nat ->
  exists s s',
    updates cs (SHA1_init state) = Ok (tt, s) /\
    update data s = Ok (tt, s') /\
    (length (buffer s') < 64)%nat /\
    hashed_bytes s' =
      hashed_bytes s + 64 * Z.of_nat ((length (buffer s) + length data) / 64) /\
    hashed_bytes s <= hashed_bytes s' /\
    hashed_bytes s' + Z.of_nat (length (buffer s')) =
      Z.of_nat (length (concat cs)) + Z.of_nat (length data).
Proof.
  intros Hst.
  destruct (updates_total cs (SHA1_init state) Hst) as (s & Hs & Hh & Hc).
  destruct (update_total data s Hh) as (s' & Hs' & _).
  exists s, s'. split; [exact Hs |]. split; [exact Hs' |].
  pose proof (update_inv data s s' Hs') as (_ & Hn & Hl).
  pose proof (update_counts data s s' Hs') as Hk.
  simpl in Hc. repeat split; [exact Hl | exact Hn | lia | lia].
Qed.

Lemma update_accumulator_invariant_witness :
  exists s s',
    updates [b_ "nanana"; b_ " "] (SHA1_init default_state) = Ok (tt, s) /\
    update (replicate 100 "A"%byte) s = Ok (tt, s') /\
    (length (buffer s') < 64)%nat /\
    hashed_bytes s' =
      hashed_bytes s
      + 64 * Z.of_nat ((length (buffer s) + length (replicate 100 "A"%byte)) / 64) /\
    hashed_bytes s <= hashed_bytes s' /\
    hashed_bytes s' + Z.of_nat (length (buffer s')) =
      Z.of_nat (length (concat [b_ "nanana"; b_ " "]))
      + Z.of_nat (length (replicate 100 "A"%byte)).
Proof.
  apply (update_accumulator_invariant default_state [b_ "nanana"; b_ " "]
           (replicate 100 "A"%byte)).
  reflexivity.
Defined.

(** [finalize] returns on every hasher that [update] can produce from a
    five-word state, as long as the bit length fits the 64-bit field. *)
Lemma finalize_total (s : SHA1) :
  length (h s) = 5%nat -> hashed_bytes s mod 64 = 0 ->
  0 <= (hashed_bytes s + Z.of_nat (length (buffer s))) * 8 < 2 ^ 64 ->
  exists v, finalize (buffer s) s = Ok (v, s) /\
            length v = 5%nat /\ Forall word32 v.
Proof.
  intros Hh Hn Hr. rewrite finalize_eq, finalize_pad_message_ok by exact Hr.
  rewrite rbind_Ok.
  destruct (finalize_loop_padded (hashed_bytes s) (buffer s) (h s) Hn Hh)
    as (v & Hv & Hl & Hw).
  rewrite Hv, rbind_Ok. eauto.
Qed.

Lemma length_digest_words (v : list Z) :
  length v = 5%nat -> length (concat (map (be_bytes 4) v)) = 20%nat.
Proof.
  intros Hl. destruct v as [| a [| b [| c [| d [| e [| ? ?]]]]]]; try discriminate.
  cbn [map concat]. rewrite !length_app, !length_be_bytes. reflexivity.
Qed.

Lemma digest_total (s : SHA1) :
  length (h s) = 5%nat -> hashed_bytes s mod 64 = 0 ->
  0 <= (hashed_bytes s + Z.of_nat (length (buffer s))) * 8 < 2 ^ 64 ->
  exists d, digest s = Ok (d, s) /\ length d = 20%nat.
Proof.
  intros Hh Hn Hr.
  destruct (finalize_total s Hh Hn Hr) as (v & Hv & Hl & Hw).
  rewrite digest_eq, Hv, rbind_Ok. cbn [fst snd].
  rewrite list_comp_pack_I, rbind_Ok by exact Hw.
  eexists. split; [reflexivity |]. now apply length_digest_words.
Qed.

(** C3 -- Chunking invariance.  On a fresh hasher, a sequence of calls
    [update(c1); ...; update(ck)] followed by [digest] (or [hexdigest])
    gives the same outcome, value and hasher, as the single call
    [update(c1 + ... + ck)] followed by [digest] (or [hexdigest]); with a
    state of five words and a message shorter than 2^61 bytes that outcome
    is a digest of 20 bytes. *)
Theorem chunking_invariance (state : list Z) (cs : list (list byte)) :
  bind (updates cs) (fun _ => digest) (SHA1_init state) =
  bind (update (concat cs)) (fun _ => digest) (SHA1_init state) /\
  bind (updates cs) (fun _ => hexdigest) (SHA1_init state) =
  bind (update (concat cs)) (fun _ => hexdigest) (SHA1_init state) /\
  (length state = 5%nat -> Z.of_nat (length (concat cs)) * 8 < 2 ^ 64 ->
   exists d s,
     bind (updates cs) (fun _ => digest) (SHA1_init state) = Ok (d, s) /\
     length d = 20%nat).
Proof.
  unfold bind. rewrite (updates_concat cs (SHA1_init state)) by (simpl; lia).
  split; [reflexivity |]. split; [reflexivity |].
  intros Hst Hlen.
  destruct (update_total (concat cs) (SHA1_init state) Hst) as (s & Hs & Hh).
  rewrite Hs.
  pose proof (update_inv _ _ _ Hs) as (_ & Hn & _).
  pose proof (update_counts _ _ _ Hs) as Hc. simpl in Hn, Hc.
  destruct (digest_total s Hh) as (d & Hd & Hl).
  - rewrite Hn. generalize (Z.of_nat (length (concat cs) / 64)). intros z.
    Z.to_euclidean_division_equations. lia.
  - lia.
  - eauto.
Qed.

Lemma chunking_invariance_witness :
  exists d s,
    bind (updates [b_ "nanana"; b_ " "; b_ "batman"]) (fun _ => digest)
         (SHA1_init default_state) = Ok (d, s) /\
    length d = 20%nat.
Proof.
  apply (chunking_invariance default_state [b_ "nanana"; b_ " "; b_ "batman"]);
    [reflexivity | vm_compute; reflexivity].
Defined.

(** C4 -- Non-destructive finalization.  Whenever [finalize], [digest] or
    [hexdigest] returns, the hasher has the attributes [h], [hashed_bytes]
    and [buffer] it had before.  Hence two calls of [digest] in a row
    return the same value, a call of [update] after a [digest] does what it
    would have done without the [digest], and on a fresh hasher
    [update(m1); digest(); update(m2); digest()] ends like
    [update(m1 + m2); digest()]. *)
Theorem finalize_non_destructive :
  (forall (s : SHA1) (r : list byte),
     match finalize r s with Ok (_, s') => s' = s | Raise _ => True end) /\
  (forall s : SHA1,
     match digest s with Ok (_, s') => s' = s | Raise _ => True end) /\
  (forall s : SHA1,
     match hexdigest s with Ok (_, s') => s' = s | Raise _ => True end) /\
  (forall s : SHA1,
     bind digest (fun d1 => bind digest (fun d2 => ret (d1, d2))) s =
     bind digest (fun d => ret (d, d)) s) /\
  (forall (s : SHA1) (data : list byte),
     match digest s with
     | Ok _ => bind digest (fun _ => bind (update data) (fun _ => digest)) s =
               bind (update data) (fun _ => digest) s
     | Raise e => bind digest (fun _ => bind (update data) (fun _ => digest)) s =
                  Raise e
     end) /\
  (forall (state : list Z) (m1 m2 : list byte),
     match bind (update m1) (fun _ => digest) (SHA1_init state) with
     | Ok _ =>
         bind (update m1)
           (fun _ => bind digest (fun _ => bind (update m2) (fun _ => digest)))
           (SHA1_init state) =
         bind (update (m1 ++ m2)) (fun _ => digest) (SHA1_init state)
     | Raise _ => True
     end).
Proof.
  split; [| split; [| split; [| split; [| split]]]].
  - intros s r. destruct (finalize r s) as [[v s'] | e] eqn:E; [| exact I].
    now apply finalize_frame in E.
  - intros s. destruct (digest s) as [[v s'] | e] eqn:E; [| exact I].
    now apply digest_frame in E.
  - intros s. destruct (hexdigest s) as [[v s'] | e] eqn:E; [| exact I].
    now apply hexdigest_frame in E.
  - intros s. unfold bind, ret.
    destruct (digest s) as [[d s'] | e] eqn:E; [| reflexivity].
    pose proof (digest_frame _ _ _ E) as ->. now rewrite E.
  - intros s data. unfold bind.
    destruct (digest s) as [[d s'] | e] eqn:E; [| reflexivity].
    now pose proof (digest_frame _ _ _ E) as ->.
  - intros state m1 m2. unfold bind. rewrite <- update_update. unfold bind.
    destruct (update m1 (SHA1_init state)) as [[[] s1] | e]; [| exact I].
    destruct (digest s1) as [[d s'] | e] eqn:E; [| exact I].
    now pose proof (digest_frame _ _ _ E) as ->.
Qed.

(** C5, as stated, fails: with one byte hashed before and no data the
    padded message has 63 bytes, which is not a multiple of 64. *)
Lemma finalize_pad_message_length_counterexample :
  exists m, finalize_pad_message 1 [] = Ok m /\
            length m = 63%nat /\ (length m mod 64)%nat <> 0%nat.
Proof.
  eexists. split; [vm_compute; reflexivity |].
  split; [reflexivity | discriminate].
Qed.

(** C5, amended -- Padding shape.  For [n >= 0] bytes hashed before and
    [total = n + len(data)] with [total * 8 < 2^64], [finalize_pad_message]
    returns [data], the byte 0x80, [(56 - (total + 1) mod 64) mod 64] zero
    bytes and the 8 bytes of the big-endian encoding of [total * 8]; [n]
    plus the length of the result is a positive multiple of 64, and the
    length of the result itself is one when [n] is a multiple of 64. *)
Theorem finalize_pad_message_shape (n : Z) (data : list byte) :
  0 <= n -> (n + Z.of_nat (length data)) * 8 < 2 ^ 64 ->
  exists l m,
    finalize_pad_message n data = Ok m /\
    m = data ++ [x80]
        ++ replicate (Z.to_nat ((56 - (n + Z.of_nat (length data) + 1) mod 64) mod 64)) x00
        ++ l /\
    length l = 8%nat /\ be_int l = (n + Z.of_nat (length data)) * 8 /\
    (n + Z.of_nat (length m)) mod 64 = 0 /\ 0 < n + Z.of_nat (length m) /\
    (n mod 64 = 0 -> Z.of_nat (length m) mod 64 = 0 /\ (0 < length m)%nat).
Proof.
  intros Hn Hr.
  exists (be_bytes 8 ((n + Z.of_nat (length data)) * 8)).
  exists (data ++ pad_tail (n + Z.of_nat (length data))).
  split; [apply finalize_pad_message_ok; lia |].
  split; [reflexivity |].
  split; [apply length_be_bytes |].
  split; [rewrite be_int_be_bytes; apply Z.mod_small;
          change (256 ^ Z.of_nat 8) with (2 ^ 64); lia |].
  pose proof (pad_tail_aligned (n + Z.of_nat (length data))) as Ha.
  pose proof (length_pad_tail (n + Z.of_nat (length data))) as Hl.
  rewrite length_app, Nat2Z.inj_add.
  split; [now rewrite Z.add_assoc |]. split; [lia |].
  intros Hm. split; [| lia].
  revert Ha Hm.
  generalize (Z.of_nat (length (pad_tail (n + Z.of_nat (length data))))).
  generalize (Z.of_nat (length data)). intros a b.
  intros. Z.to_euclidean_division_equations. lia.
Qed.

Lemma finalize_pad_message_shape_witness :
  exists l m,
    finalize_pad_message 64 (b_ "nanana batman") = Ok m /\
    m = b_ "nanana batman" ++ [x80]
        ++ replicate
             (Z.to_nat ((56 - (64 + Z.of_nat (length (b_ "nanana batman")) + 1) mod 64)
                        mod 64)) x00
        ++ l /\
    length l = 8%nat /\
    be_int l = (64 + Z.of_nat (length (b_ "nanana batman"))) * 8 /\
    (64 + Z.of_nat (length m)) mod 64 = 0 /\ 0 < 64 + Z.of_nat (length m) /\
    (64 mod 64 = 0 -> Z.of_nat (length m) mod 64 = 0 /\ (0 < length m)%nat).
Proof.
  apply (finalize_pad_message_shape 64 (b_ "nanana batman"));
    [lia | vm_compute; reflexivity].
Defined.

(** C6 -- Known vectors.  The three digests of [test], each of 40 lowercase
    hexadecimal characters. *)
Theorem known_vectors :
  sha1_hex [] = Ok (s_ "da39a3ee5e6b4b0d3255bfef95601890afd80709") /\
  sha1_hex (b_ "nanana batman") = Ok (s_ "acc505b782afe56238322ef8f583f4f3686b27ca") /\
  sha1_hex (replicate 1234 "A"%byte) = Ok (s_ "6f52ff28c54c02bf33008c855b4eec36d5bede4f") /\
  Forall (fun d => length d = 40%nat /\ forallb lower_hex d = true)
    [s_ "da39a3ee5e6b4b0d3255bfef95601890afd80709";
     s_ "acc505b782afe56238322ef8f583f4f3686b27ca";
     s_ "6f52ff28c54c02bf33008c855b4eec36d5bede4f"].
Proof.
  split; [vm_compute; reflexivity |].
  split; [vm_compute; reflexivity |].
  split; [vm_compute; reflexivity |].
  repeat constructor.
Qed.

(** C10 -- Hex round-trip.  For five 32-bit words, the string that
    [hexdigest] forms from them (each word as 8 lowercase hexadecimal
    digits, in order) has 40 characters, all lowercase hexadecimal digits
    (so none that [textwrap] treats specially), and [hexdigest_to_state]
    maps it back to the five words. *)
Theorem hexdigest_to_state_roundtrip (h0 h1 h2 h3 h4 : Z) :
  word32 h0 -> word32 h1 -> word32 h2 -> word32 h3 -> word32 h4 ->
  length (concat (map format_08x [h0; h1; h2; h3; h4])) = 40%nat /\
  forallb lower_hex (concat (map format_08x [h0; h1; h2; h3; h4])) = true /\
  plain (concat (map format_08x [h0; h1; h2; h3; h4])) = true /\
  hexdigest_to_state (concat (map format_08x [h0; h1; h2; h3; h4]))
  = Ok [h0; h1; h2; h3; h4].
Proof.
  intros H0 H1 H2 H3 H4.
  assert (Hw : Forall word32 [h0; h1; h2; h3; h4])
    by (repeat (constructor; [assumption |]); constructor).
  split; [| split; [| split]].
  - cbn [map concat]. rewrite !length_app, !format_08x_word by assumption.
    rewrite !length_hex_fixed. reflexivity.
  - now apply lower_hex_render.
  - now apply lower_hex_all_plain, lower_hex_render.
  - now apply hexdigest_to_state_render.
Qed.

Lemma hexdigest_to_state_roundtrip_witness :
  length (concat (map format_08x default_state)) = 40%nat /\
  forallb lower_hex (concat (map format_08x default_state)) = true /\
  plain (concat (map format_08x default_state)) = true /\
  hexdigest_to_state (concat (map format_08x default_state)) = Ok default_state.
Proof.
  apply (hexdigest_to_state_roundtrip
           0x67452301 0xefcdab89 0x98badcfe 0x10325476 0xc3d2e1f0);
    unfold word32; lia.
Defined.

(** ** The length-extension attack *)

(** The outcome of [sha1_lea] on a true digest: the padded data is the
    known data with its padding, and the forged digest is computed exactly
    when the digest of the prefix followed by the returned message is. *)
Lemma sha1_lea_eq (secret data appendix : list byte) (D : list ascii) :
  sha1_hex (secret ++ data) = Ok D ->
  exists P,
    finalize_pad_message (Z.of_nat (length secret)) data = Ok P /\
    P = data ++ pad_tail (Z.of_nat (length (secret ++ data))) /\
    sha1_lea D data appendix (Z.of_nat (length secret)) =
    do d <- sha1_hex (secret ++ P ++ appendix); Ok (d, P ++ appendix).
Proof.
  intros HD. apply sha1_hex_inv in HD as (Hb & v & Hv & -> & Hl & Hw).
  assert (HL : Z.of_nat (length (secret ++ data)) =
               Z.of_nat (length secret) + Z.of_nat (length data))
    by (rewrite length_app; lia).
  exists (data ++ pad_tail (Z.of_nat (length (secret ++ data)))).
  split; [rewrite HL; apply finalize_pad_message_ok; lia |].
  split; [reflexivity |].
  set (P := data ++ pad_tail (Z.of_nat (length (secret ++ data)))).
  assert (HP : finalize_pad_message (Z.of_nat (length secret)) data = Ok P)
    by (unfold P; rewrite HL; apply finalize_pad_message_ok; lia).
  assert (Hfin : finalize_loop (secret ++ P) default_state = Ok v)
    by (unfold P; rewrite app_assoc; exact Hv).
  unfold sha1_lea, render.
  rewrite hexdigest_to_state_render, rbind_Ok, HP, rbind_Ok by exact Hw.
  cbn [SHA1_init h hashed_bytes buffer].
  transitivity
    (do d <- hexdigest_value
               {| h := v;
                  hashed_bytes := Z.of_nat (length secret) + Z.of_nat (length P);
                  buffer := appendix |};
     Ok (d, P ++ appendix)).
  { unfold hexdigest_value. destruct (hexdigest _) as [[d t] | e]; reflexivity. }
  rewrite hexdigest_value_eq, sha1_hex_eq, !finalize_pad_message_eq.
  cbn [h hashed_bytes buffer].
  replace (0 + Z.of_nat (length (secret ++ P ++ appendix)))
    with (Z.of_nat (length secret) + Z.of_nat (length P)
          + Z.of_nat (length appendix))
    by (rewrite !length_app; lia).
  destruct (pack_Q _) as [l | e]; [| reflexivity].
  rewrite !rbind_Ok.
  replace ((secret ++ P ++ appendix) ++
           pad_tail (Z.of_nat (length secret) + Z.of_nat (length P)
                     + Z.of_nat (length appendix)))
    with ((secret ++ P) ++ appendix ++
          pad_tail (Z.of_nat (length secret) + Z.of_nat (length P)
                    + Z.of_nat (length appendix)))
    by (now rewrite <- !app_assoc).
  rewrite (finalize_loop_app _ _ _ _ Hfin).
  destruct (finalize_loop _ v); reflexivity.
Qed.

(** C1, as stated, fails: the message [sha1_lea] returns already starts with
    the known data (and only then the 0x80 of the padding), so appending it
    to [secret + data] hashes the data twice and the digest differs from
    the forged one, which is the digest of [secret] followed by the
    returned message. *)
Lemma sha1_lea_double_data_counterexample :
  exists D X,
    sha1_hex (b_ "secret" ++ b_ "nanana batman") = Ok D /\
    sha1_lea D (b_ "nanana batman") (b_ "appendix") 6 =
      Ok (s_ "31849809012321d97f505ffc26f214d9fef75379", X) /\
    sha1_hex (b_ "secret" ++ b_ "nanana batman" ++ X) =
      Ok (s_ "9812bafbcd1e5e3a0ba79a62c10584cbe13dfb69") /\
    sha1_hex (b_ "secret" ++ X) =
      Ok (s_ "31849809012321d97f505ffc26f214d9fef75379") /\
    s_ "9812bafbcd1e5e3a0ba79a62c10584cbe13dfb69" <>
    s_ "31849809012321d97f505ffc26f214d9fef75379" /\
    take 14 X = b_ "nanana batman" ++ [x80].
Proof.
  eexists. eexists.
  split; [vm_compute; reflexivity |].
  split; [vm_compute; reflexivity |].
  split; [vm_compute; reflexivity |].
  split; [vm_compute; reflexivity |].
  split; [discriminate | reflexivity].
Qed.

(** C1, amended -- Length-extension correctness.  For a secret prefix of
    [L] bytes, known data and the true digest [D] of prefix + data,
    [sha1_lea(D, data, appendix, L)] returns [(D', P + appendix)] where
    [P = finalize_pad_message(L, data)] is the data followed by its padding,
    and [D'] is the digest of prefix + P + appendix (the data is not
    repeated in front of [P]), for every appendix and whatever the prefix
    contains; this as long as the bit length of the forged message fits 64
    bits. *)
Theorem sha1_lea_forges (secret data appendix : list byte) (D : list ascii) :
  sha1_hex (secret ++ data) = Ok D ->
  exists P pad,
    finalize_pad_message (Z.of_nat (length secret)) data = Ok P /\
    P = data ++ pad /\
    (Z.of_nat (length (secret ++ P ++ appendix)) * 8 < 2 ^ 64 ->
     exists D',
       sha1_lea D data appendix (Z.of_nat (length secret)) = Ok (D', P ++ appendix) /\
       sha1_hex (secret ++ P ++ appendix) = Ok D').
Proof.
  intros HD.
  destruct (sha1_lea_eq secret data appendix D HD) as (P & HP & HPe & Hq).
  exists P, (pad_tail (Z.of_nat (length (secret ++ data)))).
  split; [exact HP |]. split; [exact HPe |].
  intros Hlen.
  destruct (sha1_hex_total (secret ++ P ++ appendix) Hlen) as (v & Hv & _).
  exists (render v). rewrite Hq, Hv. split; reflexivity.
Qed.

Lemma sha1_lea_forges_witness :
  exists P pad,
    finalize_pad_message (Z.of_nat (length (b_ "secret"))) (b_ "nanana batman") = Ok P /\
    P = b_ "nanana batman" ++ pad /\
    (Z.of_nat (length (b_ "secret" ++ P ++ b_ "appendix")) * 8 < 2 ^ 64 ->
     exists D',
       sha1_lea (s_ "dcbc1176641af9a812e55917db4844d3b56cc969") (b_ "nanana batman")
         (b_ "appendix") (Z.of_nat (length (b_ "secret"))) =
       Ok (D', P ++ b_ "appendix") /\
       sha1_hex (b_ "secret" ++ P ++ b_ "appendix") = Ok D').
Proof.
  apply (sha1_lea_forges (b_ "secret") (b_ "nanana batman") (b_ "appendix")).
  vm_compute. reflexivity.
Defined.

(** ** State import on arbitrary strings *)

Lemma pair_ind {A} (P : list A -> Prop) :
  P [] -> (forall a, P [a]) -> (forall a b l, P l -> P (a :: b :: l)) ->
  forall l, P l.
Proof.
  intros H0 H1 H2 l.
  enough (H : P l /\ forall a, P (a :: l)) by apply H.
  induction l as [| b l [IHl IHa]]; split; auto.
Qed.

Lemma be_int_acc (bs : list byte) (acc : Z) :
  fold_left (fun a b => a * 256 + Z_of_byte b) bs acc =
  acc * 256 ^ Z.of_nat (length bs) + be_int bs.
Proof.
  unfold be_int. revert acc. induction bs as [| b bs IH]; intros acc.
  - simpl. lia.
  - cbn [fold_left length]. rewrite IH, (IH (0 * 256 + Z_of_byte b)).
    rewrite Nat2Z.inj_succ, Z.pow_succ_r by lia. lia.
Qed.

Lemma be_int_cons (b : byte) (bs : list byte) :
  be_int (b :: bs) = Z_of_byte b * 256 ^ Z.of_nat (length bs) + be_int bs.
Proof. unfold be_int at 1. cbn [fold_left]. rewrite be_int_acc. lia. Qed.

Lemma be_int_range (bs : list byte) :
  0 <= be_int bs < 256 ^ Z.of_nat (length bs).
Proof.
  induction bs as [| b bs IH].
  - unfold be_int. simpl. lia.
  - rewrite be_int_cons. cbn [length].
    rewrite Nat2Z.inj_succ, Z.pow_succ_r by lia.
    pose proof (Z_of_byte_range b). nia.
Qed.

Lemma hex_int_acc (s : list ascii) (acc : Z) :
  fold_left (fun a c => a * 16 + default 0 (hex_val c)) s acc =
  acc * 16 ^ Z.of_nat (length s) + hex_int s.
Proof.
  unfold hex_int. revert acc. induction s as [| c s IH]; intros acc.
  - simpl. lia.
  - cbn [fold_left length]. rewrite IH, (IH (0 * 16 + default 0 (hex_val c))).
    rewrite Nat2Z.inj_succ, Z.pow_succ_r by lia. lia.
Qed.

Lemma hex_int_cons2 (c1 c2 : ascii) (s : list ascii) :
  hex_int (c1 :: c2 :: s) =
  (16 * default 0 (hex_val c1) + default 0 (hex_val c2))
  * 16 ^ Z.of_nat (length s) + hex_int s.
Proof. unfold hex_int at 1. cbn [fold_left]. rewrite hex_int_acc. lia. Qed.

Lemma hex_val_range (c : ascii) (a : Z) : hex_val c = Some a -> 0 <= a < 16.
Proof.
  unfold hex_val.
  destruct (Z.leb_spec 48 (Z.of_nat (nat_of_ascii c))),
    (Z.leb_spec (Z.of_nat (nat_of_ascii c)) 57),
    (Z.leb_spec 97 (Z.of_nat (nat_of_ascii c))),
    (Z.leb_spec (Z.of_nat (nat_of_ascii c)) 102),
    (Z.leb_spec 65 (Z.of_nat (nat_of_ascii c))),
    (Z.leb_spec (Z.of_nat (nat_of_ascii c)) 70); simpl;
    intros E; try discriminate; injection E as <-; lia.
Qed.

(** What [bytes.fromhex] returns, when it returns. *)
Lemma fromhex_inv (s : list ascii) :
  forall bs, fromhex s = Ok bs ->
  length s = (2 * length bs)%nat /\ forallb is_hex s = true /\
  be_int bs = hex_int s.
Proof.
  induction s as [| c | c1 c2 s IH] using pair_ind; intros bs H.
  - injection H as <-. repeat split.
  - discriminate.
  - cbn [fromhex] in H.
    destruct (hex_val c1) as [a |] eqn:E1; [| discriminate].
    destruct (hex_val c2) as [b |] eqn:E2; [| discriminate].
    apply rbind_ok in H as (bs' & Hbs' & H). injection H as <-.
    destruct (IH bs' Hbs') as (Hl & Hh & Hv).
    split; [cbn [length]; lia |]. split.
    + cbn [forallb]. unfold is_hex at 1 2. now rewrite E1, E2, Hh.
    + rewrite be_int_cons, hex_int_cons2, E1, E2, Z_of_byte_of_Z, Hv, Hl.
      cbn [default].
      pose proof (hex_val_range _ _ E1). pose proof (hex_val_range _ _ E2).
      rewrite Z.mod_small by lia.
      rewrite Nat2Z.inj_mul, Z.pow_mul_r by lia. reflexivity.
Qed.

(** When [bytes.fromhex] returns. *)
Lemma fromhex_ok (k : nat) :
  forall s, length s = (2 * k)%nat -> forallb is_hex s = true ->
  exists bs, fromhex s = Ok bs.
Proof.
  induction k as [| k IH]; intros s Hl Hh.
  - destruct s; [eauto | simpl in Hl; lia].
  - destruct s as [| c1 [| c2 s]]; simpl in Hl; try lia.
    cbn [forallb] in Hh. unfold is_hex at 1 2 in Hh. cbn [fromhex].
    destruct (hex_val c1); [| discriminate].
    destruct (hex_val c2); [| discriminate].
    destruct (IH s) as [bs Hbs]; [lia | exact Hh |].
    rewrite Hbs, rbind_Ok. eauto.
Qed.

Lemma unpack_hex_inv (c : list ascii) (w : Z) :
  unpack_hex c = Ok w ->
  length c = 8%nat /\ forallb is_hex c = true /\ w = hex_int c /\ word32 w.
Proof.
  unfold unpack_hex. intros H. apply rbind_ok in H as (bs & Hbs & H).
  apply fromhex_inv in Hbs as (Hl & Hh & Hv).
  unfold unpack_I in H.
  destruct (Nat.eqb_spec (length bs) 4) as [E | _]; [| discriminate].
  injection H as <-.
  split; [lia |]. split; [exact Hh |]. split; [exact Hv |].
  pose proof (be_int_range bs) as Hr. rewrite E in Hr. exact Hr.
Qed.

Lemma unpack_hex_ok (c : list ascii) :
  length c = 8%nat -> forallb is_hex c = true -> exists w, unpack_hex c = Ok w.
Proof.
  intros Hl Hh. destruct (fromhex_ok 4 c Hl Hh) as [bs Hbs].
  pose proof (fromhex_inv c bs Hbs) as (Hlb & _).
  unfold unpack_hex, unpack_I. rewrite Hbs, rbind_Ok.
  destruct (Nat.eqb_spec (length bs) 4) as [_ | N]; [eauto | lia].
Qed.

(** [bytes.fromhex] raises nothing but [ValueError]. *)
Lemma fromhex_error (s : list ascii) (e : exn) :
  fromhex s = Raise e -> e = ValueError.
Proof.
  induction s as [| c | c1 c2 s IH] using pair_ind; intros H.
  - discriminate.
  - now injection H.
  - cbn [fromhex] in H.
    destruct (hex_val c1); [| now injection H].
    destruct (hex_val c2); [| now injection H].
    destruct (fromhex s) as [bs | e']; [discriminate |].
    apply IH. exact H.
Qed.

(** The exception of [unpack_hex] on a line that is not 8 hexadecimal
    digits: [struct.error] when [bytes.fromhex] returns, which it does on an
    even number of hexadecimal digits, and the [ValueError] of
    [bytes.fromhex] otherwise. *)
Lemma unpack_hex_raise (c : list ascii) :
  ~ (length c = 8%nat /\ forallb is_hex c = true) ->
  unpack_hex c =
  Raise (if forallb is_hex c && Nat.even (length c)
         then StructError else ValueError).
Proof.
  intros Hn. unfold unpack_hex.
  destruct (fromhex c) as [bs | e] eqn:E.
  - apply fromhex_inv in E as (Hl & Hh & _).
    rewrite rbind_Ok. unfold unpack_I.
    destruct (Nat.eqb_spec (length bs) 4) as [E4 | N4].
    + exfalso. apply Hn. split; [lia | exact Hh].
    + rewrite Hh, Hl.
      replace (Nat.even (2 * length bs)) with true; [reflexivity |].
      symmetry. apply Nat.even_spec. now exists (length bs).
  - pose proof (fromhex_error c e E) as ->. cbn [rbind].
    destruct (forallb is_hex c) eqn:Hh; [| reflexivity].
    destruct (Nat.even (length c)) eqn:He; [| reflexivity].
    exfalso. apply Nat.even_spec in He as [k Hk].
    destruct (fromhex_ok k c Hk Hh) as [bs Hbs]. congruence.
Qed.

Lemma hexdigest_to_state_nil : hexdigest_to_state [] = Ok [].
Proof. unfold hexdigest_to_state. now rewrite textwrap_wrap8_nil. Qed.

Lemma hexdigest_to_state_eq (s : list ascii) :
  s <> [] -> Forall (fun c => isspace c = false) s ->
  hexdigest_to_state s =
  do w <- unpack_hex (take 8 s);
  do ws <- hexdigest_to_state (drop 8 s);
  Ok (w :: ws).
Proof.
  intros Hs Hn. unfold hexdigest_to_state.
  now rewrite textwrap_wrap8_eq by assumption.
Qed.

Lemma slice_drop8 {A} (l : list A) (j : nat) :
  slice (8 * j) (8 * j + 8) (drop 8 l) = slice (8 * S j) (8 * S j + 8) l.
Proof.
  unfold slice. rewrite take_drop_commute, drop_drop.
  f_equal; [lia |]. f_equal. lia.
Qed.

(** What [hexdigest_to_state] returns, when it returns on a string without
    whitespace: one 32-bit word for every 8 characters, each the value of
    its 8 hexadecimal digits. *)
Lemma hexdigest_to_state_inv (s : list ascii) :
  Forall (fun c => isspace c = false) s ->
  forall ws, hexdigest_to_state s = Ok ws ->
  length s = (8 * length ws)%nat /\ forallb is_hex s = true /\
  forall i, (i < length ws)%nat ->
    nth i ws 0 = hex_int (slice (8 * i) (8 * i + 8) s) /\ word32 (nth i ws 0).
Proof.
  induction s as [s IH] using list_length_ind. intros Hn ws H.
  destruct (list_eq_nil_dec s) as [-> | Hs].
  - rewrite hexdigest_to_state_nil in H. injection H as <-.
    repeat split; simpl in *; lia.
  - rewrite hexdigest_to_state_eq in H by assumption.
    apply rbind_ok in H as (w & Hw & H). apply rbind_ok in H as (ws' & Hws' & H).
    injection H as <-.
    apply unpack_hex_inv in Hw as (Hl & Hh & Hv & Hr).
    rewrite length_take in Hl.
    apply IH in Hws' as (Hl' & Hh' & Hn');
      [| rewrite length_drop; lia | now apply Forall_drop].
    rewrite length_drop in Hl'.
    split; [cbn [length]; lia |]. split.
    + rewrite <- (take_drop 8 s), forallb_app, Hh, Hh'. reflexivity.
    + intros [| j] Hj.
      * cbn [nth]. split; [exact Hv | exact Hr].
      * cbn [nth]. rewrite <- slice_drop8. apply Hn'. cbn [length] in Hj. lia.
Qed.

(** When [hexdigest_to_state] returns. *)
Lemma hexdigest_to_state_ok (k : nat) :
  forall s, length s = (8 * k)%nat -> forallb is_hex s = true ->
  exists ws, hexdigest_to_state s = Ok ws.
Proof.
  induction k as [| k IH]; intros s Hl Hh.
  - destruct s; [| simpl in Hl; lia]. rewrite hexdigest_to_state_nil. eauto.
  - rewrite hexdigest_to_state_eq
      by (try apply hex_no_space; try exact Hh; intros ->; simpl in Hl; lia).
    rewrite <- (take_drop 8 s), forallb_app in Hh.
    apply andb_true_iff in Hh as [Hh1 Hh2].
    destruct (unpack_hex_ok (take 8 s)) as [w Hw];
      [rewrite length_take; lia | exact Hh1 |].
    destruct (IH (drop 8 s)) as [ws Hws];
      [rewrite length_drop; lia | exact Hh2 |].
    rewrite Hw, rbind_Ok, Hws, rbind_Ok. eauto.
Qed.

(** The exception of [hexdigest_to_state] on a string without whitespace
    that is not a whole number of groups of 8 hexadecimal digits: the
    lines in front of the last have 8 characters, so only the last one can
    get as far as [struct.unpack] with the wrong number of bytes. *)
Lemma hexdigest_to_state_raise (s : list ascii) :
  Forall (fun c => isspace c = false) s ->
  ~ ((length s mod 8 = 0)%nat /\ forallb is_hex s = true) ->
  hexdigest_to_state s =
  Raise (if forallb is_hex s && Nat.even (length s)
         then StructError else ValueError).
Proof.
  induction s as [s IH] using list_length_ind. intros Hs Hn.
  destruct (list_eq_nil_dec s) as [-> | Hne].
  { exfalso. apply Hn. split; reflexivity. }
  rewrite hexdigest_to_state_eq by assumption.
  destruct (le_lt_dec 8 (length s)) as [Hge | Hlt].
  - destruct (forallb is_hex (take 8 s)) eqn:Hh.
    + destruct (unpack_hex_ok (take 8 s)) as [w Hw];
        [rewrite length_take; lia | exact Hh |].
      rewrite Hw, rbind_Ok.
      assert (Ed : forallb is_hex s = forallb is_hex (drop 8 s)).
      { rewrite <- (take_drop 8 s) at 1. now rewrite forallb_app, Hh. }
      assert (Ee : Nat.even (length s) = Nat.even (length (drop 8 s))).
      { rewrite length_drop.
        replace (length s) with (8 + (length s - 8))%nat at 1 by lia.
        reflexivity. }
      rewrite (IH (drop 8 s)).
      * cbn [rbind]. now rewrite Ed, Ee.
      * rewrite length_drop. lia.
      * now apply Forall_drop.
      * rewrite <- Ed, length_drop. intros [Hm Hd]. apply Hn.
        split; [| exact Hd].
        replace (length s) with (length s - 8 + 1 * 8)%nat by lia.
        now rewrite Nat.Div0.mod_add.
    + rewrite unpack_hex_raise by (rewrite Hh; intros [_ ?]; discriminate).
      rewrite Hh. cbn [andb rbind].
      rewrite <- (take_drop 8 s), forallb_app, Hh. reflexivity.
  - rewrite take_ge by lia.
    rewrite unpack_hex_raise by (intros [? _]; lia).
    reflexivity.
Qed.

(** C7, as stated, fails: 16 hexadecimal characters do not decode to five
    words, yet [hexdigest_to_state] raises nothing and returns two words;
    the empty string gives the empty state. *)
Lemma hexdigest_to_state_short_counterexample :
  hexdigest_to_state (s_ "0123456789abcdef") = Ok [0x01234567; 0x89abcdef] /\
  hexdigest_to_state (s_ "") = Ok [].
Proof. split; vm_compute; reflexivity. Qed.

(** X22 -- Whitespace is not always refused: [textwrap.wrap] drops a line
    made of whitespace, so [bytes.fromhex] never sees it.  Here with [\x1c]
    and [\xa0], which are whitespace for [str.strip()] but no word
    separators of [textwrap]: 8 digits and one [\x1c] give one word; eight
    [\x1c] give the empty state; 16 digits and eight [\xa0] give two words;
    a line that has a digit next to the whitespace is kept, and refused by
    [bytes.fromhex]. *)
Example hexdigest_to_state_whitespace_lines :
  hexdigest_to_state (s_ "01234567" ++ [ascii_of_nat 28]) = Ok [0x01234567] /\
  hexdigest_to_state (replicate 8 (ascii_of_nat 28)) = Ok [] /\
  hexdigest_to_state (s_ "0123456789abcdef" ++ replicate 8 (ascii_of_nat 160))
  = Ok [0x01234567; 0x89abcdef] /\
  hexdigest_to_state (ascii_of_nat 28 :: s_ "0123456") = Raise ValueError.
Proof. repeat split; vm_compute; reflexivity. Qed.

(** C7, amended -- State import.  Forty hexadecimal characters give a state
    of five words.  More generally every string of 8k hexadecimal
    characters is accepted, whatever k: the result has one 32-bit word for
    every 8 characters, the big-endian value of these 8 digits, in order.
    A string of hexadecimal characters whose length is no multiple of 8
    raises [struct.error] when the length is even (the last line decodes
    to 1, 2 or 3 bytes) and [ValueError] when it is odd.  A string without
    whitespace and hyphens in which some character is not a hexadecimal
    digit raises [ValueError].  So on a string without whitespace and
    hyphens the function returns exactly when the length is a multiple of 8
    and every character is a hexadecimal digit. *)
Theorem hexdigest_to_state_cases (s : list ascii) :
  (length s = 40%nat -> forallb is_hex s = true ->
   exists ws, hexdigest_to_state s = Ok ws /\ length ws = 5%nat) /\
  (forallb is_hex s = true -> (length s mod 8 = 0)%nat ->
   exists ws, hexdigest_to_state s = Ok ws /\
     length ws = (length s / 8)%nat /\
     forall i, (i < length ws)%nat ->
       nth i ws 0 = hex_int (slice (8 * i) (8 * i + 8) s) /\
       word32 (nth i ws 0)) /\
  (forallb is_hex s = true -> (length s mod 8 <> 0)%nat ->
   hexdigest_to_state s =
   Raise (if Nat.even (length s) then StructError else ValueError)) /\
  (plain s = true -> forallb is_hex s = false ->
   hexdigest_to_state s = Raise ValueError) /\
  (plain s = true ->
   ((exists ws, hexdigest_to_state s = Ok ws) <->
    (length s mod 8 = 0)%nat /\ forallb is_hex s = true)).
Proof.
  assert (Hok : forallb is_hex s = true -> (length s mod 8 = 0)%nat ->
                exists ws, hexdigest_to_state s = Ok ws /\
                  length s = (8 * length ws)%nat /\
                  forall i, (i < length ws)%nat ->
                    nth i ws 0 = hex_int (slice (8 * i) (8 * i + 8) s) /\
                    word32 (nth i ws 0)).
  { intros Hh Hl.
    destruct (hexdigest_to_state_ok (length s / 8) s) as [ws Hws];
      [pose proof (Nat.div_mod_eq (length s) 8); lia | exact Hh |].
    exists ws. split; [exact Hws |].
    apply hexdigest_to_state_inv in Hws as (Hl' & _ & Hn);
      [| now apply hex_no_space].
    split; [exact Hl' | exact Hn]. }
  split; [| split; [| split; [| split]]].
  - intros Hl Hh. destruct Hok as (ws & Hws & Hl' & _);
      [exact Hh | now rewrite Hl |].
    exists ws. split; [exact Hws | lia].
  - intros Hh Hl. destruct (Hok Hh Hl) as (ws & Hws & Hl' & Hn).
    exists ws. split; [exact Hws |]. split; [| exact Hn].
    rewrite Hl', Nat.mul_comm, Nat.div_mul by lia. reflexivity.
  - intros Hh Hl.
    rewrite hexdigest_to_state_raise;
      [now rewrite Hh | now apply hex_no_space | intros [? _]; contradiction].
  - intros Hp Hh.
    rewrite hexdigest_to_state_raise;
      [now rewrite Hh | now apply plain_no_space |
       intros [_ ?]; congruence].
  - intros Hp. split.
    + intros [ws H].
      apply hexdigest_to_state_inv in H as (Hl & Hh & _);
        [| now apply plain_no_space].
      split; [| exact Hh]. rewrite Hl, Nat.mul_comm. apply Nat.Div0.mod_mul.
    + intros [Hl Hh]. destruct (Hok Hh Hl) as (ws & Hws & _). eauto.
Qed.

Lemma hexdigest_to_state_cases_witness :
  (exists ws, hexdigest_to_state (s_ "da39a3ee5e6b4b0d3255bfef95601890afd80709") = Ok ws /\
              length ws = 5%nat) /\
  hexdigest_to_state (s_ "da39a3ee5e6b") = Raise StructError /\
  hexdigest_to_state (s_ "da39a3ee5") = Raise ValueError /\
  hexdigest_to_state (s_ "da39a3ee5e6b4b0g") = Raise ValueError.
Proof.
  split; [| split; [| split]].
  - destruct (hexdigest_to_state_cases (s_ "da39a3ee5e6b4b0d3255bfef95601890afd80709"))
      as (H & _).
    apply H; reflexivity.
  - destruct (hexdigest_to_state_cases (s_ "da39a3ee5e6b")) as (_ & _ & H & _).
    apply H; [reflexivity | vm_compute; discriminate].
  - destruct (hexdigest_to_state_cases (s_ "da39a3ee5")) as (_ & _ & H & _).
    apply H; [reflexivity | vm_compute; discriminate].
  - destruct (hexdigest_to_state_cases (s_ "da39a3ee5e6b4b0g")) as (_ & _ & _ & H & _).
    apply H; reflexivity.
Defined.

(* ================================================================== *)
(** * Further properties of the hasher *)

(** ** Outcomes of [finalize] *)

Lemma compress_star_arity (chunk : list byte) (hs : list Z) :
  length hs <> 5%nat -> compress_star chunk hs = Raise TypeError.
Proof.
  intros Hh.
  destruct hs as [| h0 [| h1 [| h2 [| h3 [| h4 [| ? ?]]]]]]; try reflexivity.
  now contradiction Hh.
Qed.

Lemma compress_star_short (chunk : list byte) (hs : list Z) :
  length hs = 5%nat -> length chunk <> 64%nat ->
  compress_star chunk hs = Raise AssertionError.
Proof.
  intros Hh Hc.
  destruct hs as [| h0 [| h1 [| h2 [| h3 [| h4 [| ? ?]]]]]]; try discriminate.
  now apply compress_bad_length.
Qed.

(** A message that is not made of whole blocks stops the loop of [finalize]
    at its last, short block. *)
Lemma finalize_loop_misaligned (m : list byte) :
  forall hs, length hs = 5%nat -> (length m mod 64 <> 0)%nat ->
  finalize_loop m hs = Raise AssertionError.
Proof.
  induction m as [m IH] using list_length_ind. intros hs Hh Hm.
  assert (Hne : m <> []) by (intros ->; now apply Hm).
  rewrite finalize_loop_eq by exact Hne.
  destruct (le_dec 64 (length m)) as [Hge | Hlt].
  - destruct (compress_star_ok (take 64 m) hs) as (hs' & Hc & Hl & _);
      [rewrite length_take; lia | exact Hh |].
    rewrite Hc, rbind_Ok. apply IH; [rewrite length_drop | exact Hl |].
    + destruct m; [contradiction | simpl; lia].
    + rewrite length_drop. intros E. apply Hm.
      replace (length m) with ((length m - 64) + 1 * 64)%nat by lia.
      now rewrite Nat.Div0.mod_add.
  - rewrite compress_star_short; [reflexivity | exact Hh |].
    rewrite length_take. lia.
Qed.

Lemma finalize_loop_arity (m : list byte) (hs : list Z) :
  m <> [] -> length hs <> 5%nat -> finalize_loop m hs = Raise TypeError.
Proof.
  intros Hm Hh. rewrite finalize_loop_eq by exact Hm.
  now rewrite compress_star_arity.
Qed.

Lemma pack_Q_overflow (v : Z) :
  ~ 0 <= v < 2 ^ 64 -> pack_Q v = Raise StructError.
Proof.
  intros Hv. unfold pack_Q.
  destruct (Z.leb_spec 0 v), (Z.ltb_spec v (2 ^ 64)); simpl; trivial; lia.
Qed.

Lemma finalize_pad_message_overflow (n : Z) (data : list byte) :
  ~ fits_Q (n + Z.of_nat (length data)) ->
  finalize_pad_message n data = Raise StructError.
Proof.
  intros Hr. rewrite finalize_pad_message_eq, pack_Q_overflow by exact Hr.
  reflexivity.
Qed.

Lemma pad_tail_misaligned (n : Z) (data : list byte) :
  n mod 64 <> 0 ->
  (length (data ++ pad_tail (n + Z.of_nat (length data))) mod 64 <> 0)%nat.
Proof.
  intros Hn E.
  pose proof (pad_tail_aligned (n + Z.of_nat (length data))) as Ha.
  apply (f_equal Z.of_nat) in E.
  rewrite Nat2Z.inj_mod, length_app, Nat2Z.inj_add in E.
  change (Z.of_nat 64) with 64 in E. change (Z.of_nat 0) with 0 in E.
  revert Ha E.
  generalize (Z.of_nat (length (pad_tail (n + Z.of_nat (length data))))).
  generalize (Z.of_nat (length data)). intros a b Ha E.
  Z.to_euclidean_division_equations. lia.
Qed.

(** X1 -- The three outcomes of [finalize] on a hasher with a state of five
    words: [struct.error] when the bit length [8 * (hashed_bytes +
    len(remainder))] does not fit 64 bits (or is negative); otherwise
    [AssertionError] when [hashed_bytes] is not a multiple of 64 (the padded
    message then ends in a short block); otherwise five 32-bit words, the
    hasher unchanged. *)
Theorem finalize_outcome (s : SHA1) (remainder : list byte) :
  length (h s) = 5%nat ->
  (~ fits_Q (hashed_bytes s + Z.of_nat (length remainder)) ->
   finalize remainder s = Raise StructError) /\
  (fits_Q (hashed_bytes s + Z.of_nat (length remainder)) ->
   hashed_bytes s mod 64 <> 0 ->
   finalize remainder s = Raise AssertionError) /\
  (fits_Q (hashed_bytes s + Z.of_nat (length remainder)) ->
   hashed_bytes s mod 64 = 0 ->
   exists v, finalize remainder s = Ok (v, s) /\
             length v = 5%nat /\ Forall word32 v).
Proof.
  intros Hh. rewrite finalize_eq. split; [| split].
  - intros Hr. now rewrite finalize_pad_message_overflow.
  - intros Hr Hn. rewrite finalize_pad_message_ok, rbind_Ok by exact Hr.
    rewrite finalize_loop_misaligned;
      [reflexivity | exact Hh | now apply pad_tail_misaligned].
  - intros Hr Hn. rewrite finalize_pad_message_ok, rbind_Ok by exact Hr.
    destruct (finalize_loop_padded (hashed_bytes s) remainder (h s) Hn Hh)
      as (v & Hv & Hl & Hw).
    rewrite Hv, rbind_Ok. eauto.
Qed.

Lemma finalize_outcome_witness :
  (~ fits_Q (6 + Z.of_nat (length (b_ "batman"))) ->
   finalize (b_ "batman") {| h := default_state; hashed_bytes := 6; buffer := [] |}
   = Raise StructError) /\
  (fits_Q (6 + Z.of_nat (length (b_ "batman"))) ->
   6 mod 64 <> 0 ->
   finalize (b_ "batman") {| h := default_state; hashed_bytes := 6; buffer := [] |}
   = Raise AssertionError) /\
  (fits_Q (6 + Z.of_nat (length (b_ "batman"))) ->
   6 mod 64 = 0 ->
   exists v,
     finalize (b_ "batman") {| h := default_state; hashed_bytes := 6; buffer := [] |}
     = Ok (v, {| h := default_state; hashed_bytes := 6; buffer := [] |}) /\
     length v = 5%nat /\ Forall word32 v).
Proof.
  apply (finalize_outcome
           {| h := default_state; hashed_bytes := 6; buffer := [] |} (b_ "batman")).
  reflexivity.
Defined.

(** ** [digest], [hexdigest] and the state behind them *)

Lemma finalize_inv (s : SHA1) (r : list byte) (v : list Z) (s' : SHA1) :
  finalize r s = Ok (v, s') ->
  s' = s /\ length v = 5%nat /\ Forall word32 v /\
  fits_Q (hashed_bytes s + Z.of_nat (length r)).
Proof.
  intros H. pose proof (finalize_frame _ _ _ _ H) as ->.
  rewrite finalize_eq in H.
  apply rbind_ok in H as (m & Hm & H). apply rbind_ok in H as (w & Hw & H).
  injection H as <-.
  apply finalize_pad_message_inv in Hm as [Hr ->].
  apply finalize_loop_inv in Hw as (Hl & Hw & _);
    [| unfold pad_tail; destruct r; discriminate].
  auto.
Qed.

Lemma hex_of_bytes_snoc (bs : list byte) (b : byte) :
  hex_of_bytes (bs ++ [b]) = hex_of_bytes bs ++ hex_fixed 2 (Z_of_byte b).
Proof.
  unfold hex_of_bytes. rewrite map_app, concat_app. cbn [map concat].
  now rewrite app_nil_r.
Qed.

Lemma hex_of_bytes_app (a b : list byte) :
  hex_of_bytes (a ++ b) = hex_of_bytes a ++ hex_of_bytes b.
Proof. unfold hex_of_bytes. now rewrite map_app, concat_app. Qed.

Lemma hex_fixed_2 (w : Z) :
  hex_fixed 2 w = [hex_digit (w / 16 mod 16); hex_digit (w mod 16)].
Proof. reflexivity. Qed.

Lemma hex_fixed_be_bytes (k : nat) (v : Z) :
  hex_fixed (2 * k) v = hex_of_bytes (be_bytes k v).
Proof.
  revert v. induction k as [| k IH]; intros v; [reflexivity |].
  replace (2 * S k)%nat with (S (S (2 * k))) by lia.
  rewrite hex_fixed_SS, IH. cbn [be_bytes].
  rewrite hex_of_bytes_snoc, Z_of_byte_of_Z, hex_fixed_2.
  assert (E1 : v mod 256 / 16 mod 16 = v / 16 mod 16)
    by (Z.to_euclidean_division_equations; lia).
  assert (E2 : v mod 256 mod 16 = v mod 16)
    by (Z.to_euclidean_division_equations; lia).
  now rewrite E1, E2.
Qed.

Lemma render_hex_of_bytes (v : list Z) :
  Forall word32 v -> render v = hex_of_bytes (concat (map (be_bytes 4) v)).
Proof.
  unfold render. induction 1 as [| w v Hw _ IH]; [reflexivity |].
  cbn [map concat]. rewrite hex_of_bytes_app, <- IH, format_08x_word by exact Hw.
  f_equal. apply (hex_fixed_be_bytes 4).
Qed.

Lemma fromhex_hex_of_bytes (d : list byte) : fromhex (hex_of_bytes d) = Ok d.
Proof.
  induction d as [| b d IH]; [reflexivity |].
  change (hex_of_bytes (b :: d))
    with (hex_digit (Z_of_byte b / 16 mod 16) :: hex_digit (Z_of_byte b mod 16)
          :: hex_of_bytes d).
  cbn [fromhex].
  rewrite !hex_val_hex_digit by (apply Z.mod_pos_bound; lia).
  rewrite IH, rbind_Ok.
  pose proof (Z_of_byte_range b) as Hb.
  assert (E : 16 * (Z_of_byte b / 16 mod 16) + Z_of_byte b mod 16 = Z_of_byte b)
    by (Z.to_euclidean_division_equations; lia).
  now rewrite E, byte_of_Z_of_byte.
Qed.

Lemma lower_hex_hex_of_bytes (d : list byte) :
  forallb lower_hex (hex_of_bytes d) = true.
Proof.
  induction d as [| b d IH]; [reflexivity |].
  change (hex_of_bytes (b :: d)) with (hex_fixed 2 (Z_of_byte b) ++ hex_of_bytes d).
  now rewrite forallb_app, lower_hex_hex_fixed, IH.
Qed.

Lemma length_hex_of_bytes (d : list byte) :
  length (hex_of_bytes d) = (2 * length d)%nat.
Proof.
  induction d as [| b d IH]; [reflexivity |].
  change (hex_of_bytes (b :: d)) with (hex_fixed 2 (Z_of_byte b) ++ hex_of_bytes d).
  rewrite length_app, length_hex_fixed, IH. simpl. lia.
Qed.

(** X2 -- [hexdigest] is the lowercase hexadecimal form of [digest], on every
    hasher: the two raise the same exception or both return, [digest] 20
    bytes and [hexdigest] their 40 hexadecimal digits, so that
    [bytes.fromhex(hexdigest())] is [digest()] (what [test] asserts on one
    message).  No sign and no ninth digit can appear, whatever integers the
    hasher was constructed with. *)
Theorem hexdigest_of_digest (s : SHA1) :
  match digest s with
  | Ok (d, s') =>
      s' = s /\ length d = 20%nat /\
      hexdigest s = Ok (hex_of_bytes d, s) /\
      fromhex (hex_of_bytes d) = Ok d /\
      length (hex_of_bytes d) = 40%nat /\
      forallb lower_hex (hex_of_bytes d) = true
  | Raise e => hexdigest s = Raise e
  end.
Proof.
  rewrite digest_eq, hexdigest_eq.
  destruct (finalize (buffer s) s) as [[v s'] | e] eqn:E; [| reflexivity].
  apply finalize_inv in E as (-> & Hl & Hw & _).
  rewrite !rbind_Ok. cbn [fst snd].
  rewrite list_comp_pack_I, rbind_Ok by exact Hw.
  pose proof (length_digest_words v Hl) as Hd.
  split; [reflexivity |]. split; [exact Hd |].
  split; [f_equal; f_equal; now apply render_hex_of_bytes |].
  split; [apply fromhex_hex_of_bytes |].
  split; [rewrite length_hex_of_bytes, Hd; reflexivity |].
  apply lower_hex_hex_of_bytes.
Qed.

(** X3 -- The digest is the chaining state.  Whenever [hexdigest] returns,
    [hexdigest_to_state] maps its result back to the five words [finalize]
    computed, so a hasher constructed from them continues where the padded
    message ended. *)
Theorem hexdigest_to_state_of_hexdigest (s : SHA1) (x : list ascii) (s' : SHA1) :
  hexdigest s = Ok (x, s') ->
  exists v,
    finalize (buffer s) s = Ok (v, s) /\ length v = 5%nat /\
    plain x = true /\
    hexdigest_to_state x = Ok v /\
    (rbind (hexdigest_to_state x) (fun st => Ok (SHA1_init st)))
    = Ok {| h := v; hashed_bytes := 0; buffer := [] |}.
Proof.
  rewrite hexdigest_eq. intros H.
  apply rbind_ok in H as ([v t] & Hf & H). cbn [fst snd] in H.
  injection H as <- <-.
  pose proof (finalize_inv _ _ _ _ Hf) as (-> & Hl & Hw & _).
  exists v. split; [exact Hf |]. split; [exact Hl |].
  split; [now apply lower_hex_all_plain, lower_hex_render |].
  rewrite hexdigest_to_state_render by exact Hw. split; reflexivity.
Qed.

Lemma hexdigest_to_state_of_hexdigest_witness :
  exists v,
    finalize (buffer SHA1_new) SHA1_new = Ok (v, SHA1_new) /\ length v = 5%nat /\
    plain (s_ "da39a3ee5e6b4b0d3255bfef95601890afd80709") = true /\
    hexdigest_to_state (s_ "da39a3ee5e6b4b0d3255bfef95601890afd80709") = Ok v /\
    (rbind (hexdigest_to_state (s_ "da39a3ee5e6b4b0d3255bfef95601890afd80709"))
       (fun st => Ok (SHA1_init st)))
    = Ok {| h := v; hashed_bytes := 0; buffer := [] |}.
Proof.
  apply (hexdigest_to_state_of_hexdigest SHA1_new
           (s_ "da39a3ee5e6b4b0d3255bfef95601890afd80709") SHA1_new).
  vm_compute. reflexivity.
Defined.

(** X4 -- [SHA1().update(m).hexdigest()] returns exactly for the messages
    whose bit length fits 64 bits (fewer than 2^61 bytes), then with 40
    lowercase hexadecimal digits; from that length on it raises
    [struct.error]: the length is not reduced modulo 2^64. *)
Theorem sha1_hex_returns (m : list byte) :
  ((exists d, sha1_hex m = Ok d) <-> Z.of_nat (length m) * 8 < 2 ^ 64) /\
  (2 ^ 64 <= Z.of_nat (length m) * 8 -> sha1_hex m = Raise StructError) /\
  (forall d, sha1_hex m = Ok d ->
     length d = 40%nat /\ forallb lower_hex d = true).
Proof.
  split; [| split].
  - split.
    + intros [d Hd]. now apply sha1_hex_inv in Hd.
    + intros Hm. destruct (sha1_hex_total m Hm) as (v & Hv & _). eauto.
  - intros Hm. rewrite sha1_hex_eq, finalize_pad_message_overflow;
      [reflexivity | unfold fits_Q; lia].
  - intros d Hd. apply sha1_hex_inv in Hd as (_ & v & _ & -> & Hl & Hw).
    split; [| now apply lower_hex_render].
    rewrite (render_hex_of_bytes v Hw), length_hex_of_bytes.
    now rewrite (length_digest_words v Hl).
Qed.

(** ** Outcomes of [sha1_lea] *)

Lemma sha1_lea_unfold (d : list ascii) (data appendix : list byte) (L : Z) :
  sha1_lea d data appendix L =
  do state <- hexdigest_to_state d;
  do P <- finalize_pad_message L data;
  do x <- hexdigest_value
            {| h := state; hashed_bytes := L + Z.of_nat (length P);
               buffer := appendix |};
  Ok (x, P ++ appendix).
Proof.
  unfold sha1_lea, hexdigest_value.
  destruct (hexdigest_to_state d) as [state | e]; [| reflexivity].
  rewrite !rbind_Ok.
  destruct (finalize_pad_message L data) as [P | e]; [| reflexivity].
  rewrite !rbind_Ok. cbn [SHA1_init h hashed_bytes buffer].
  destruct (hexdigest _) as [[x t] | e]; reflexivity.
Qed.

Lemma padded_length (L : Z) (data : list byte) :
  L + Z.of_nat (length (data ++ pad_tail (L + Z.of_nat (length data)))) =
  L + Z.of_nat (length data) + 1
  + Z.of_nat (pad_zeros (L + Z.of_nat (length data))) + 8.
Proof. rewrite length_app, length_pad_tail. lia. Qed.

Lemma padded_aligned (L : Z) (data : list byte) :
  (L + Z.of_nat (length (data ++ pad_tail (L + Z.of_nat (length data))))) mod 64 = 0.
Proof.
  pose proof (pad_tail_aligned (L + Z.of_nat (length data))) as Ha.
  rewrite length_app, Nat2Z.inj_add, Z.add_assoc. exact Ha.
Qed.

(** X5 -- On a digest string without whitespace and hyphens, [sha1_lea]
    returns exactly when the string has 40 characters, all hexadecimal
    digits, and the bit lengths of prefix + data and of
    prefix + padded data + appendix fit 64 bits; it does so for every such
    string, whether or not it is the digest of anything. *)
Theorem sha1_lea_returns (d : list ascii) (data appendix : list byte) (L : Z) :
  plain d = true ->
  ((exists r, sha1_lea d data appendix L = Ok r) <->
   length d = 40%nat /\ forallb is_hex d = true /\
   fits_Q (L + Z.of_nat (length data)) /\
   fits_Q (L + Z.of_nat (length data) + 1
           + Z.of_nat (pad_zeros (L + Z.of_nat (length data))) + 8
           + Z.of_nat (length appendix))).
Proof.
  intros Hp. rewrite sha1_lea_unfold. split.
  - intros [r H].
    apply rbind_ok in H as (st & Hst & H). apply rbind_ok in H as (P & HP & H).
    apply rbind_ok in H as (x & Hx & _).
    apply finalize_pad_message_inv in HP as [Hr ->].
    rewrite hexdigest_value_eq in Hx. cbn [h hashed_bytes buffer] in Hx.
    apply rbind_ok in Hx as (m & Hm & Hx). apply rbind_ok in Hx as (v & Hv & _).
    apply finalize_pad_message_inv in Hm as [Hr2 ->].
    rewrite finalize_loop_eq in Hv by (unfold pad_tail; destruct appendix; discriminate).
    apply rbind_ok in Hv as (hs' & Hc & _).
    apply compress_star_inv in Hc as (_ & Hl & _).
    apply hexdigest_to_state_inv in Hst as (Hd & Hh & _);
      [| now apply plain_no_space].
    rewrite padded_length in Hr2.
    split; [lia |]. split; [exact Hh |]. split; [exact Hr | exact Hr2].
  - intros (Hd & Hh & Hr & Hr2).
    destruct (hexdigest_to_state_ok 5 d Hd Hh) as [st Hst].
    pose proof (hexdigest_to_state_inv d (hex_no_space d Hh) st Hst) as (Hl & _).
    rewrite Hst, rbind_Ok, finalize_pad_message_ok, rbind_Ok by exact Hr.
    rewrite hexdigest_value_eq. cbn [h hashed_bytes buffer].
    rewrite finalize_pad_message_ok, rbind_Ok
      by (rewrite padded_length; exact Hr2).
    destruct (finalize_loop_padded
                (L + Z.of_nat (length (data ++ pad_tail (L + Z.of_nat (length data)))))
                appendix st) as (v & Hv & _);
      [apply padded_aligned | lia |].
    rewrite Hv, !rbind_Ok. eauto.
Qed.

Lemma sha1_lea_returns_witness :
  (exists r, sha1_lea (s_ "0000000000000000000000000000000000000000")
               (b_ "data") (b_ "appendix") 16 = Ok r) <->
  length (s_ "0000000000000000000000000000000000000000") = 40%nat /\
  forallb is_hex (s_ "0000000000000000000000000000000000000000") = true /\
  fits_Q (16 + Z.of_nat (length (b_ "data"))) /\
  fits_Q (16 + Z.of_nat (length (b_ "data")) + 1
          + Z.of_nat (pad_zeros (16 + Z.of_nat (length (b_ "data")))) + 8
          + Z.of_nat (length (b_ "appendix"))).
Proof.
  apply (sha1_lea_returns (s_ "0000000000000000000000000000000000000000")
           (b_ "data") (b_ "appendix") 16).
  vm_compute. reflexivity.
Defined.

(** X6 -- A digest string of 8k hexadecimal digits with k other than 5 is
    not refused by the state import: [sha1_lea] fails later, with the
    [TypeError] of the call [compress(chunk, *h)] on a state of k words. *)
Theorem sha1_lea_wrong_word_count
    (d : list ascii) (data appendix : list byte) (L : Z) (k : nat) :
  plain d = true -> length d = (8 * k)%nat -> k <> 5%nat ->
  forallb is_hex d = true ->
  fits_Q (L + Z.of_nat (length data)) ->
  fits_Q (L + Z.of_nat (length data) + 1
          + Z.of_nat (pad_zeros (L + Z.of_nat (length data))) + 8
          + Z.of_nat (length appendix)) ->
  sha1_lea d data appendix L = Raise TypeError.
Proof.
  intros _ Hd Hk Hh Hr Hr2. rewrite sha1_lea_unfold.
  destruct (hexdigest_to_state_ok k d Hd Hh) as [st Hst].
  pose proof (hexdigest_to_state_inv d (hex_no_space d Hh) st Hst) as (Hl & _).
  rewrite Hst, rbind_Ok, finalize_pad_message_ok, rbind_Ok by exact Hr.
  rewrite hexdigest_value_eq. cbn [h hashed_bytes buffer].
  rewrite finalize_pad_message_ok, rbind_Ok
    by (rewrite padded_length; exact Hr2).
  rewrite finalize_loop_arity;
    [reflexivity | unfold pad_tail; destruct appendix; discriminate | lia].
Qed.

Lemma sha1_lea_wrong_word_count_witness :
  sha1_lea (s_ "0123456789abcdef") (b_ "data") (b_ "appendix") 16 = Raise TypeError.
Proof.
  apply (sha1_lea_wrong_word_count (s_ "0123456789abcdef") (b_ "data")
           (b_ "appendix") 16 2);
    solve [reflexivity | discriminate | vm_compute; split; [discriminate | reflexivity]].
Defined.

(** ** [update] and the blocks *)

(** X7 -- Compressing early or late gives the same digest.  On a hasher with
    a state of five words, [update(data)] followed by [hexdigest()] has the
    outcome of [hexdigest()] on the same hasher with [data] merely appended
    to its buffer; this is why [sha1_lea] may assign the appendix to
    [session.buffer] instead of calling [update]. *)
Theorem hexdigest_update_or_buffer (s : SHA1) (data : list byte) :
  length (h s) = 5%nat ->
  rbind (bind (update data) (fun _ => hexdigest) s) (fun r => Ok (fst r)) =
  rbind (hexdigest {| h := h s; hashed_bytes := hashed_bytes s;
                      buffer := buffer s ++ data |})
        (fun r => Ok (fst r)).
Proof.
  intros Hh. unfold bind.
  destruct (update_total data s Hh) as (s' & Hs' & _). rewrite Hs'.
  rewrite update_eq in Hs'.
  exact (hexdigest_absorbed _ _ Hs').
Qed.

Lemma hexdigest_update_or_buffer_witness :
  rbind (bind (update (replicate 100 "A"%byte)) (fun _ => hexdigest) SHA1_new)
        (fun r => Ok (fst r)) =
  rbind (hexdigest {| h := h SHA1_new; hashed_bytes := hashed_bytes SHA1_new;
                      buffer := buffer SHA1_new ++ replicate 100 "A"%byte |})
        (fun r => Ok (fst r)).
Proof.
  apply (hexdigest_update_or_buffer SHA1_new (replicate 100 "A"%byte)).
  reflexivity.
Defined.

(** X8 -- What [update] has done to a fresh hasher: it has compressed the
    whole 64-byte blocks of the data, in order and from the initial state
    (the state the loop of [finalize] would reach on them), counted their
    bytes, and kept the rest, fewer than 64 bytes, in the buffer. *)
Theorem update_compresses_blocks (state : list Z) (m : list byte) :
  length state = 5%nat ->
  exists hs,
    finalize_loop (take (64 * (length m / 64)) m) state = Ok hs /\
    update m (SHA1_init state) =
    Ok (tt, {| h := hs;
               hashed_bytes := 64 * Z.of_nat (length m / 64);
               buffer := drop (64 * (length m / 64)) m |}) /\
    (length (drop (64 * (length m / 64)) m) < 64)%nat.
Proof.
  intros Hst.
  pose proof (div64_bound (length m)) as Hk.
  destruct (finalize_loop_total (length m / 64) (take (64 * (length m / 64)) m) state)
    as (hs & Hhs & _); [rewrite length_take; lia | exact Hst |].
  assert (Hl : (length (drop (64 * (length m / 64)) m) < 64)%nat).
  { rewrite length_drop. pose proof (Nat.div_mod_eq (length m) 64).
    pose proof (Nat.mod_upper_bound (length m) 64). lia. }
  exists hs. split; [exact Hhs |]. split; [| exact Hl].
  rewrite update_eq. cbn [with_buffer SHA1_init h hashed_bytes buffer app].
  transitivity
    (update_loop {| h := state; hashed_bytes := 0;
                    buffer := take (64 * (length m / 64)) m
                              ++ drop (64 * (length m / 64)) m |});
    [now rewrite take_drop |].
  rewrite (update_loop_finalized _ _ _ _ _ Hhs), update_loop_eq.
  cbn [buffer].
  destruct (le_dec 64 (length (drop (64 * (length m / 64)) m))) as [Hge | _];
    [lia |].
  rewrite length_take. do 3 f_equal. lia.
Qed.

Lemma update_compresses_blocks_witness :
  exists hs,
    finalize_loop (take (64 * (length (replicate 100 "A"%byte) / 64))
                        (replicate 100 "A"%byte)) default_state = Ok hs /\
    update (replicate 100 "A"%byte) (SHA1_init default_state) =
    Ok (tt, {| h := hs;
               hashed_bytes := 64 * Z.of_nat (length (replicate 100 "A"%byte) / 64);
               buffer := drop (64 * (length (replicate 100 "A"%byte) / 64))
                              (replicate 100 "A"%byte) |}) /\
    (length (drop (64 * (length (replicate 100 "A"%byte) / 64))
                  (replicate 100 "A"%byte)) < 64)%nat.
Proof.
  apply (update_compresses_blocks default_state (replicate 100 "A"%byte)).
  reflexivity.
Defined.

(** X9 -- The constructor accepts a state of any number of words; with other
    than five the mistake shows at the first compression only: [update]
    returns while fewer than 64 bytes are buffered and raises [TypeError]
    as soon as a block is complete, and [digest] and [hexdigest], which
    always compress a block, raise [TypeError]. *)
Theorem update_wrong_word_count (s : SHA1) (data : list byte) :
  length (h s) <> 5%nat ->
  ((length (buffer s) + length data < 64)%nat ->
   update data s =
   Ok (tt, {| h := h s; hashed_bytes := hashed_bytes s;
              buffer := buffer s ++ data |})) /\
  ((64 <= length (buffer s) + length data)%nat ->
   update data s = Raise TypeError) /\
  (fits_Q (hashed_bytes s + Z.of_nat (length (buffer s))) ->
   digest s = Raise TypeError /\ hexdigest s = Raise TypeError).
Proof.
  intros Hh. split; [| split].
  - intros Hl. rewrite update_eq, update_loop_eq. cbn [with_buffer buffer].
    destruct (le_dec 64 (length (buffer s ++ data))) as [Hge | _];
      [rewrite length_app in Hge; lia | reflexivity].
  - intros Hl. rewrite update_eq, update_loop_eq. cbn [with_buffer buffer h].
    destruct (le_dec 64 (length (buffer s ++ data))) as [_ | Hlt];
      [| rewrite length_app in Hlt; lia].
    now rewrite compress_star_arity.
  - intros Hr.
    assert (Hf : finalize (buffer s) s = Raise TypeError).
    { rewrite finalize_eq, finalize_pad_message_ok, rbind_Ok by exact Hr.
      rewrite finalize_loop_arity;
        [reflexivity | unfold pad_tail; destruct (buffer s); discriminate
        | exact Hh]. }
    rewrite digest_eq, hexdigest_eq, Hf. split; reflexivity.
Qed.

Lemma update_wrong_word_count_witness :
  ((length (buffer (SHA1_init [1; 2; 3]%Z)) + length (b_ "nanana") < 64)%nat ->
   update (b_ "nanana") (SHA1_init [1; 2; 3]%Z) =
   Ok (tt, {| h := h (SHA1_init [1; 2; 3]%Z);
              hashed_bytes := hashed_bytes (SHA1_init [1; 2; 3]%Z);
              buffer := buffer (SHA1_init [1; 2; 3]%Z) ++ b_ "nanana" |})) /\
  ((64 <= length (buffer (SHA1_init [1; 2; 3]%Z)) + length (b_ "nanana"))%nat ->
   update (b_ "nanana") (SHA1_init [1; 2; 3]%Z) = Raise TypeError) /\
  (fits_Q (hashed_bytes (SHA1_init [1; 2; 3]%Z)
           + Z.of_nat (length (buffer (SHA1_init [1; 2; 3]%Z)))) ->
   digest (SHA1_init [1; 2; 3]%Z) = Raise TypeError /\
   hexdigest (SHA1_init [1; 2; 3]%Z) = Raise TypeError).
Proof.
  apply (update_wrong_word_count (SHA1_init [1; 2; 3]%Z) (b_ "nanana")).
  discriminate.
Defined.

(* ================================================================== *)
(** * The one-time pad ([classic/otp.py]) *)

Lemma lxor_byte_range (a b : Z) :
  0 <= a < 256 -> 0 <= b < 256 -> 0 <= Z.lxor a b < 256.
Proof.
  intros Ha Hb.
  assert (Hn : 0 <= Z.lxor a b) by (apply Z.lxor_nonneg; lia).
  split; [exact Hn |].
  destruct (Z.eq_dec (Z.lxor a b) 0) as [-> | Hz]; [lia |].
  change 256 with (2 ^ 8). apply Z.log2_lt_pow2; [lia |].
  pose proof (Z.log2_lxor a b ltac:(lia) ltac:(lia)) as Hl.
  assert (Z.log2 a < 8).
  { destruct (Z.eq_dec a 0) as [-> | ?]; [simpl; lia |].
    apply Z.log2_lt_pow2; lia. }
  assert (Z.log2 b < 8).
  { destruct (Z.eq_dec b 0) as [-> | ?]; [simpl; lia |].
    apply Z.log2_lt_pow2; lia. }
  lia.
Qed.

Lemma Z_of_byte_xor_byte (x y : byte) :
  Z_of_byte (xor_byte x y) = Z.lxor (Z_of_byte x) (Z_of_byte y).
Proof.
  unfold xor_byte. rewrite Z_of_byte_of_Z. apply Z.mod_small.
  apply lxor_byte_range; apply Z_of_byte_range.
Qed.

Lemma Z_of_byte_inj (x y : byte) : Z_of_byte x = Z_of_byte y -> x = y.
Proof.
  intros E. rewrite <- (byte_of_Z_of_byte x), <- (byte_of_Z_of_byte y).
  now rewrite E.
Qed.

Lemma xor_byte_involutive (x y : byte) : xor_byte (xor_byte x y) y = x.
Proof.
  apply Z_of_byte_inj. rewrite !Z_of_byte_xor_byte.
  now rewrite Z.lxor_assoc, Z.lxor_nilpotent, Z.lxor_0_r.
Qed.

Lemma xor_byte_comm (x y : byte) : xor_byte x y = xor_byte y x.
Proof. unfold xor_byte. now rewrite Z.lxor_comm. Qed.

Lemma zip_bytes_nil_l (b : list byte) : zip_bytes [] b = [].
Proof. reflexivity. Qed.

Lemma zip_bytes_nil_r (a : list byte) : zip_bytes a [] = [].
Proof. unfold zip_bytes. now destruct a. Qed.

Lemma zip_bytes_cons (x y : byte) (a b : list byte) :
  zip_bytes (x :: a) (y :: b) = (Z_of_byte x, Z_of_byte y) :: zip_bytes a b.
Proof. reflexivity. Qed.

Lemma otp_nil_l (b : list byte) (comb : Z -> Z -> Z) : otp [] b comb = Ok [].
Proof. reflexivity. Qed.

Lemma otp_nil_r (a : list byte) (comb : Z -> Z -> Z) : otp a [] comb = Ok [].
Proof. unfold otp. now rewrite zip_bytes_nil_r. Qed.

Lemma otp_cons (x y : byte) (a b : list byte) (comb : Z -> Z -> Z) :
  otp (x :: a) (y :: b) comb =
  if (0 <=? comb (Z_of_byte x) (Z_of_byte y)) && (comb (Z_of_byte x) (Z_of_byte y) <? 256)
  then do c <- otp a b comb; Ok (byte_of_Z (comb (Z_of_byte x) (Z_of_byte y)) :: c)
  else Raise ValueError.
Proof.
  unfold otp, bytes_of_ints. rewrite zip_bytes_cons. cbn [map list_comp fst snd].
  destruct ((0 <=? _) && (_ <? 256)); reflexivity.
Qed.

Lemma otp_default_eq (a : list byte) :
  forall k, otp a k comb_default = Ok (zip_with xor_byte a k).
Proof.
  induction a as [| x a IH]; intros k; [reflexivity |].
  destruct k as [| y k]; [apply otp_nil_r |].
  - rewrite otp_cons, IH. unfold comb_default.
    pose proof (lxor_byte_range _ _ (Z_of_byte_range x) (Z_of_byte_range y)) as Hr.
    destruct (Z.leb_spec 0 (Z.lxor (Z_of_byte x) (Z_of_byte y))),
      (Z.ltb_spec (Z.lxor (Z_of_byte x) (Z_of_byte y)) 256); try lia.
    reflexivity.
Qed.

Lemma zip_with_xor_involutive (a : list byte) :
  forall k, zip_with xor_byte (zip_with xor_byte a k) k = take (length k) a.
Proof.
  induction a as [| x a IH]; intros [| y k]; try reflexivity.
  cbn [zip_with length take]. now rewrite xor_byte_involutive, IH.
Qed.

Lemma zip_with_xor_comm (a : list byte) :
  forall k, zip_with xor_byte a k = zip_with xor_byte k a.
Proof.
  induction a as [| x a IH]; intros [| y k]; try reflexivity.
  cbn [zip_with]. now rewrite xor_byte_comm, IH.
Qed.

(** X10 -- The pad with the default exclusive or.  [otp(a, k)] never raises
    and returns as many bytes as the shorter argument has; it is symmetric
    in its arguments; applying the same key again gives back the first
    [len(k)] bytes of [a], so the whole message when the key is at least
    as long, and a silently truncated one when it is shorter. *)
Theorem otp_default_round_trip (a k : list byte) :
  exists c,
    otp a k comb_default = Ok c /\
    length c = Nat.min (length a) (length k) /\
    otp k a comb_default = Ok c /\
    otp c k comb_default = Ok (take (length k) a) /\
    ((length a <= length k)%nat -> otp c k comb_default = Ok a).
Proof.
  exists (zip_with xor_byte a k).
  split; [apply otp_default_eq |].
  split; [apply length_zip_with |].
  split; [rewrite otp_default_eq; f_equal; apply zip_with_xor_comm |].
  rewrite otp_default_eq, zip_with_xor_involutive.
  split; [reflexivity |].
  intros Hl. now rewrite take_ge by exact Hl.
Qed.

Lemma otp_default_round_trip_witness :
  exists c,
    otp (b_ "attack at dawn") (b_ "0123456789abcdef") comb_default = Ok c /\
    length c = Nat.min (length (b_ "attack at dawn")) (length (b_ "0123456789abcdef")) /\
    otp (b_ "0123456789abcdef") (b_ "attack at dawn") comb_default = Ok c /\
    otp c (b_ "0123456789abcdef") comb_default
    = Ok (take (length (b_ "0123456789abcdef")) (b_ "attack at dawn")) /\
    ((length (b_ "attack at dawn") <= length (b_ "0123456789abcdef"))%nat ->
     otp c (b_ "0123456789abcdef") comb_default = Ok (b_ "attack at dawn")).
Proof.
  exact (otp_default_round_trip (b_ "attack at dawn") (b_ "0123456789abcdef")).
Defined.

(** X11 -- The pad with a combining function of the caller.  [otp] returns
    exactly when every combined pair of the zipped arguments is in
    [range(256)], and then these values, one byte each; otherwise the
    [bytes] constructor raises [ValueError]. *)
Theorem otp_returns_iff (a b : list byte) (comb : Z -> Z -> Z) :
  ((exists c, otp a b comb = Ok c) <->
   Forall (fun xy => in_byte_range xy comb) (zip_bytes a b)) /\
  (forall e, otp a b comb = Raise e -> e = ValueError) /\
  (forall c, otp a b comb = Ok c ->
     length c = Nat.min (length a) (length b) /\
     map Z_of_byte c = map (fun xy => comb (fst xy) (snd xy)) (zip_bytes a b)).
Proof.
  revert b. induction a as [| x a IH]; intros [| y b].
  1-3: rewrite ?otp_nil_l, ?otp_nil_r, ?zip_bytes_nil_r;
    (split; [split; [constructor | eauto] |]);
    (split; [discriminate |]); intros c [= <-]; split; reflexivity || (simpl; lia).
  destruct (IH b) as (IH1 & IH2 & IH3).
  rewrite otp_cons, zip_bytes_cons.
  destruct (Z.leb_spec 0 (comb (Z_of_byte x) (Z_of_byte y))) as [H0 | H0];
    [destruct (Z.ltb_spec (comb (Z_of_byte x) (Z_of_byte y)) 256) as [H1 | H1] |];
    cbn [andb].
  - destruct (otp a b comb) as [c | e] eqn:E.
    + rewrite rbind_Ok. split; [| split].
      * split; [| eauto]. intros _. constructor; [split; assumption |].
        apply IH1. eauto.
      * discriminate.
      * intros c' [= <-]. destruct (IH3 c eq_refl) as [Hl Hm].
        cbn [length map fst snd]. rewrite Z_of_byte_of_Z, Z.mod_small by lia.
        split; [lia | now rewrite Hm].
    + cbn [rbind]. split; [| split].
      * split; [intros [c Hc]; discriminate |].
        intros H. inversion H as [| ? ? _ Ht]; subst.
        apply IH1 in Ht as [c Hc]. discriminate.
      * intros e' [= <-]. now apply IH2.
      * discriminate.
  - split; [| split].
    + split; [intros [c Hc]; discriminate |].
      intros H. inversion H as [| ? ? Hh _]; subst.
      unfold in_byte_range in Hh. cbn [fst snd] in Hh. lia.
    + now intros e [= <-].
    + discriminate.
  - split; [| split].
    + split; [intros [c Hc]; discriminate |].
      intros H. inversion H as [| ? ? Hh _]; subst.
      unfold in_byte_range in Hh. cbn [fst snd] in Hh. lia.
    + now intros e [= <-].
    + discriminate.
Qed.

(* ================================================================== *)
(** * The Hamming distance ([tools/hamming.py]) *)

Lemma py_sum_acc (l : list Z) (acc : Z) : fold_left Z.add l acc = acc + py_sum l.
Proof.
  revert acc. induction l as [| x l IH]; intros acc.
  - unfold py_sum. simpl. lia.
  - change (py_sum (x :: l)) with (fold_left Z.add l (0 + x)).
    cbn [fold_left]. rewrite IH, (IH (0 + x)). lia.
Qed.

Lemma py_sum_cons (x : Z) (l : list Z) : py_sum (x :: l) = x + py_sum l.
Proof.
  change (py_sum (x :: l)) with (fold_left Z.add l (0 + x)).
  rewrite py_sum_acc. lia.
Qed.

Lemma hamming_nil_l (b : list byte) : hamming [] b = 0.
Proof. reflexivity. Qed.

Lemma hamming_nil_r (a : list byte) : hamming a [] = 0.
Proof. unfold hamming. now rewrite zip_bytes_nil_r. Qed.

Lemma hamming_cons (x y : byte) (a b : list byte) :
  hamming (x :: a) (y :: b) = ones_xor (Z_of_byte x, Z_of_byte y) + hamming a b.
Proof. unfold hamming. rewrite zip_bytes_cons. cbn [map]. apply py_sum_cons. Qed.

(** On a byte, counting the character 1 in [bin] counts the bits set. *)
Lemma count_ones_bits8 (v : Z) :
  0 <= v < 256 -> str_count "1"%char (bin v) = bits8 v.
Proof.
  intros Hv.
  assert (H : forallb (fun n => str_count "1"%char (bin (Z.of_nat n))
                                =? bits8 (Z.of_nat n)) (seq 0 256) = true)
    by (vm_compute; reflexivity).
  rewrite forallb_forall in H.
  assert (Hin : In (Z.to_nat v) (seq 0 256)) by (apply in_seq; lia).
  apply H in Hin. rewrite Z2Nat.id in Hin by lia.
  now apply Z.eqb_eq.
Qed.

Lemma bits8_unfold (v : Z) :
  bits8 v =
  Z.b2z (Z.testbit v 0) + (Z.b2z (Z.testbit v 1) + (Z.b2z (Z.testbit v 2) +
  (Z.b2z (Z.testbit v 3) + (Z.b2z (Z.testbit v 4) + (Z.b2z (Z.testbit v 5) +
  (Z.b2z (Z.testbit v 6) + (Z.b2z (Z.testbit v 7) + 0))))))).
Proof. reflexivity. Qed.

Lemma ones_xor_bits8 (x y : byte) :
  ones_xor (Z_of_byte x, Z_of_byte y) = bits8 (Z.lxor (Z_of_byte x) (Z_of_byte y)).
Proof.
  unfold ones_xor. cbn [fst snd]. apply count_ones_bits8.
  apply lxor_byte_range; apply Z_of_byte_range.
Qed.

Lemma b2z_range (b : bool) : 0 <= Z.b2z b <= 1.
Proof. destruct b; simpl; lia. Qed.

Lemma bits8_range (v : Z) : 0 <= bits8 v <= 8.
Proof.
  rewrite bits8_unfold.
  pose proof (b2z_range (Z.testbit v 0)). pose proof (b2z_range (Z.testbit v 1)).
  pose proof (b2z_range (Z.testbit v 2)). pose proof (b2z_range (Z.testbit v 3)).
  pose proof (b2z_range (Z.testbit v 4)). pose proof (b2z_range (Z.testbit v 5)).
  pose proof (b2z_range (Z.testbit v 6)). pose proof (b2z_range (Z.testbit v 7)).
  lia.
Qed.

Lemma b2z_xorb_triangle (p q r : bool) :
  Z.b2z (xorb p r) <= Z.b2z (xorb p q) + Z.b2z (xorb q r).
Proof. destruct p, q, r; simpl; lia. Qed.

Lemma bits8_xor_triangle (x y z : Z) :
  bits8 (Z.lxor x z) <= bits8 (Z.lxor x y) + bits8 (Z.lxor y z).
Proof.
  rewrite !bits8_unfold, !Z.lxor_spec.
  pose proof (b2z_xorb_triangle (Z.testbit x 0) (Z.testbit y 0) (Z.testbit z 0)).
  pose proof (b2z_xorb_triangle (Z.testbit x 1) (Z.testbit y 1) (Z.testbit z 1)).
  pose proof (b2z_xorb_triangle (Z.testbit x 2) (Z.testbit y 2) (Z.testbit z 2)).
  pose proof (b2z_xorb_triangle (Z.testbit x 3) (Z.testbit y 3) (Z.testbit z 3)).
  pose proof (b2z_xorb_triangle (Z.testbit x 4) (Z.testbit y 4) (Z.testbit z 4)).
  pose proof (b2z_xorb_triangle (Z.testbit x 5) (Z.testbit y 5) (Z.testbit z 5)).
  pose proof (b2z_xorb_triangle (Z.testbit x 6) (Z.testbit y 6) (Z.testbit z 6)).
  pose proof (b2z_xorb_triangle (Z.testbit x 7) (Z.testbit y 7) (Z.testbit z 7)).
  lia.
Qed.

Lemma count_ones_zero (v : Z) :
  0 <= v < 256 -> str_count "1"%char (bin v) = 0 -> v = 0.
Proof.
  intros Hv.
  assert (H : forallb (fun n => negb (str_count "1"%char (bin (Z.of_nat n)) =? 0)
                                || (Z.of_nat n =? 0)) (seq 0 256) = true)
    by (vm_compute; reflexivity).
  rewrite forallb_forall in H.
  assert (Hin : In (Z.to_nat v) (seq 0 256)) by (apply in_seq; lia).
  apply H in Hin. rewrite Z2Nat.id in Hin by lia.
  intros E. rewrite E in Hin. change (negb (0 =? 0)) with false in Hin.
  cbn [orb] in Hin. now apply Z.eqb_eq.
Qed.

Lemma ones_xor_zero (x y : byte) :
  ones_xor (Z_of_byte x, Z_of_byte y) = 0 -> x = y.
Proof.
  unfold ones_xor. cbn [fst snd]. intros E.
  apply count_ones_zero in E;
    [| apply lxor_byte_range; apply Z_of_byte_range].
  apply Z_of_byte_inj. now apply Z.lxor_eq.
Qed.

Lemma ones_xor_range (x y : byte) :
  0 <= ones_xor (Z_of_byte x, Z_of_byte y) <= 8.
Proof. rewrite ones_xor_bits8. apply bits8_range. Qed.

Lemma hamming_range (a : list byte) :
  forall b, 0 <= hamming a b <= 8 * Z.of_nat (Nat.min (length a) (length b)).
Proof.
  induction a as [| x a IH]; intros b; [rewrite hamming_nil_l; simpl; lia |].
  destruct b as [| y b]; [rewrite hamming_nil_r; simpl; lia |].
  rewrite hamming_cons. pose proof (ones_xor_range x y). pose proof (IH b).
  cbn [length Nat.min]. lia.
Qed.

Lemma hamming_sym (a : list byte) : forall b, hamming a b = hamming b a.
Proof.
  induction a as [| x a IH]; intros b; [now rewrite hamming_nil_l, hamming_nil_r |].
  destruct b as [| y b]; [now rewrite hamming_nil_l, hamming_nil_r |].
  rewrite !hamming_cons, IH. f_equal. unfold ones_xor. cbn [fst snd].
  now rewrite Z.lxor_comm.
Qed.

Lemma hamming_refl (a : list byte) : hamming a a = 0.
Proof.
  induction a as [| x a IH]; [reflexivity |].
  rewrite hamming_cons, IH. unfold ones_xor. cbn [fst snd].
  now rewrite Z.lxor_nilpotent.
Qed.

Lemma hamming_zero (a : list byte) :
  forall b, length a = length b -> hamming a b = 0 -> a = b.
Proof.
  induction a as [| x a IH]; intros [| y b] Hl H; try discriminate; [reflexivity |].
  rewrite hamming_cons in H.
  pose proof (ones_xor_range x y). pose proof (hamming_range a b).
  f_equal; [apply ones_xor_zero; lia | apply IH; [now injection Hl | lia]].
Qed.

Lemma hamming_triangle (a : list byte) :
  forall b c, length a = length b -> length b = length c ->
  hamming a c <= hamming a b + hamming b c.
Proof.
  induction a as [| x a IH]; intros [| y b] [| z c] Hab Hbc;
    try discriminate Hab; try discriminate Hbc.
  - rewrite !hamming_nil_l. lia.
  - rewrite !hamming_cons, !ones_xor_bits8.
    pose proof (bits8_xor_triangle (Z_of_byte x) (Z_of_byte y) (Z_of_byte z)).
    pose proof (IH b c ltac:(now injection Hab) ltac:(now injection Hbc)).
    lia.
Qed.

(** X12 -- On byte strings of one length [hamming] is a metric: it is zero
    exactly between equal strings, symmetric, satisfies the triangle
    inequality, and lies between 0 and 8 times the length. *)
Theorem hamming_metric (a b c : list byte) :
  length a = length b -> length b = length c ->
  hamming a a = 0 /\
  (hamming a b = 0 -> a = b) /\
  hamming a b = hamming b a /\
  hamming a c <= hamming a b + hamming b c /\
  0 <= hamming a b <= 8 * Z.of_nat (length a).
Proof.
  intros Hab Hbc.
  split; [apply hamming_refl |].
  split; [now apply hamming_zero |].
  split; [apply hamming_sym |].
  split; [now apply hamming_triangle |].
  pose proof (hamming_range a b) as Hr. rewrite <- Hab, Nat.min_id in Hr.
  exact Hr.
Qed.

Lemma hamming_metric_witness :
  hamming (b_ "this is a test") (b_ "this is a test") = 0 /\
  (hamming (b_ "this is a test") (b_ "wokka wokka!!!") = 0 ->
   b_ "this is a test" = b_ "wokka wokka!!!") /\
  hamming (b_ "this is a test") (b_ "wokka wokka!!!")
  = hamming (b_ "wokka wokka!!!") (b_ "this is a test") /\
  hamming (b_ "this is a test") (b_ "crypto is fun!")
  <= hamming (b_ "this is a test") (b_ "wokka wokka!!!")
     + hamming (b_ "wokka wokka!!!") (b_ "crypto is fun!") /\
  0 <= hamming (b_ "this is a test") (b_ "wokka wokka!!!")
    <= 8 * Z.of_nat (length (b_ "this is a test")).
Proof.
  apply (hamming_metric (b_ "this is a test") (b_ "wokka wokka!!!")
           (b_ "crypto is fun!")); reflexivity.
Defined.

Lemma hamming_take (a : list byte) :
  forall b n, (Nat.min (length a) (length b) <= n)%nat ->
  hamming (take n a) (take n b) = hamming a b.
Proof.
  induction a as [| x a IH]; intros b n Hn.
  - rewrite take_nil. now rewrite !hamming_nil_l.
  - destruct b as [| y b]; [rewrite take_nil; now rewrite !hamming_nil_r |].
    destruct n as [| n]; [simpl in Hn; lia |].
    cbn [take]. rewrite !hamming_cons, IH; [reflexivity |].
    cbn [length Nat.min] in Hn. lia.
Qed.

(** X13 -- Between strings of different lengths [hamming] raises nothing: it
    compares the common length only, the extra bytes of the longer string
    being dropped by [zip].  So a string is at distance 0 from each of its
    extensions. *)
Theorem hamming_unequal_lengths (a b x : list byte) :
  hamming a b =
  hamming (take (Nat.min (length a) (length b)) a)
          (take (Nat.min (length a) (length b)) b) /\
  hamming a (a ++ x) = 0 /\ hamming (a ++ x) a = 0.
Proof.
  split; [symmetry; now apply hamming_take |].
  assert (H : hamming a (a ++ x) = 0).
  { rewrite <- (hamming_take a (a ++ x) (length a))
      by (rewrite length_app; lia).
    now rewrite take_app_length, firstn_all, hamming_refl. }
  split; [exact H | now rewrite hamming_sym].
Qed.

(* ================================================================== *)
(** * Messages and index lists ([tools/convert.py]) *)

Lemma index_inv (A : list ascii) (c : ascii) :
  forall i, index A c = Ok i ->
  exists j : nat, i = Z.of_nat j /\ A !! j = Some c.
Proof.
  induction A as [| a A IH]; intros i H; [discriminate |].
  cbn [index] in H. destruct (ascii_dec a c) as [-> | Hne].
  - injection H as <-. exists 0%nat. split; reflexivity.
  - apply rbind_ok in H as (i' & Hi' & H). injection H as <-.
    destruct (IH i' Hi') as (j & -> & Hj).
    exists (S j). split; [lia | exact Hj].
Qed.

Lemma index_in (A : list ascii) (c : ascii) :
  In c A -> exists i, index A c = Ok i.
Proof.
  induction A as [| a A IH]; intros Hin; [contradiction |].
  cbn [index]. destruct (ascii_dec a c) as [-> | Hne]; [eauto |].
  destruct Hin as [-> | Hin]; [contradiction |].
  destruct (IH Hin) as [i Hi]. rewrite Hi, rbind_Ok. eauto.
Qed.

Lemma index_not_in (A : list ascii) (c : ascii) :
  ~ In c A -> index A c = Raise ValueError.
Proof.
  induction A as [| a A IH]; intros Hin; [reflexivity |].
  cbn [index]. destruct (ascii_dec a c) as [-> | Hne].
  - exfalso. apply Hin. now left.
  - rewrite IH; [reflexivity |]. intros H. apply Hin. now right.
Qed.

Lemma lookup_In {X} (l : list X) (j : nat) (x : X) : l !! j = Some x -> In x l.
Proof.
  revert j. induction l as [| a l IH]; intros [| j] H; try discriminate.
  - injection H as <-. now left.
  - right. exact (IH j H).
Qed.

Lemma index_ok_in (A : list ascii) (c : ascii) (i : Z) :
  index A c = Ok i -> In c A.
Proof.
  intros H. apply index_inv in H as (j & _ & Hj). exact (lookup_In _ _ _ Hj).
Qed.

(** In an alphabet without repetition each character is found where it
    stands. *)
Lemma index_lookup (A : list ascii) :
  NoDup A -> forall (j : nat) (c : ascii),
  A !! j = Some c -> index A c = Ok (Z.of_nat j).
Proof.
  induction 1 as [| a A Ha _ IH]; intros [| j] c H; try discriminate.
  - injection H as <-. cbn [index].
    destruct (ascii_dec a a); [reflexivity | contradiction].
  - change (A !! j = Some c) in H. cbn [index].
    destruct (ascii_dec a c) as [-> | Hne].
    + exfalso. apply Ha. apply list_elem_of_In. exact (lookup_In _ _ _ H).
    + rewrite (IH j c H), rbind_Ok. f_equal. lia.
Qed.

Lemma getitem_Z_nat {X} (l : list X) (j : nat) (x : X) :
  l !! j = Some x -> getitem_Z l (Z.of_nat j) = Ok x.
Proof.
  intros H. pose proof (lookup_lt_Some _ _ _ H) as Hj.
  unfold getitem_Z.
  destruct (Z.ltb_spec (Z.of_nat j) 0) as [? | _]; [lia |].
  destruct (Z.leb_spec 0 (Z.of_nat j)); [| lia].
  destruct (Z.ltb_spec (Z.of_nat j) (Z.of_nat (length l))); [| lia].
  cbn [andb]. now rewrite Nat2Z.id, H.
Qed.

(** What [l[i]] returns, when it returns. *)
Lemma getitem_Z_inv {X} (l : list X) (i : Z) (x : X) :
  getitem_Z l i = Ok x ->
  - Z.of_nat (length l) <= i < Z.of_nat (length l) /\
  l !! Z.to_nat (i mod Z.of_nat (length l)) = Some x.
Proof.
  unfold getitem_Z. intros H.
  destruct (Z.ltb_spec i 0) as [Hneg | Hpos].
  - destruct (Z.leb_spec 0 (i + Z.of_nat (length l))); [| discriminate].
    destruct (Z.ltb_spec (i + Z.of_nat (length l)) (Z.of_nat (length l)));
      [| discriminate].
    cbn [andb] in H.
    destruct (l !! Z.to_nat (i + Z.of_nat (length l))) as [y |] eqn:E;
      [| discriminate].
    injection H as <-. split; [lia |].
    replace (i mod Z.of_nat (length l)) with (i + Z.of_nat (length l));
      [exact E |].
    apply Z.mod_unique with (q := -1); [left; lia | lia].
  - destruct (Z.leb_spec 0 i); [| lia].
    destruct (Z.ltb_spec i (Z.of_nat (length l))); [| discriminate].
    cbn [andb] in H.
    destruct (l !! Z.to_nat i) as [y |] eqn:E; [| discriminate].
    injection H as <-. split; [lia |].
    now rewrite Z.mod_small by lia.
Qed.

Lemma getitem_Z_ok {X} (l : list X) (i : Z) :
  - Z.of_nat (length l) <= i < Z.of_nat (length l) ->
  exists x, getitem_Z l i = Ok x.
Proof.
  intros Hi. unfold getitem_Z.
  destruct (Z.ltb_spec i 0) as [Hneg | Hpos].
  - destruct (Z.leb_spec 0 (i + Z.of_nat (length l))); [| lia].
    destruct (Z.ltb_spec (i + Z.of_nat (length l)) (Z.of_nat (length l))); [| lia].
    cbn [andb].
    destruct (l !! Z.to_nat (i + Z.of_nat (length l))) as [y |] eqn:E; [eauto |].
    apply lookup_ge_None in E. lia.
  - destruct (Z.leb_spec 0 i); [| lia].
    destruct (Z.ltb_spec i (Z.of_nat (length l))); [| lia].
    cbn [andb].
    destruct (l !! Z.to_nat i) as [y |] eqn:E; [eauto |].
    apply lookup_ge_None in E. lia.
Qed.

Lemma getitem_Z_error {X} (l : list X) (i : Z) (e : exn) :
  getitem_Z l i = Raise e ->
  e = IndexError /\ ~ - Z.of_nat (length l) <= i < Z.of_nat (length l).
Proof.
  intros H. split.
  - unfold getitem_Z in H.
    destruct ((0 <=? _) && (_ <? _)); [| now injection H].
    destruct (l !! _); [discriminate | now injection H].
  - intros Hi. destruct (getitem_Z_ok l i Hi) as [x Hx]. congruence.
Qed.

Lemma join_singletons (cs : list ascii) : join [] (map (fun c => [c]) cs) = cs.
Proof.
  induction cs as [| c cs IH]; [reflexivity |].
  cbn [map]. destruct cs as [| c' cs]; [reflexivity |].
  change (join [] ([c] :: map (fun c => [c]) (c' :: cs)))
    with ([c] ++ [] ++ join [] (map (fun c => [c]) (c' :: cs))).
  now rewrite IH.
Qed.

Lemma list_comp_ok {X Y} (f : X -> result Y) (l : list X) (ys : list Y) :
  list_comp f l = Ok ys -> Forall2 (fun x y => f x = Ok y) l ys.
Proof.
  revert ys. induction l as [| x l IH]; intros ys H.
  - injection H as <-. constructor.
  - cbn [list_comp] in H. apply rbind_ok in H as (y & Hy & H).
    apply rbind_ok in H as (ys' & Hys' & H). injection H as <-.
    constructor; [exact Hy | now apply IH].
Qed.

Lemma list_comp_Forall2 {X Y} (f : X -> result Y) (l : list X) (ys : list Y) :
  Forall2 (fun x y => f x = Ok y) l ys -> list_comp f l = Ok ys.
Proof.
  induction 1 as [| x y l ys Hxy _ IH]; [reflexivity |].
  cbn [list_comp]. now rewrite Hxy, rbind_Ok, IH.
Qed.

(** The first exception of a list comprehension is one its body raises on
    an element. *)
Lemma list_comp_error {X Y} (f : X -> result Y) (l : list X) (e : exn) :
  list_comp f l = Raise e -> exists x, In x l /\ f x = Raise e.
Proof.
  induction l as [| x l IH]; intros H; [discriminate |].
  cbn [list_comp] in H. destruct (f x) as [y | e'] eqn:E.
  - rewrite rbind_Ok in H. destruct (list_comp f l) as [ys | e''];
      [discriminate |].
    injection H as ->. destruct (IH eq_refl) as (x' & Hin & Hx').
    exists x'. split; [now right | exact Hx'].
  - injection H as ->. exists x. split; [now left | exact E].
Qed.

(** An alphabet has no repeated character when the position of each one
    is the first position where it is found. *)
Lemma NoDup_by_index (A : list ascii) :
  forallb (fun j => match index A (nth j A "000"%char) with
                    | Ok i => i =? Z.of_nat j
                    | Raise _ => false
                    end) (seq 0 (length A)) = true ->
  NoDup A.
Proof.
  intros H. rewrite forallb_forall in H.
  apply NoDup_alt. intros i j c Hi Hj.
  pose proof (lookup_lt_Some _ _ _ Hi) as Hli.
  pose proof (lookup_lt_Some _ _ _ Hj) as Hlj.
  pose proof (H i ltac:(apply in_seq; lia)) as Ei.
  pose proof (H j ltac:(apply in_seq; lia)) as Ej.
  rewrite (nth_lookup_Some _ _ _ _ Hi) in Ei.
  rewrite (nth_lookup_Some _ _ _ _ Hj) in Ej.
  destruct (index A c) as [p |]; [| discriminate].
  apply Z.eqb_eq in Ei, Ej. lia.
Qed.

Lemma list_comp_index_total (A s : list ascii) :
  Forall (fun c => In c A) s -> exists l, list_comp (index A) s = Ok l.
Proof.
  induction 1 as [| c s Hc _ [l Hl]]; [now exists [] |].
  destruct (index_in A c Hc) as [i Hi].
  exists (i :: l). cbn [list_comp]. now rewrite Hi, rbind_Ok, Hl.
Qed.

(** X14 -- From a message to its index list and back.
    [message_to_indexlist] returns exactly when every character of the
    message occurs in the alphabet, and raises [ValueError] otherwise; the
    indexes it returns are positions of the alphabet, one for each
    character, and [indexlist_to_message] with the empty separator maps
    them back to the message, repeated characters in the alphabet or
    not. *)
Theorem message_indexlist_round_trip (s A : list ascii) :
  ((exists l, message_to_indexlist s A = Ok l) <-> over A s) /\
  (~ over A s -> message_to_indexlist s A = Raise ValueError) /\
  (forall l, message_to_indexlist s A = Ok l ->
     length l = length s /\
     Forall (fun i => 0 <= i < Z.of_nat (length A)) l /\
     indexlist_to_message l A [] = Ok s).
Proof.
  unfold message_to_indexlist, over.
  assert (Hok : forall l, list_comp (index A) s = Ok l ->
            Forall (fun c => In c A) s /\ length l = length s /\
            Forall (fun i => 0 <= i < Z.of_nat (length A)) l /\
            indexlist_to_message l A [] = Ok s).
  { intros l H. apply list_comp_ok in H.
    unfold indexlist_to_message.
    enough (Forall (fun c => In c A) s /\ length l = length s /\
            Forall (fun i => 0 <= i < Z.of_nat (length A)) l /\
            list_comp (getitem_Z A) l = Ok s) as (H1 & H2 & H3 & H4).
    { rewrite H4, rbind_Ok, join_singletons. auto. }
    induction H as [| c i s l Hci _ (IH1 & IH2 & IH3 & IH4)].
    - repeat split; constructor.
    - pose proof (index_ok_in _ _ _ Hci) as Hin.
      apply index_inv in Hci as (j & -> & Hj).
      pose proof (lookup_lt_Some _ _ _ Hj) as Hlt.
      split; [now constructor |]. split; [cbn [length]; lia |].
      split; [constructor; [lia | exact IH3] |].
      cbn [list_comp]. now rewrite (getitem_Z_nat _ _ _ Hj), rbind_Ok, IH4. }
  assert (Hiff : (exists l, list_comp (index A) s = Ok l) <->
                 Forall (fun c => In c A) s).
  { split.
    - intros [l H]. now apply Hok in H.
    - apply list_comp_index_total. }
  split; [exact Hiff |]. split.
  - intros Hn. destruct (list_comp (index A) s) as [l | e] eqn:E.
    + exfalso. apply Hn, Hiff. eauto.
    + apply list_comp_error in E as (c & _ & Hc).
      destruct (in_dec ascii_dec c A) as [Hin | Hin].
      * destruct (index_in A c Hin) as [i Hi]. congruence.
      * rewrite index_not_in in Hc by exact Hin. congruence.
  - intros l H. now apply Hok in H.
Qed.

(** X15 -- From an index list to its message and back, over an alphabet
    without repeated characters.  [indexlist_to_message] returns exactly
    when every index [i] satisfies [-len(alphabet) <= i < len(alphabet)]
    (a negative index counts from the end) and raises [IndexError]
    otherwise; [message_to_indexlist] maps the message back to the
    indexes, the negative ones replaced by the positions they denote. *)
Theorem indexlist_message_round_trip (l : list Z) (A : list ascii) :
  NoDup A ->
  ((exists s, indexlist_to_message l A [] = Ok s) <->
   Forall (fun i => - Z.of_nat (length A) <= i < Z.of_nat (length A)) l) /\
  (forall e, indexlist_to_message l A [] = Raise e -> e = IndexError) /\
  (forall s, indexlist_to_message l A [] = Ok s ->
     length s = length l /\
     message_to_indexlist s A = Ok (map (fun i => i mod Z.of_nat (length A)) l)).
Proof.
  intros Hnd. unfold indexlist_to_message, message_to_indexlist.
  split; [| split].
  - split.
    + intros [s H]. apply rbind_ok in H as (cs & Hcs & _).
      apply list_comp_ok in Hcs.
      induction Hcs as [| i c l cs Hic _ IH]; constructor; [| exact IH].
      now apply getitem_Z_inv in Hic.
    + intros H. enough (exists cs, list_comp (getitem_Z A) l = Ok cs) as [cs Hcs]
        by (rewrite Hcs, rbind_Ok; eauto).
      induction H as [| i l Hi _ [cs Hcs]]; [now exists [] |].
      destruct (getitem_Z_ok A i Hi) as [c Hc].
      exists (c :: cs). cbn [list_comp]. now rewrite Hc, rbind_Ok, Hcs.
  - intros e H. destruct (list_comp (getitem_Z A) l) as [cs | e'] eqn:E;
      [discriminate |].
    injection H as ->. apply list_comp_error in E as (i & _ & Hi).
    now apply getitem_Z_error in Hi.
  - intros s H. apply rbind_ok in H as (cs & Hcs & H).
    rewrite join_singletons in H. injection H as <-.
    apply list_comp_ok in Hcs.
    induction Hcs as [| i c l cs Hic _ (IH1 & IH2)]; [split; reflexivity |].
    split; [cbn [length]; lia |].
    apply getitem_Z_inv in Hic as (Hr & Hl).
    cbn [list_comp map].
    rewrite (index_lookup A Hnd _ _ Hl), rbind_Ok, IH2, rbind_Ok.
    rewrite Z2Nat.id; [reflexivity |].
    destruct (Z.eq_dec (Z.of_nat (length A)) 0) as [E0 | Hn0]; [lia |].
    apply Z.mod_pos_bound. lia.
Qed.

Lemma indexlist_message_round_trip_witness :
  ((exists s, indexlist_to_message [0; 1; 4; 2; -1] (s_ "abcde") [] = Ok s) <->
   Forall (fun i => - Z.of_nat (length (s_ "abcde")) <= i
                    < Z.of_nat (length (s_ "abcde"))) [0; 1; 4; 2; -1]) /\
  (forall e, indexlist_to_message [0; 1; 4; 2; -1] (s_ "abcde") [] = Raise e ->
     e = IndexError) /\
  (forall s, indexlist_to_message [0; 1; 4; 2; -1] (s_ "abcde") [] = Ok s ->
     length s = length [0; 1; 4; 2; -1] /\
     message_to_indexlist s (s_ "abcde")
     = Ok (map (fun i => i mod Z.of_nat (length (s_ "abcde"))) [0; 1; 4; 2; -1])).
Proof.
  apply (indexlist_message_round_trip [0; 1; 4; 2; -1] (s_ "abcde")).
  apply NoDup_by_index. vm_compute. reflexivity.
Defined.

(* ================================================================== *)
(** * The Caesar cipher ([classic/caesar.py]) *)

Lemma obind_Return {X Y} (a : X) (k : X -> outcome Y) : obind (Return a) k = k a.
Proof. reflexivity. Qed.

Lemma olist_comp_ext {X Y} (f g : X -> outcome Y) (l : list X) :
  (forall x, f x = g x) -> olist_comp f l = olist_comp g l.
Proof.
  intros H. induction l as [| x l IH]; [reflexivity |].
  cbn [olist_comp]. now rewrite H, IH.
Qed.

Lemma lookup_nth {X} (l : list X) (i : nat) (d : X) :
  (i < length l)%nat -> l !! i = Some (nth i l d).
Proof.
  intros Hi. destruct (l !! i) as [x |] eqn:E.
  - f_equal. symmetry. now apply nth_lookup_Some with (d := d) in E.
  - apply lookup_ge_None in E. lia.
Qed.

Lemma getitem_Z_nth {X} (l : list X) (j : Z) (d : X) :
  0 <= j < Z.of_nat (length l) -> getitem_Z l j = Ok (nth (Z.to_nat j) l d).
Proof.
  intros Hj. rewrite <- (Z2Nat.id j) at 1 by lia.
  apply getitem_Z_nat, lookup_nth. lia.
Qed.

Lemma py_mod_pos (a n : Z) : 0 < n -> py_mod a n = Return (a mod n).
Proof.
  intros Hn. unfold py_mod. destruct (Z.eqb_spec n 0); [lia | reflexivity].
Qed.

(** The body of the comprehension of [encrypt], on one character. *)
Lemma encrypt_char (self : CaesarCipher) (m : ascii) :
  (do i <- of_result (index (alphabet self) m);
   do j <- enc self i;
   of_result (getitem_Z (alphabet self) j))%outcome =
  if in_dec ascii_dec m (alphabet self)
  then Return (shift_char (alphabet self) (key self) m)
  else Throw (Exn ValueError).
Proof.
  destruct (in_dec ascii_dec m (alphabet self)) as [Hin | Hin].
  - destruct (index_in _ _ Hin) as [i Hi]. unfold shift_char. rewrite Hi.
    cbn [of_result]. rewrite obind_Return. unfold enc.
    apply index_inv in Hi as (j & -> & Hj).
    pose proof (lookup_lt_Some _ _ _ Hj) as Hlt.
    rewrite py_mod_pos, obind_Return by lia.
    rewrite (getitem_Z_nth _ _ m); [reflexivity |].
    apply Z.mod_pos_bound. lia.
  - now rewrite index_not_in.
Qed.

Lemma encrypt_eq (self : CaesarCipher) (m : list ascii) :
  (over (alphabet self) m ->
   encrypt self m = Return (map (shift_char (alphabet self) (key self)) m)) /\
  (~ over (alphabet self) m -> encrypt self m = Throw (Exn ValueError)).
Proof.
  unfold encrypt, over. induction m as [| c m [IH1 IH2]].
  - split; [reflexivity |]. intros H. exfalso. apply H. constructor.
  - cbn [olist_comp]. rewrite encrypt_char.
    destruct (in_dec ascii_dec c (alphabet self)) as [Hin | Hin].
    + rewrite obind_Return. split.
      * intros H. inversion H; subst. now rewrite IH1.
      * intros H. rewrite IH2; [reflexivity |].
        intros Hm. apply H. now constructor.
    + split; [| reflexivity]. intros H. inversion H; subst. contradiction.
Qed.

Lemma dec_as_enc (self : CaesarCipher) (i : Z) :
  dec self i = enc (mkCaesarCipher (alphabet self) (- key self)) i.
Proof.
  unfold dec, enc, py_mod. cbn [alphabet key].
  destruct (Z.eqb_spec (Z.of_nat (length (alphabet self))) 0) as [E | Hn];
    [reflexivity |].
  f_equal.
  replace (i + Z.of_nat (length (alphabet self)) - key self)
    with (i + - key self + 1 * Z.of_nat (length (alphabet self))) by lia.
  now rewrite Z.mod_add by exact Hn.
Qed.

Lemma decrypt_as_encrypt (self : CaesarCipher) (m : list ascii) :
  decrypt self m = encrypt (mkCaesarCipher (alphabet self) (- key self)) m.
Proof.
  unfold decrypt, encrypt. apply olist_comp_ext. intros c.
  cbn [alphabet]. destruct (of_result (index (alphabet self) c)); [| reflexivity].
  cbn [obind]. now rewrite dec_as_enc.
Qed.

Lemma shift_char_in (A : list ascii) (k : Z) (c : ascii) :
  In c A -> In (shift_char A k c) A.
Proof.
  intros Hin. unfold shift_char. destruct (index A c) as [i |] eqn:E; [| exact Hin].
  apply index_inv in E as (j & -> & Hj).
  pose proof (lookup_lt_Some _ _ _ Hj) as Hlt.
  apply nth_In.
  pose proof (Z.mod_pos_bound (Z.of_nat j + k) (Z.of_nat (length A))). lia.
Qed.

Lemma shift_char_index (A : list ascii) (k : Z) (c : ascii) (i : Z) :
  NoDup A -> index A c = Ok i ->
  index A (shift_char A k c) = Ok ((i + k) mod Z.of_nat (length A)).
Proof.
  intros Hnd Hi. unfold shift_char. rewrite Hi.
  apply index_inv in Hi as (j & -> & Hj).
  pose proof (lookup_lt_Some _ _ _ Hj) as Hlt.
  pose proof (Z.mod_pos_bound (Z.of_nat j + k) (Z.of_nat (length A))) as Hr.
  rewrite <- (Z2Nat.id ((Z.of_nat j + k) mod Z.of_nat (length A))) at 2 by lia.
  apply index_lookup; [exact Hnd |].
  apply lookup_nth. lia.
Qed.

Lemma shift_char_compose (A : list ascii) (k1 k2 : Z) (c : ascii) :
  NoDup A -> In c A ->
  shift_char A k2 (shift_char A k1 c) = shift_char A (k1 + k2) c.
Proof.
  intros Hnd Hin. destruct (index_in A c Hin) as [i Hi].
  unfold shift_char at 1. rewrite (shift_char_index A k1 c i Hnd Hi).
  unfold shift_char. rewrite Hi.
  apply index_inv in Hi as (j & -> & Hj).
  pose proof (lookup_lt_Some _ _ _ Hj) as Hlt.
  rewrite Zplus_mod_idemp_l, Z.add_assoc.
  apply nth_indep.
  pose proof (Z.mod_pos_bound (Z.of_nat j + k1 + k2) (Z.of_nat (length A))). lia.
Qed.

Lemma shift_char_0 (A : list ascii) (c : ascii) : shift_char A 0 c = c.
Proof.
  unfold shift_char. destruct (index A c) as [i |] eqn:E; [| reflexivity].
  apply index_inv in E as (j & -> & Hj).
  pose proof (lookup_lt_Some _ _ _ Hj) as Hlt.
  rewrite Z.add_0_r, Z.mod_small, Nat2Z.id by lia.
  now apply nth_lookup_Some with (d := c) in Hj.
Qed.

Lemma shift_char_period (A : list ascii) (k : Z) (c : ascii) :
  shift_char A (k + Z.of_nat (length A)) c = shift_char A k c.
Proof.
  unfold shift_char. destruct (index A c) as [i |] eqn:E; [| reflexivity].
  apply index_inv in E as (j & -> & Hj).
  pose proof (lookup_lt_Some _ _ _ Hj) as Hlt.
  replace (Z.of_nat j + (k + Z.of_nat (length A)))
    with (Z.of_nat j + k + 1 * Z.of_nat (length A)) by lia.
  now rewrite Z.mod_add by lia.
Qed.

Lemma over_map_shift (A : list ascii) (k : Z) (m : list ascii) :
  over A m -> over A (map (shift_char A k) m).
Proof.
  unfold over. intros H. apply Forall_map. eapply Forall_impl; [exact H |].
  intros c Hc. now apply shift_char_in.
Qed.

Lemma map_shift_compose (A : list ascii) (k1 k2 : Z) (m : list ascii) :
  NoDup A -> over A m ->
  map (shift_char A k2) (map (shift_char A k1) m) = map (shift_char A (k1 + k2)) m.
Proof.
  intros Hnd. unfold over. induction 1 as [| c m Hc _ IH]; [reflexivity |].
  cbn [map]. now rewrite shift_char_compose, IH.
Qed.

Lemma map_shift_0 (A : list ascii) (m : list ascii) : map (shift_char A 0) m = m.
Proof.
  induction m as [| c m IH]; [reflexivity |].
  cbn [map]. now rewrite shift_char_0, IH.
Qed.

Lemma over_dec (A m : list ascii) : over A m \/ ~ over A m.
Proof.
  unfold over. induction m as [| c m [IH | IH]].
  - left. constructor.
  - destruct (in_dec ascii_dec c A) as [Hin | Hin].
    + left. now constructor.
    + right. intros H. inversion H; subst. contradiction.
  - right. intros H. inversion H; subst. contradiction.
Qed.

(** X16 -- Round trip of the Caesar cipher.  Over an alphabet without
    repeated characters, for every integer key and every message written
    in the alphabet, [encrypt] returns a message of the same length in the
    alphabet which [decrypt] maps back to the message, and the same holds
    with [decrypt] first and [encrypt] second. *)
Theorem caesar_round_trip (self : CaesarCipher) (m : list ascii) :
  NoDup (alphabet self) -> over (alphabet self) m ->
  exists c p,
    encrypt self m = Return c /\ decrypt self c = Return m /\
    decrypt self m = Return p /\ encrypt self p = Return m /\
    length c = length m /\ over (alphabet self) c /\
    length p = length m /\ over (alphabet self) p.
Proof.
  intros Hnd Hm.
  pose proof (over_map_shift (alphabet self) (key self) m Hm) as Hc.
  pose proof (over_map_shift (alphabet self) (- key self) m Hm) as Hp.
  exists (map (shift_char (alphabet self) (key self)) m),
         (map (shift_char (alphabet self) (- key self)) m).
  split; [now apply encrypt_eq |].
  split.
  { rewrite decrypt_as_encrypt.
    rewrite (proj1 (encrypt_eq _ _)) by exact Hc. cbn [alphabet key].
    rewrite map_shift_compose by assumption.
    now rewrite Z.add_opp_diag_r, map_shift_0. }
  split.
  { rewrite decrypt_as_encrypt. now rewrite (proj1 (encrypt_eq _ _)) by exact Hm. }
  split.
  { rewrite (proj1 (encrypt_eq _ _)) by exact Hp.
    rewrite map_shift_compose by assumption.
    now rewrite Z.add_opp_diag_l, map_shift_0. }
  rewrite !length_map. auto.
Qed.

Lemma caesar_round_trip_witness :
  exists c p,
    encrypt (mkCaesarCipher (s_ "ABCDEFGHIJKLMNOPQRSTUVWXYZ") 23) (s_ "FOOBAR") = Return c /\
    decrypt (mkCaesarCipher (s_ "ABCDEFGHIJKLMNOPQRSTUVWXYZ") 23) c = Return (s_ "FOOBAR") /\
    decrypt (mkCaesarCipher (s_ "ABCDEFGHIJKLMNOPQRSTUVWXYZ") 23) (s_ "FOOBAR") = Return p /\
    encrypt (mkCaesarCipher (s_ "ABCDEFGHIJKLMNOPQRSTUVWXYZ") 23) p = Return (s_ "FOOBAR") /\
    length c = length (s_ "FOOBAR") /\
    over (alphabet (mkCaesarCipher (s_ "ABCDEFGHIJKLMNOPQRSTUVWXYZ") 23)) c /\
    length p = length (s_ "FOOBAR") /\
    over (alphabet (mkCaesarCipher (s_ "ABCDEFGHIJKLMNOPQRSTUVWXYZ") 23)) p.
Proof.
  apply (caesar_round_trip (mkCaesarCipher (s_ "ABCDEFGHIJKLMNOPQRSTUVWXYZ") 23)
           (s_ "FOOBAR")).
  - apply NoDup_by_index. vm_compute. reflexivity.
  - repeat (constructor; [simpl; tauto |]). constructor.
Defined.

(** X17 -- Errors of the Caesar cipher.  [encrypt] and [decrypt] return
    exactly when every character of the text occurs in the alphabet, also
    for an alphabet with repeated characters and for any integer key;
    otherwise they raise the [ValueError] of [alphabet.index].  No
    [IndexError] and no [ZeroDivisionError] arises, not even with an empty
    alphabet, on which the empty text alone is accepted. *)
Theorem caesar_errors (self : CaesarCipher) (m : list ascii) :
  ((exists c, encrypt self m = Return c) <-> over (alphabet self) m) /\
  (~ over (alphabet self) m -> encrypt self m = Throw (Exn ValueError)) /\
  ((exists p, decrypt self m = Return p) <-> over (alphabet self) m) /\
  (~ over (alphabet self) m -> decrypt self m = Throw (Exn ValueError)) /\
  (alphabet self = [] -> m <> [] -> encrypt self m = Throw (Exn ValueError)).
Proof.
  assert (Hdec : forall t : CaesarCipher,
            (exists c, encrypt t m = Return c) <-> over (alphabet t) m).
  { intros t. destruct (encrypt_eq t m) as [H1 H2]. split.
    - intros [c Hc]. destruct (over_dec (alphabet t) m) as [Ho | Hn];
        [exact Ho |].
      rewrite (H2 Hn) in Hc. discriminate.
    - intros Ho. rewrite (H1 Ho). eauto. }
  split; [apply Hdec |].
  split; [apply encrypt_eq |].
  split; [rewrite decrypt_as_encrypt; apply (Hdec (mkCaesarCipher _ _)) |].
  split; [rewrite decrypt_as_encrypt;
          apply (encrypt_eq (mkCaesarCipher (alphabet self) (- key self))) |].
  intros HA Hm. apply encrypt_eq. rewrite HA. intros Ho.
  destruct m as [| c m]; [contradiction |]. inversion Ho; subst. contradiction.
Qed.

(** X18 -- Keys add up.  Over an alphabet without repeated characters and
    on a message written in it, encrypting with [k1] and then with [k2] is
    encrypting with [k1 + k2]; on every text [decrypt] with key [k] is
    [encrypt] with key [-k], and keys that differ by the length of the
    alphabet give the same result. *)
Theorem caesar_keys_add (A : list ascii) (k1 k2 : Z) (m : list ascii) :
  NoDup A -> over A m ->
  (exists c, encrypt (mkCaesarCipher A k1) m = Return c /\
             encrypt (mkCaesarCipher A k2) c = encrypt (mkCaesarCipher A (k1 + k2)) m) /\
  (forall t, decrypt (mkCaesarCipher A k1) t = encrypt (mkCaesarCipher A (- k1)) t) /\
  encrypt (mkCaesarCipher A (k1 + Z.of_nat (length A))) m
  = encrypt (mkCaesarCipher A k1) m.
Proof.
  intros Hnd Hm. split; [| split].
  - exists (map (shift_char A k1) m).
    split; [now apply (encrypt_eq (mkCaesarCipher A k1)) |].
    rewrite (proj1 (encrypt_eq (mkCaesarCipher A k2) _))
      by now apply over_map_shift.
    rewrite (proj1 (encrypt_eq (mkCaesarCipher A (k1 + k2)) _)) by exact Hm.
    cbn [alphabet key]. now rewrite map_shift_compose.
  - intros t. apply decrypt_as_encrypt.
  - rewrite !(proj1 (encrypt_eq (mkCaesarCipher A _) _)) by exact Hm.
    cbn [alphabet key]. f_equal. apply map_ext. intros c.
    apply shift_char_period.
Qed.

Lemma caesar_keys_add_witness :
  (exists c, encrypt (mkCaesarCipher (s_ "abcde") 3) (s_ "abec") = Return c /\
             encrypt (mkCaesarCipher (s_ "abcde") 4) c
             = encrypt (mkCaesarCipher (s_ "abcde") (3 + 4)) (s_ "abec")) /\
  (forall t, decrypt (mkCaesarCipher (s_ "abcde") 3) t
             = encrypt (mkCaesarCipher (s_ "abcde") (- 3)) t) /\
  encrypt (mkCaesarCipher (s_ "abcde") (3 + Z.of_nat (length (s_ "abcde")))) (s_ "abec")
  = encrypt (mkCaesarCipher (s_ "abcde") 3) (s_ "abec").
Proof.
  apply (caesar_keys_add (s_ "abcde") 3 4 (s_ "abec")).
  - apply NoDup_by_index. vm_compute. reflexivity.
  - repeat (constructor; [simpl; tauto |]). constructor.
Defined.

(* ================================================================== *)
(** * Factoring with a known phi ([tools/rsa_attack.py]) *)

Lemma int_sqrt_loop_eq (fuel : nat) (n x y : Z) :
  int_sqrt_loop fuel n x y =
  if y <? x then
    match fuel with
    | O => None
    | S fuel' =>
        match py_floordiv n y with
        | Return q => int_sqrt_loop fuel' n y ((y + q) / 2)
        | Throw e => Some (Throw e)
        end
    end
  else Some (Return x).
Proof. destruct fuel; reflexivity. Qed.

Lemma py_floordiv_nonzero (a b : Z) : b <> 0 -> py_floordiv a b = Return (a / b).
Proof.
  intros Hb. unfold py_floordiv. destruct (Z.eqb_spec b 0); [contradiction | reflexivity].
Qed.

(** The step of Newton's iteration does not go below the root. *)
Lemma newton_step_lower (n x s : Z) :
  1 <= x -> 0 <= s -> s * s <= n -> s <= (x + n / x) / 2.
Proof.
  intros Hx Hs Hn.
  assert (Hq : x * (n / x) <= n < x * (n / x) + x).
  { pose proof (Z.div_mod n x ltac:(lia)) as Hd.
    pose proof (Z.mod_pos_bound n x ltac:(lia)). lia. }
  assert (Hq0 : 0 <= n / x) by (apply Z.div_pos; nia).
  apply Z.div_le_lower_bound; [lia |].
  revert Hq Hq0. generalize (n / x). intros q Hq Hq0.
  destruct (Z_le_gt_dec (2 * s) (x + q)) as [Hle | Hgt]; [exact Hle |].
  exfalso.
  assert (H1 : 4 * (x * (q + 1)) <= (x + q + 1) * (x + q + 1)).
  { pose proof (Z.square_nonneg (x - (q + 1))). lia. }
  assert (H2 : (x + q + 1) * (x + q + 1) <= (2 * s) * (2 * s))
    by (apply Z.mul_le_mono_nonneg; lia).
  lia.
Qed.

(** When the iteration stops, [x] is not above the root. *)
Lemma newton_stop_upper (n x : Z) :
  1 <= x -> 0 <= n -> x <= (x + n / x) / 2 -> x * x <= n.
Proof.
  intros Hx Hn Hy.
  assert (Hq : x * (n / x) <= n).
  { pose proof (Z.div_mod n x ltac:(lia)) as Hd.
    pose proof (Z.mod_pos_bound n x ltac:(lia)). lia. }
  assert (H2 : 2 * x <= x + n / x).
  { pose proof (Z.mul_div_le (x + n / x) 2 ltac:(lia)). lia. }
  nia.
Qed.

Lemma sqrt_pos (n : Z) : 1 <= n -> 1 <= Z.sqrt n.
Proof. intros Hn. pose proof (Z.sqrt_pos n). lia. Qed.

Lemma sqrt_bounds (n : Z) :
  0 <= n -> Z.sqrt n * Z.sqrt n <= n < (Z.sqrt n + 1) * (Z.sqrt n + 1).
Proof. intros Hn. pose proof (Z.sqrt_spec n Hn) as H. cbv zeta in H. lia. Qed.

(** Whatever the bound on the passes, the loop ends on the integer square
    root or has not ended yet; it never divides by zero. *)
Lemma int_sqrt_loop_sound (fuel : nat) :
  forall n x r, 1 <= n -> Z.sqrt n <= x ->
  int_sqrt_loop fuel n x ((x + n / x) / 2) = Some r ->
  r = Return (Z.sqrt n).
Proof.
  induction fuel as [| fuel IH]; intros n x r Hn Hx H;
    rewrite int_sqrt_loop_eq in H;
    pose proof (sqrt_pos n Hn) as Hs;
    pose proof (sqrt_bounds n ltac:(lia)) as Hspec;
    pose proof (newton_step_lower n x (Z.sqrt n) ltac:(lia) ltac:(lia) ltac:(lia)) as Hy;
    destruct (Z.ltb_spec ((x + n / x) / 2) x) as [Hlt | Hge]; try discriminate.
  - injection H as <-. f_equal.
    pose proof (newton_stop_upper n x ltac:(lia) ltac:(lia) Hge). nia.
  - rewrite py_floordiv_nonzero in H by lia. apply IH in H; [exact H | lia | lia].
  - injection H as <-. f_equal.
    pose proof (newton_stop_upper n x ltac:(lia) ltac:(lia) Hge). nia.
Qed.

(** With as many passes allowed as [x] is above the root, the loop ends. *)
Lemma int_sqrt_loop_total (fuel : nat) :
  forall n x, 1 <= n -> Z.sqrt n <= x ->
  (Z.to_nat (x - Z.sqrt n) <= fuel)%nat ->
  int_sqrt_loop fuel n x ((x + n / x) / 2) = Some (Return (Z.sqrt n)).
Proof.
  induction fuel as [| fuel IH]; intros n x Hn Hx Hf;
    rewrite int_sqrt_loop_eq;
    pose proof (sqrt_pos n Hn) as Hs;
    pose proof (sqrt_bounds n ltac:(lia)) as Hspec;
    pose proof (newton_step_lower n x (Z.sqrt n) ltac:(lia) ltac:(lia) ltac:(lia)) as Hy;
    destruct (Z.ltb_spec ((x + n / x) / 2) x) as [Hlt | Hge].
  - lia.
  - do 2 f_equal.
    pose proof (newton_stop_upper n x ltac:(lia) ltac:(lia) Hge). nia.
  - rewrite py_floordiv_nonzero by lia. apply IH; lia.
  - do 2 f_equal.
    pose proof (newton_stop_upper n x ltac:(lia) ltac:(lia) Hge). nia.
Qed.

Lemma int_sqrt_start (fuel : nat) (n : Z) :
  1 <= n -> int_sqrt fuel n = int_sqrt_loop fuel n n ((n + n / n) / 2).
Proof. intros Hn. unfold int_sqrt. now rewrite Z_div_same_full by lia. Qed.

Lemma sqrt_le_self (n : Z) : 0 <= n -> Z.sqrt n <= n.
Proof.
  intros Hn. pose proof (sqrt_bounds n Hn). pose proof (Z.sqrt_nonneg n). nia.
Qed.

(** X19 -- [int_sqrt] computes the integer square root of a non-negative
    integer: the loop ends, within [n] passes at most, on the [r] with
    [r * r <= n < (r + 1) * (r + 1)], and however the passes are bounded
    nothing else comes out, in particular no [ZeroDivisionError]. *)
Theorem int_sqrt_floor (n : Z) (fuel : nat) :
  0 <= n ->
  (forall r, int_sqrt fuel n = Some r -> r = Return (Z.sqrt n)) /\
  ((Z.to_nat n <= fuel)%nat -> int_sqrt fuel n = Some (Return (Z.sqrt n))) /\
  0 <= Z.sqrt n /\
  Z.sqrt n * Z.sqrt n <= n < (Z.sqrt n + 1) * (Z.sqrt n + 1).
Proof.
  intros Hn.
  pose proof (sqrt_bounds n Hn) as Hspec. pose proof (Z.sqrt_nonneg n) as Hs.
  split; [| split; [| split; [exact Hs |]]].
  - destruct (Z.eq_dec n 0) as [-> | Hn0].
    + intros r. unfold int_sqrt. rewrite int_sqrt_loop_eq.
      change ((0 + 1) / 2 <? 0) with false. cbv iota. now intros [= <-].
    + intros r. rewrite int_sqrt_start by lia.
      apply int_sqrt_loop_sound; [lia | now apply sqrt_le_self].
  - intros Hf. destruct (Z.eq_dec n 0) as [-> | Hn0].
    + unfold int_sqrt. now rewrite int_sqrt_loop_eq.
    + rewrite int_sqrt_start by lia.
      apply int_sqrt_loop_total; [lia | now apply sqrt_le_self | lia].
  - exact Hspec.
Qed.

Lemma int_sqrt_floor_witness :
  (forall r, int_sqrt 99 99 = Some r -> r = Return (Z.sqrt 99)) /\
  ((Z.to_nat 99 <= 99)%nat -> int_sqrt 99 99 = Some (Return (Z.sqrt 99))) /\
  0 <= Z.sqrt 99 /\
  Z.sqrt 99 * Z.sqrt 99 <= 99 < (Z.sqrt 99 + 1) * (Z.sqrt 99 + 1).
Proof. apply (int_sqrt_floor 99 99). lia. Defined.

(** X20 -- On a negative integer [int_sqrt] raises nothing: the loop is not
    entered and [n] itself is returned. *)
Theorem int_sqrt_negative (n : Z) (fuel : nat) :
  n < 0 -> int_sqrt fuel n = Some (Return n).
Proof.
  intros Hn. unfold int_sqrt. rewrite int_sqrt_loop_eq.
  destruct (Z.ltb_spec ((n + 1) / 2) n) as [Hlt | _]; [| reflexivity].
  exfalso. pose proof (Z.mul_div_le (n + 1) 2 ltac:(lia)).
  pose proof (Z.mod_pos_bound (n + 1) 2 ltac:(lia)).
  pose proof (Z.div_mod (n + 1) 2 ltac:(lia)). lia.
Qed.

Lemma int_sqrt_negative_witness : int_sqrt 0 (-5) = Some (Return (-5)).
Proof. apply (int_sqrt_negative (-5) 0). lia. Defined.

(** X21 -- The attack recovers the factors.  For integers [q <= p] of the
    same parity (two odd primes, for instance), [factorize] applied to
    [n = p * q] and [phi = (p - 1) * (q - 1)] returns [(p, q)]; however the
    passes of the square root are bounded, nothing else comes out. *)
Theorem factorize_recovers (p q : Z) (fuel : nat) :
  q <= p -> (p + q) mod 2 = 0 ->
  (forall r, factorize fuel (p * q) ((p - 1) * (q - 1)) = Some r ->
     r = Return (p, q)) /\
  ((Z.to_nat (((p - q) / 2) ^ 2) <= fuel)%nat ->
   factorize fuel (p * q) ((p - 1) * (q - 1)) = Some (Return (p, q))).
Proof.
  intros Hqp Hpar.
  assert (Ha : exists a, p + q = 2 * a).
  { exists ((p + q) / 2). pose proof (Z.div_mod (p + q) 2 ltac:(lia)). lia. }
  destruct Ha as [a Ha].
  assert (Hd : exists d, 0 <= d /\ p = a + d /\ q = a - d).
  { exists (p - a). lia. }
  destruct Hd as (d & Hd0 & -> & ->).
  assert (E1 : (a + d) * (a - d) + 1 - (a + d - 1) * (a - d - 1) = 2 * a) by lia.
  assert (E2 : 2 * a / 2 = a) by (rewrite Z.mul_comm; apply Z.div_mul; lia).
  assert (E3 : a ^ 2 - (a + d) * (a - d) = d * d) by lia.
  assert (E4 : (a + d - (a - d)) / 2 = d).
  { replace (a + d - (a - d)) with (d * 2) by lia. apply Z.div_mul. lia. }
  assert (E5 : Z.sqrt (d * d) = d) by (apply Z.sqrt_square; exact Hd0).
  unfold factorize. rewrite E1, E2, E3, E4.
  destruct (int_sqrt_floor (d * d) fuel ltac:(nia)) as (Hsound & Htotal & _).
  rewrite E5 in Hsound, Htotal. split.
  - intros r Hr. destruct (int_sqrt fuel (d * d)) as [[b | e] |] eqn:E;
      try discriminate.
    + specialize (Hsound _ eq_refl). injection Hsound as ->.
      injection Hr as <-. do 2 f_equal; lia.
    + specialize (Hsound _ eq_refl). discriminate.
  - intros Hf. rewrite Htotal by (rewrite <- Z.pow_2_r; exact Hf).
    do 3 f_equal; lia.
Qed.

Lemma factorize_recovers_witness :
  (forall r, factorize 4 (11 * 7) ((11 - 1) * (7 - 1)) = Some r -> r = Return (11, 7)) /\
  ((Z.to_nat (((11 - 7) / 2) ^ 2) <= 4)%nat ->
   factorize 4 (11 * 7) ((11 - 1) * (7 - 1)) = Some (Return (11, 7))).
Proof. apply (factorize_recovers 11 7 4); [lia | reflexivity]. Defined.
